(** * Event / Booking models and the connection manager

    A shallow embedding of the validation and normalisation layer of the
    dev-events backend:

    - [src/components/LightRaysClient.tsx], second document: the Event model
      ([slugifyTitle], [pad2], [normalizeSingleTime], [normalizeTime], the
      Event schema and its pre-save hook);
    - [src/database/booking.model.ts]: [EMAIL_REGEX], the Booking schema and
      its pre-save hook;
    - [src/unnamed/part_000], first document: [connectToDatabase] and its
      process-wide cache.

    What is modelled, and how:

    - JavaScript strings are lists of 8-bit code units (U+0000..U+00FF,
      i.e. Latin-1); on that range [trim], [toLowerCase] and the classes
      [\s], [\d] of regular expressions are defined as ECMAScript defines
      them.  Beyond that range a character may lower-case into [a-z0-9]
      (U+212A gives [k]), so what is stated of slugs is stated of the
      lower-cased title, never of the characters of the title itself.
    - The regular-expression literals are syntax trees, run by a
      backtracking matcher that follows the ECMAScript matching order
      (greedy quantifiers, left alternative first); [exec], [test] and
      [replace] with the [g] flag are defined on top of it.
    - [throw new Error(msg)] is the result [Throw msg].
    - The host's [Date] (parsing is implementation-defined) is a parameter
      of the Event hook.
    - Of the persistence framework the model keeps what the source relies
      on: setters declared in a schema run when a path is assigned, built-in
      validation runs before the pre-save hooks, a new document has all its
      assigned paths marked as modified.
    - [connectToDatabase] is an asynchronous function: it is modelled as a
      transition system in which a call runs up to its [await], the driver
      settles the promise, and the call resumes; the theorem ranges over
      every interleaving. *)

From Stdlib Require Import Ascii String Bool Arith ZArith Lia List.
Import ListNotations.

Set Implicit Arguments.
Local Open Scope char_scope.
Local Open Scope nat_scope.
Local Open Scope list_scope.

(** ** Strings *)

Module JsString.

Definition jsstring := list ascii.

(** A string literal as a list of code units. *)
Definition str (s : string) : jsstring := list_ascii_of_string s.

Definition code (c : ascii) : nat := nat_of_ascii c.

Definition in_range (lo hi : ascii) (c : ascii) : bool :=
  Nat.leb (code lo) (code c) && Nat.leb (code c) (code hi).

(** ECMAScript WhiteSpace and LineTerminator code points below U+0100:
    TAB, LF, VT, FF, CR, SP, NBSP.  Both [String.prototype.trim] and the
    class [\s] use this set. *)
Definition is_space (c : ascii) : bool :=
  in_range "009" "013" c || Nat.eqb (code c) 32 || Nat.eqb (code c) 160.

Definition is_digit (c : ascii) : bool := in_range "0" "9" c.

Fixpoint trimStart (s : jsstring) : jsstring :=
  match s with
  | [] => []
  | c :: t => if is_space c then trimStart t else s
  end.

Definition trimEnd (s : jsstring) : jsstring := rev (trimStart (rev s)).

(** [String.prototype.trim]. *)
Definition trim (s : jsstring) : jsstring := trimEnd (trimStart s).

(** Lower-case mapping of one code unit: A-Z and the Latin-1 capitals
    U+00C0..U+00DE (U+00D7, the multiplication sign, excepted) move up by
    32; every other code unit below U+0100 is its own lower case. *)
Definition lower_char (c : ascii) : ascii :=
  if in_range "A" "Z" c
     || (in_range "192" "222" c && negb (Nat.eqb (code c) 215))
  then ascii_of_nat (code c + 32) else c.

(** [String.prototype.toLowerCase]. *)
Definition toLowerCase (s : jsstring) : jsstring := map lower_char s.

(** Upper-case mapping of an ASCII letter; the source applies
    [toUpperCase] only to text matched by [[AaPp][Mm]]. *)
Definition upper_char (c : ascii) : ascii :=
  if in_range "a" "z" c then ascii_of_nat (code c - 32) else c.

Definition toUpperCase (s : jsstring) : jsstring := map upper_char s.

Definition ascii_eqb (a b : ascii) : bool := Nat.eqb (code a) (code b).

Fixpoint jseqb (a b : jsstring) : bool :=
  match a, b with
  | [], [] => true
  | x :: a', y :: b' => ascii_eqb x y && jseqb a' b'
  | _, _ => false
  end.

(** [String.prototype.split] with a one-character separator: the pieces
    between the occurrences of the separator, empty pieces included. *)
Fixpoint split (sep : ascii) (s : jsstring) : list jsstring :=
  match s with
  | [] => [[]]
  | c :: t =>
      if ascii_eqb c sep then [] :: split sep t
      else match split sep t with
           | h :: r => (c :: h) :: r
           | [] => [[c]]
           end
  end.

(** Decimal digit for a value below ten. *)
Definition digit_char (d : nat) : ascii := ascii_of_nat (48 + d).

(** [Number.prototype.toString] on a natural number (radix 10). *)
Fixpoint nat_digits (fuel n : nat) (acc : jsstring) : jsstring :=
  match fuel with
  | 0 => acc
  | S f =>
      let acc' := digit_char (n mod 10) :: acc in
      if Nat.eqb (n / 10) 0 then acc' else nat_digits f (n / 10) acc'
  end.

Definition toString (n : nat) : jsstring := nat_digits (S n) n [].

(** [String.prototype.padStart] with a one-character filler. *)
Definition padStart (width : nat) (fill : ascii) (s : jsstring) : jsstring :=
  repeat fill (width - length s) ++ s.

(** [Number] applied to a string of decimal digits (the only strings the
    source converts are capture groups made of digits). *)
Definition Number (s : jsstring) : nat :=
  fold_left (fun acc c => 10 * acc + (code c - 48)) s 0.

End JsString.
Import JsString.

(** ** Regular expressions

    The regular-expression literals of the source are embedded as syntax
    trees.  [rmatch] is a backtracking matcher in continuation-passing style,
    in the manner of the ECMAScript specification: a quantifier is greedy, the
    left branch of an alternative is tried first, an iteration of a
    quantified atom that consumes nothing is rejected, [^] holds at index 0
    and [$] at the end of the input (no [m] flag is used in the source). *)

Module Regex.

Definition cclass := ascii -> bool.

Definition cls_char (a : ascii) : cclass := fun c => ascii_eqb c a.
Definition cls_range (lo hi : ascii) : cclass := in_range lo hi.
Definition cls_or (p q : cclass) : cclass := fun c => p c || q c.
Definition cls_not (p : cclass) : cclass := fun c => negb (p c).

Inductive regex : Type :=
| Eps
| Cls (p : cclass)
| Seq (a b : regex)
| Alt (a b : regex)
| Star (a : regex)
| Group (i : nat) (a : regex)
| Bol
| Eol.

(** A literal character, [a+], [a?] and [a{2,}]. *)
Definition Chr (c : ascii) : regex := Cls (cls_char c).
Definition Plus (a : regex) : regex := Seq a (Star a).
Definition Opt (a : regex) : regex := Alt a Eps.
Definition AtLeast2 (a : regex) : regex := Seq a (Plus a).

(** Matcher state: the index reached, the input still ahead, the captures
    recorded so far (most recent first). *)
Record mstate : Type := MState {
  m_pos : nat;
  m_rest : jsstring;
  m_caps : list (nat * jsstring)
}.

Definition cont := mstate -> option mstate.

Definition advance (s : mstate) (t : jsstring) : mstate :=
  MState (S (m_pos s)) t (m_caps s).

(** Leaving group [i], entered in state [s0] and left in state [s]. *)
Definition close_group (i : nat) (s0 s : mstate) : mstate :=
  MState (m_pos s) (m_rest s)
         ((i, firstn (m_pos s - m_pos s0) (m_rest s0)) :: m_caps s).

(** Greedy iteration of [step]; [fuel] bounds the number of iterations by
    the length of the input ahead, each iteration having to consume. *)
Fixpoint star_loop (step : cont -> cont) (k : cont) (fuel : nat)
  (s : mstate) : option mstate :=
  match fuel with
  | 0 => k s
  | S f =>
      match step (fun s' =>
                    if length (m_rest s') <? length (m_rest s)
                    then star_loop step k f s' else None) s with
      | Some r => Some r
      | None => k s
      end
  end.

Fixpoint rmatch (r : regex) (k : cont) (s : mstate) : option mstate :=
  match r with
  | Eps => k s
  | Cls p =>
      match m_rest s with
      | c :: t => if p c then k (advance s t) else None
      | [] => None
      end
  | Seq a b => rmatch a (rmatch b k) s
  | Alt a b =>
      match rmatch a k s with
      | Some r => Some r
      | None => rmatch b k s
      end
  | Star a => star_loop (rmatch a) k (length (m_rest s)) s
  | Group i a => rmatch a (fun s' => k (close_group i s s')) s
  | Bol => if m_pos s =? 0 then k s else None
  | Eol => match m_rest s with [] => k s | _ :: _ => None end
  end.

(** The first index, from [pos] on, at which [r] matches. *)
Fixpoint exec_from (r : regex) (pos : nat) (rest : jsstring)
  : option mstate :=
  match rmatch r Some (MState pos rest []) with
  | Some s => Some s
  | None =>
      match rest with
      | [] => None
      | _ :: t => exec_from r (S pos) t
      end
  end.

(** [RegExp.prototype.exec] for a regular expression without flags: the
    whole match is capture 0. *)
Definition exec (r : regex) (input : jsstring) : option mstate :=
  exec_from (Group 0 r) 0 input.

Definition regexp_test (r : regex) (input : jsstring) : bool :=
  match exec r input with Some _ => true | None => false end.

Fixpoint assoc (i : nat) (l : list (nat * jsstring)) : option jsstring :=
  match l with
  | [] => None
  | (j, v) :: t => if i =? j then Some v else assoc i t
  end.

(** Text of capture [i] of a match ([m[i]] in the source); the empty
    string stands for a group that took no part in the match, which does
    not happen with the expressions of this program. *)
Definition capture (i : nat) (m : mstate) : jsstring :=
  match assoc i (m_caps m) with Some v => v | None => [] end.

(** [String.prototype.replace] with a [g]-flagged expression and a
    replacement text without [$] patterns: scanning from the left, each
    match is replaced and the search resumes at its end; after an empty
    match the search resumes one character further. *)
Fixpoint replace_from (r : regex) (rep : jsstring) (fuel pos : nat)
  (rest : jsstring) : jsstring :=
  match fuel with
  | 0 => rest
  | S f =>
      let copy :=
        match rest with
        | [] => []
        | c :: t => c :: replace_from r rep f (S pos) t
        end in
      match rmatch r Some (MState pos rest []) with
      | Some s' =>
          if length (m_rest s') <? length rest
          then rep ++ replace_from r rep f (m_pos s') (m_rest s')
          else rep ++ copy
      | None => copy
      end
  end.

Definition replaceAll (r : regex) (rep : jsstring) (s : jsstring) : jsstring :=
  replace_from r rep (S (length s)) 0 s.

End Regex.
Import Regex.

(** The matches of an expression, as a relation between the state before
    and the state after; [rmatch] explores them in priority order. *)
Inductive steps : regex -> mstate -> mstate -> Prop :=
| st_eps s : steps Eps s s
| st_cls p s c t :
    m_rest s = c :: t -> p c = true -> steps (Cls p) s (advance s t)
| st_seq a b s s1 s2 :
    steps a s s1 -> steps b s1 s2 -> steps (Seq a b) s s2
| st_alt_l a b s s' : steps a s s' -> steps (Alt a b) s s'
| st_alt_r a b s s' : steps b s s' -> steps (Alt a b) s s'
| st_star_stop a s : steps (Star a) s s
| st_star_more a s s1 s2 :
    steps a s s1 -> length (m_rest s1) < length (m_rest s) ->
    steps (Star a) s1 s2 -> steps (Star a) s s2
| st_group i a s s' : steps a s s' -> steps (Group i a) s (close_group i s s')
| st_bol s : m_pos s = 0 -> steps Bol s s
| st_eol s : m_rest s = [] -> steps Eol s s.

(** ** Results of code that may throw *)

Inductive result (A : Type) : Type :=
| Ok (a : A)
| Throw (msg : jsstring).
Arguments Ok {A} a.
Arguments Throw {A} msg.

Definition bind {A B : Type} (m : result A) (f : A -> result B) : result B :=
  match m with
  | Ok a => f a
  | Throw e => Throw e
  end.

Notation "x <- m ;; k" := (bind m (fun x => k))
  (at level 61, m at next level, right associativity).

(** The double-quote character used inside the error messages. *)
Definition dq : jsstring := [ascii_of_nat 34].

(** ** The Event model *)

Module EventModel.

(** [[^a-z0-9]+], [(^-|-$)+] and [-{2,}]. *)
Definition lower_alnum : cclass :=
  cls_or (cls_range "a" "z") (cls_range "0" "9").
Definition RE_NON_ALNUM : regex := Plus (Cls (cls_not lower_alnum)).
Definition RE_EDGE_HYPHENS : regex :=
  Plus (Group 1 (Alt (Seq Bol (Chr "-")) (Seq (Chr "-") Eol))).
Definition RE_HYPHENS : regex := AtLeast2 (Chr "-").

Definition slugifyTitle (title : jsstring) : jsstring :=
  replaceAll RE_HYPHENS (str "-")
    (replaceAll RE_EDGE_HYPHENS []
       (replaceAll RE_NON_ALNUM (str "-")
          (toLowerCase (trim title)))).

Definition pad2 (n : nat) : jsstring := padStart 2 "0" (toString n).

(** The parts of the two time expressions: [[01]?\d|2[0-3]], [[0-5]\d],
    [1[0-2]|0?[1-9]] and [[AaPp][Mm]]. *)
Definition HOUR24 : regex :=
  Alt (Seq (Opt (Cls (cls_range "0" "1"))) (Cls is_digit))
      (Seq (Chr "2") (Cls (cls_range "0" "3"))).

Definition MINUTE : regex := Seq (Cls (cls_range "0" "5")) (Cls is_digit).

Definition HOUR12 : regex :=
  Alt (Seq (Chr "1") (Cls (cls_range "0" "2")))
      (Seq (Opt (Chr "0")) (Cls (cls_range "1" "9"))).

Definition MERIDIEM : regex :=
  Seq (Cls (cls_or (cls_or (cls_char "A") (cls_char "a"))
                   (cls_or (cls_char "P") (cls_char "p"))))
      (Cls (cls_or (cls_char "M") (cls_char "m"))).

(** [^([01]?\d|2[0-3]):([0-5]\d)$] *)
Definition RE_HHMM : regex :=
  Seq Bol
   (Seq (Group 1 HOUR24)
   (Seq (Chr ":")
   (Seq (Group 2 MINUTE)
        Eol))).

(** [^(1[0-2]|0?[1-9]):([0-5]\d)\s*([AaPp][Mm])$] *)
Definition RE_AMPM : regex :=
  Seq Bol
   (Seq (Group 1 HOUR12)
   (Seq (Chr ":")
   (Seq (Group 2 MINUTE)
   (Seq (Star (Cls is_space))
   (Seq (Group 3 MERIDIEM)
        Eol))))).

Definition err_time_format (input : jsstring) : jsstring :=
  str "Invalid time format: " ++ dq ++ input ++ dq
  ++ str ". Use HH:mm or h:mm AM/PM.".

Definition normalizeSingleTime (input : jsstring) : result jsstring :=
  let trimmed := trim input in
  match exec RE_HHMM trimmed with
  | Some hhmm => Ok (pad2 (Number (capture 1 hhmm)) ++ str ":" ++ capture 2 hhmm)
  | None =>
      match exec RE_AMPM trimmed with
      | Some ampm =>
          let hour12 := Number (capture 1 ampm) in
          let minute := capture 2 ampm in
          let meridiem := toUpperCase (capture 3 ampm) in
          let hour24 :=
            if jseqb meridiem (str "AM")
            then (if hour12 =? 12 then 0 else hour12)
            else (if hour12 =? 12 then 12 else hour12 + 12) in
          Ok (pad2 hour24 ++ str ":" ++ minute)
      | None => Throw (err_time_format input)
      end
  end.

Definition err_time_range (input : jsstring) : jsstring :=
  str "Invalid time range: " ++ dq ++ input ++ dq ++ str ".".

Definition time_parts (input : jsstring) : list jsstring :=
  filter (fun p => 0 <? length p) (map trim (split "-" input)).

Definition normalizeTime (input : jsstring) : result jsstring :=
  match time_parts input with
  | [p] => normalizeSingleTime p
  | [p0; p1] =>
      a <- normalizeSingleTime p0 ;;
      b <- normalizeSingleTime p1 ;;
      Ok (a ++ str "-" ++ b)
  | _ => Throw (err_time_range input)
  end.

(** *** The Event document, its schema and its pre-save hook

    [createdAt] and [updatedAt] are written by the framework and read by
    nothing in the source; the record leaves them out. *)

Record Event : Type := {
  title : jsstring;
  slug : jsstring;
  description : jsstring;
  overview : jsstring;
  image : jsstring;
  venue : jsstring;
  location : jsstring;
  date : jsstring;
  time : jsstring;
  mode : jsstring;
  audience : jsstring;
  agenda : list jsstring;
  organizer : jsstring;
  tags : list jsstring
}.

(** The string-valued paths of the schema. *)
Inductive field : Type :=
| Ftitle | Fslug | Fdescription | Foverview | Fimage | Fvenue | Flocation
| Fdate | Ftime | Fmode | Faudience | Forganizer.

Definition field_name (f : field) : jsstring :=
  match f with
  | Ftitle => str "title" | Fslug => str "slug"
  | Fdescription => str "description" | Foverview => str "overview"
  | Fimage => str "image" | Fvenue => str "venue"
  | Flocation => str "location" | Fdate => str "date" | Ftime => str "time"
  | Fmode => str "mode" | Faudience => str "audience"
  | Forganizer => str "organizer"
  end.

(** [doc[field]] *)
Definition get (f : field) (doc : Event) : jsstring :=
  match f with
  | Ftitle => title doc | Fslug => slug doc
  | Fdescription => description doc | Foverview => overview doc
  | Fimage => image doc | Fvenue => venue doc | Flocation => location doc
  | Fdate => date doc | Ftime => time doc | Fmode => mode doc
  | Faudience => audience doc | Forganizer => organizer doc
  end.

Definition set_slug (doc : Event) (v : jsstring) : Event :=
  {| title := title doc; slug := v; description := description doc;
     overview := overview doc; image := image doc; venue := venue doc;
     location := location doc; date := date doc; time := time doc;
     mode := mode doc; audience := audience doc; agenda := agenda doc;
     organizer := organizer doc; tags := tags doc |}.

Definition set_date (doc : Event) (v : jsstring) : Event :=
  {| title := title doc; slug := slug doc; description := description doc;
     overview := overview doc; image := image doc; venue := venue doc;
     location := location doc; date := v; time := time doc;
     mode := mode doc; audience := audience doc; agenda := agenda doc;
     organizer := organizer doc; tags := tags doc |}.

Definition set_time (doc : Event) (v : jsstring) : Event :=
  {| title := title doc; slug := slug doc; description := description doc;
     overview := overview doc; image := image doc; venue := venue doc;
     location := location doc; date := date doc; time := v;
     mode := mode doc; audience := audience doc; agenda := agenda doc;
     organizer := organizer doc; tags := tags doc |}.

(** Schema options of a string path. *)
Record string_options : Type := {
  opt_trim : bool;
  opt_required : bool;
  opt_minlength : option nat
}.

Definition nonEmptyTrimmedString : string_options :=
  {| opt_trim := true; opt_required := true; opt_minlength := Some 1 |}.

(** [slug: { type: String, unique: true, index: true }]; every other
    string path spreads [nonEmptyTrimmedString]. *)
Definition EventSchema (f : field) : string_options :=
  match f with
  | Fslug => {| opt_trim := false; opt_required := false;
                opt_minlength := None |}
  | _ => nonEmptyTrimmedString
  end.

Definition all_fields : list field :=
  [Ftitle; Fslug; Fdescription; Foverview; Fimage; Fvenue; Flocation;
   Fdate; Ftime; Fmode; Faudience; Forganizer].

Definition requiredStringFields : list field :=
  [Ftitle; Fdescription; Foverview; Fimage; Fvenue; Flocation; Fdate;
   Ftime; Fmode; Faudience; Forganizer].

Definition err_date (v : jsstring) : jsstring :=
  str "Invalid date: " ++ dq ++ v ++ dq ++ str ".".

Definition err_field (f : field) : jsstring :=
  str "Field " ++ dq ++ field_name f ++ dq ++ str " cannot be empty.".

Definition blank (s : jsstring) : bool := length (trim s) =? 0.

(** [for (const field of requiredStringFields) ...] *)
Fixpoint check_fields (fs : list field) (doc : Event) : result unit :=
  match fs with
  | [] => Ok tt
  | f :: rest =>
      if blank (get f doc) then Throw (err_field f)
      else check_fields rest doc
  end.

(** [for (const item of items) ...] *)
Fixpoint check_items (msg : jsstring) (items : list jsstring) : result unit :=
  match items with
  | [] => Ok tt
  | item :: rest =>
      if blank item then Throw msg else check_items msg rest
  end.

(** The value a string path must have for the framework's built-in
    validators ([required], [minlength]) to accept it. *)
Definition path_valid (o : string_options) (v : jsstring) : bool :=
  (negb (opt_required o) || (0 <? length v)) &&
  match opt_minlength o with
  | Some n => n <=? length v
  | None => true
  end.

Definition err_required (name : jsstring) : jsstring :=
  str "Path `" ++ name ++ str "` is required.".

(** Built-in validation of the document against [EventSchema], which the
    framework runs before the pre-save hooks of the schema: the options of
    each string path, the two array validators and the options of the array
    items. *)
Fixpoint validate_paths (fs : list field) (doc : Event) : result unit :=
  match fs with
  | [] => Ok tt
  | f :: rest =>
      if path_valid (EventSchema f) (get f doc)
      then validate_paths rest doc
      else Throw (err_required (field_name f))
  end.

Definition validate_array (name msg : jsstring) (v : list jsstring)
  : result unit :=
  if 0 <? length v
  then (if forallb (path_valid nonEmptyTrimmedString) v then Ok tt
        else Throw (err_required name))
  else Throw msg.

Definition validate (doc : Event) : result unit :=
  _ <- validate_paths all_fields doc ;;
  _ <- validate_array (str "agenda")
         (str "Agenda must have at least one item.") (agenda doc) ;;
  validate_array (str "tags")
    (str "Tags must have at least one item.") (tags doc).

Section PreSave.

(** The host's [Date]: [Date_parse s] is the time value of [new Date(s)],
    [None] when it is [NaN]; [toISOString] renders a time value. *)
Variable TimeValue : Type.
Variable Date_parse : jsstring -> option TimeValue.
Variable toISOString : TimeValue -> jsstring.

(** [EventSchema.pre("save", ...)]; [isModified] is the document's
    change tracking. *)
Definition preSave (isModified : field -> bool) (doc : Event)
  : result Event :=
  let doc :=
    if isModified Ftitle then set_slug doc (slugifyTitle (title doc))
    else doc in
  match Date_parse (date doc) with
  | None => Throw (err_date (date doc))
  | Some parsedDate =>
      let doc := set_date doc (toISOString parsedDate) in
      t <- normalizeTime (time doc) ;;
      let doc := set_time doc t in
      _ <- check_fields requiredStringFields doc ;;
      _ <- check_items (str "Agenda items cannot be empty.") (agenda doc) ;;
      _ <- check_items (str "Tags cannot be empty.") (tags doc) ;;
      Ok doc
  end.

(** [doc.save()] up to the commit: validation, then the hook; the
    result is the document handed to the storage layer. *)
Definition saveEvent (isModified : field -> bool) (doc : Event)
  : result Event :=
  _ <- validate doc ;;
  preSave isModified doc.

End PreSave.

(** Every field other than the slug is acceptable: the document passes the
    schema, its date parses (and renders to a non-blank string), its time
    normalises, and no required string, agenda item or tag is blank. *)
Definition fields_valid (TimeValue : Type)
  (Date_parse : jsstring -> option TimeValue)
  (toISOString : TimeValue -> jsstring) (doc : Event) : Prop :=
  validate doc = Ok tt /\
  (exists t, Date_parse (date doc) = Some t /\ blank (toISOString t) = false) /\
  (exists tm, normalizeTime (time doc) = Ok tm) /\
  (forall f, In f requiredStringFields -> blank (get f doc) = false) /\
  existsb blank (agenda doc) = false /\ existsb blank (tags doc) = false.

End EventModel.
Import EventModel.

(** ** The Booking model *)

Module BookingModel.

Definition ObjectId : Type := nat.

Record Booking : Type := {
  eventId : ObjectId;
  email : jsstring
}.

(** [/^[^\s@]+@[^\s@]+\.[^\s@]+$/] *)
Definition not_space_at : cclass :=
  cls_not (cls_or is_space (cls_char "@")).

Definition EMAIL_REGEX : regex :=
  Seq Bol
   (Seq (Plus (Cls not_space_at))
   (Seq (Chr "@")
   (Seq (Plus (Cls not_space_at))
   (Seq (Chr ".")
   (Seq (Plus (Cls not_space_at))
        Eol))))).

(** Setters of the [email] path ([trim: true], [lowercase: true]). *)
Definition email_setters (raw : jsstring) : jsstring :=
  toLowerCase (trim raw).

(** [validator: (v) => EMAIL_REGEX.test(v)] *)
Definition email_validator (v : jsstring) : bool :=
  regexp_test EMAIL_REGEX v.

(** Validation of the [email] path of a document built from [raw]:
    [required], then the validator with its message. *)
Definition validate_email (raw : jsstring) : result jsstring :=
  let v := email_setters raw in
  if length v =? 0 then Throw (str "Path `email` is required.")
  else if email_validator v then Ok v
       else Throw (str "Invalid email address.").

(** The paths of a Booking and the change tracking of a document. *)
Inductive path : Type := PeventId | Pemail.

Definition path_eqb (a b : path) : bool :=
  match a, b with
  | PeventId, PeventId | Pemail, Pemail => true
  | _, _ => false
  end.

Record BookingDocument : Type := {
  _id : ObjectId;
  fields : Booking;
  isNew : bool;
  modifiedPaths : list path
}.

Definition isModified (doc : BookingDocument) (p : path) : bool :=
  existsb (path_eqb p) (modifiedPaths doc).

(** [new Booking({ eventId, email })]: the setters run and both paths are
    marked as modified. *)
Definition newBooking (id eventId : ObjectId) (rawEmail : jsstring)
  : BookingDocument :=
  {| _id := id;
     fields := {| eventId := eventId; email := email_setters rawEmail |};
     isNew := true;
     modifiedPaths := [PeventId; Pemail] |}.

(** The database as the hook sees it: the identifiers of the stored events,
    the stored bookings, and the log of the existence queries issued. *)
Record Store : Type := {
  events : list ObjectId;
  bookings : list (ObjectId * Booking);
  exists_log : list ObjectId
}.

(** State-and-exception monad of the operations on the store. *)
Definition DB (A : Type) : Type := Store -> result A * Store.

Definition ret {A : Type} (a : A) : DB A := fun st => (Ok a, st).

Definition throw {A : Type} (msg : jsstring) : DB A :=
  fun st => (Throw msg, st).

Definition bindDB {A B : Type} (m : DB A) (f : A -> DB B) : DB B :=
  fun st =>
    match m st with
    | (Ok a, st') => f a st'
    | (Throw e, st') => (Throw e, st')
    end.

(** The store after an existence query for [id]. *)
Definition logged (id : ObjectId) (st : Store) : Store :=
  {| events := events st; bookings := bookings st;
     exists_log := id :: exists_log st |}.

(** [await Event.exists({ _id: id })] *)
Definition Event_exists (id : ObjectId) : DB bool :=
  fun st => (Ok (existsb (Nat.eqb id) (events st)), logged id st).

Definition err_reference : jsstring := str "Referenced event does not exist.".

(** [BookingSchema.pre("save", ...)] *)
Definition preSave (doc : BookingDocument) : DB unit :=
  if negb (isModified doc PeventId) then ret tt
  else bindDB (Event_exists (eventId (fields doc)))
         (fun found =>
            if found then ret tt else throw err_reference).

(** Built-in validation of the document. *)
Definition validate (doc : BookingDocument) : DB unit :=
  let v := email (fields doc) in
  if length v =? 0 then throw (str "Path `email` is required.")
  else if email_validator v then ret tt
       else throw (str "Invalid email address.").

(** The write that ends a successful save. *)
Definition commit (doc : BookingDocument) : DB unit :=
  fun st =>
    (Ok tt,
     {| events := events st;
        bookings :=
          if isNew doc then (_id doc, fields doc) :: bookings st
          else map (fun b => if fst b =? _id doc then (_id doc, fields doc)
                             else b) (bookings st);
        exists_log := exists_log st |}).

(** [doc.save()]: validation, the pre-save hook, the write. *)
Definition save (doc : BookingDocument) : DB unit :=
  bindDB (validate doc) (fun _ =>
  bindDB (preSave doc) (fun _ =>
  commit doc)).

End BookingModel.

(** The shapes of an accepted e-mail address: as the specification words
    it, and as the expression has it. *)
Module EmailSpec.

Definition not_space : cclass := cls_not is_space.

(** "non-whitespace-non-@ chars, @, non-whitespace-non-@ chars, ".",
    non-whitespace chars" *)
Definition shape_of_spec (s : jsstring) : Prop :=
  exists l d t,
    s = l ++ "@" :: d ++ "." :: t /\
    l <> [] /\ d <> [] /\ t <> [] /\
    forallb BookingModel.not_space_at l = true /\
    forallb BookingModel.not_space_at d = true /\
    forallb not_space t = true.

(** The same with the last part free of [@] as well. *)
Definition shape_of_code (s : jsstring) : Prop :=
  exists l d t,
    s = l ++ "@" :: d ++ "." :: t /\
    l <> [] /\ d <> [] /\ t <> [] /\
    forallb BookingModel.not_space_at l = true /\
    forallb BookingModel.not_space_at d = true /\
    forallb BookingModel.not_space_at t = true.

End EmailSpec.

(** ** The connection manager *)

Module ConnectionManager.

(** A connected [Mongoose] instance, by identity. *)
Definition Mongoose : Type := nat.

(** State of the promise returned by one call of [mongoose.connect]. *)
Inductive promise_state : Type :=
| Pending
| Fulfilled (h : Mongoose)
| Rejected.

(** A promise is named by its rank among the calls of [mongoose.connect]. *)
Definition PromiseId : Type := nat.

Record MongooseCache : Type := {
  conn : option Mongoose;
  promise : option PromiseId
}.

(** A call of [connectToDatabase]: suspended at its [await], returned, or
    thrown. *)
Inductive call_state : Type :=
| Awaiting (p : PromiseId)
| Returned (h : Mongoose)
| Thrown.

(** One process: [globalThis.mongooseCache] (absent until the module is
    first evaluated; the module's [cached] is the same object), the promises
    of the connection attempts issued so far, and the calls made so far. *)
Record Process : Type := {
  mongooseCache : option MongooseCache;
  connects : list promise_state;
  calls : list call_state
}.

Definition start : Process :=
  {| mongooseCache := None; connects := []; calls := [] |}.

(** Evaluation of the module body, also on hot reload:
    [cached = globalThis.mongooseCache ?? { conn: null, promise: null }],
    then [globalThis.mongooseCache = cached]. *)
Definition load (w : Process) : Process :=
  {| mongooseCache :=
       Some match mongooseCache w with
            | Some c => c
            | None => {| conn := None; promise := None |}
            end;
     connects := connects w;
     calls := calls w |}.

(** [connectToDatabase()] up to its first suspension: the cached handle is
    returned at once; otherwise the call awaits [cached.promise], after
    creating it with [mongoose.connect] when there is none. *)
Definition call (w : Process) : option Process :=
  match mongooseCache w with
  | None => None
  | Some cached =>
      match conn cached with
      | Some h =>
          Some {| mongooseCache := Some cached; connects := connects w;
                  calls := calls w ++ [Returned h] |}
      | None =>
          match promise cached with
          | Some p =>
              Some {| mongooseCache := Some cached; connects := connects w;
                      calls := calls w ++ [Awaiting p] |}
          | None =>
              let p := length (connects w) in
              Some {| mongooseCache :=
                        Some {| conn := None; promise := Some p |};
                      connects := connects w ++ [Pending];
                      calls := calls w ++ [Awaiting p] |}
          end
      end
  end.

Fixpoint update {A : Type} (i : nat) (x : A) (l : list A) : list A :=
  match l, i with
  | [], _ => []
  | _ :: t, 0 => x :: t
  | a :: t, S j => a :: update j x t
  end.

(** The driver settles a pending promise, with a handle or with a failure. *)
Definition settle (p : PromiseId) (outcome : option Mongoose) (w : Process)
  : option Process :=
  match nth_error (connects w) p with
  | Some Pending =>
      Some {| mongooseCache := mongooseCache w;
              connects :=
                update p (match outcome with
                          | Some h => Fulfilled h
                          | None => Rejected
                          end) (connects w);
              calls := calls w |}
  | _ => None
  end.

(** Call [i] resumes after its [await]: [cached.conn = <value>] and
    [return cached.conn], or the rejection is rethrown. *)
Definition resume (i : nat) (w : Process) : option Process :=
  match nth_error (calls w) i, mongooseCache w with
  | Some (Awaiting p), Some cached =>
      match nth_error (connects w) p with
      | Some (Fulfilled h) =>
          Some {| mongooseCache :=
                    Some {| conn := Some h; promise := promise cached |};
                  connects := connects w;
                  calls := update i (Returned h) (calls w) |}
      | Some Rejected =>
          Some {| mongooseCache := mongooseCache w;
                  connects := connects w;
                  calls := update i Thrown (calls w) |}
      | _ => None
      end
  | _, _ => None
  end.

(** Every interleaving of module loads, calls, settlements and
    resumptions. *)
Inductive step : Process -> Process -> Prop :=
| step_load w : step w (load w)
| step_call w w' : call w = Some w' -> step w w'
| step_settle p outcome w w' : settle p outcome w = Some w' -> step w w'
| step_resume i w w' : resume i w = Some w' -> step w w'.

Inductive reachable : Process -> Prop :=
| reach_start : reachable start
| reach_step w w' : reachable w -> step w w' -> reachable w'.

(** What holds of every reachable process. *)
Record invariant (w : Process) : Prop := {
  inv_attempts : length (connects w) <= 1;
  inv_unloaded : mongooseCache w = None -> connects w = [] /\ calls w = [];
  inv_promise : forall c, mongooseCache w = Some c ->
      match promise c with
      | Some p => p = 0 /\ length (connects w) = 1
      | None => connects w = [] /\ conn c = None
      end;
  inv_conn : forall c h, mongooseCache w = Some c -> conn c = Some h ->
      nth_error (connects w) 0 = Some (Fulfilled h);
  inv_calls : forall i,
      match nth_error (calls w) i with
      | Some (Awaiting p) => p = 0 /\ length (connects w) = 1
      | Some (Returned h) => nth_error (connects w) 0 = Some (Fulfilled h)
      | _ => True
      end
}.

End ConnectionManager.

(** *** Running a schedule *)

Module Schedule.
Import ConnectionManager.

Inductive action : Type :=
| ActLoad
| ActCall
| ActSettle (p : PromiseId) (outcome : option Mongoose)
| ActResume (i : nat).

Definition perform (a : action) (w : Process) : option Process :=
  match a with
  | ActLoad => Some (load w)
  | ActCall => call w
  | ActSettle p outcome => settle p outcome w
  | ActResume i => resume i w
  end.

Fixpoint run (acts : list action) (w : Process) : option Process :=
  match acts with
  | [] => Some w
  | a :: rest =>
      match perform a w with
      | Some w' => run rest w'
      | None => None
      end
  end.

(** Two overlapping first calls, the connection resolving to handle 5, both
    calls resuming, a hot reload and a third call. *)
Definition cold_start : list action :=
  [ActLoad; ActCall; ActCall; ActSettle 0 (Some 5); ActResume 0;
   ActResume 1; ActLoad; ActCall].

End Schedule.

(** ** The slug algorithm in the words of the specification *)

Module SlugSpec.

Definition hyph : cclass := cls_char "-".

Fixpoint drop_while (p : cclass) (s : jsstring) : jsstring :=
  match s with
  | [] => []
  | c :: t => if p c then drop_while p t else s
  end.

Fixpoint take_while (p : cclass) (s : jsstring) : jsstring :=
  match s with
  | [] => []
  | c :: t => if p c then c :: take_while p t else []
  end.

(** "replace every maximal run of characters outside [a-z0-9] with a single
    hyphen": [in_run] tells that the previous character was outside the
    class, so that the hyphen of the current run is already out. *)
Fixpoint hyphenate_runs (in_run : bool) (s : jsstring) : jsstring :=
  match s with
  | [] => []
  | c :: t =>
      if lower_alnum c then c :: hyphenate_runs false t
      else if in_run then hyphenate_runs true t
           else "-" :: hyphenate_runs true t
  end.

(** "strip leading/trailing hyphens" *)
Definition strip_hyphens (s : jsstring) : jsstring :=
  rev (drop_while hyph (rev (drop_while hyph s))).

(** "collapse repeated hyphens": [prev] tells that the previous character
    was a hyphen. *)
Fixpoint collapse_hyphens (prev : bool) (s : jsstring) : jsstring :=
  match s with
  | [] => []
  | c :: t =>
      if hyph c
      then (if prev then collapse_hyphens true t
            else c :: collapse_hyphens true t)
      else c :: collapse_hyphens false t
  end.

Definition slug_spec (title : jsstring) : jsstring :=
  collapse_hyphens false
    (strip_hyphens
       (hyphenate_runs false (toLowerCase (trim title)))).

(** [^[a-z0-9]+(-[a-z0-9]+)*$] *)
Definition RE_SLUG : regex :=
  Seq Bol
   (Seq (Plus (Cls lower_alnum))
   (Seq (Star (Seq (Chr "-") (Plus (Cls lower_alnum))))
        Eol)).

(** What the expression [(^-|-$)+] removes from an arbitrary string: one
    hyphen at the front and one at the back. *)
Definition drop_first_hyphen (s : jsstring) : jsstring :=
  match s with
  | c :: t => if hyph c then t else s
  | [] => []
  end.

Fixpoint drop_last_hyphen (s : jsstring) : jsstring :=
  match s with
  | [] => []
  | c :: t =>
      match t with
      | [] => if hyph c then [] else [c]
      | _ :: _ => c :: drop_last_hyphen t
      end
  end.

(** The runs of [a-z0-9] joined by single hyphens; [pending] tells that a
    hyphen is due before the next run. *)
Fixpoint join_runs (pending : bool) (s : jsstring) : jsstring :=
  match s with
  | [] => []
  | c :: t =>
      if lower_alnum c
      then (if pending then "-" :: c :: join_runs false t
            else c :: join_runs false t)
      else join_runs true t
  end.

Fixpoint ends_in_gap (pending : bool) (s : jsstring) : bool :=
  match s with
  | [] => pending
  | c :: t => if lower_alnum c then ends_in_gap false t else ends_in_gap true t
  end.

(** Shape of a slug after its first character. *)
Inductive slug_tail : jsstring -> Prop :=
| tail_end : slug_tail []
| tail_char c t : lower_alnum c = true -> slug_tail t -> slug_tail (c :: t)
| tail_sep c t :
    lower_alnum c = true -> slug_tail t -> slug_tail ("-" :: c :: t).

End SlugSpec.
Import SlugSpec.

(** The state reached by consuming the longest run of [p]. *)
Definition skip (p : cclass) (s : mstate) : mstate :=
  MState (m_pos s + length (take_while p (m_rest s)))
         (drop_while p (m_rest s)) (m_caps s).

(** First character in [a-z0-9], if there is one. *)
Definition head_ok (s : jsstring) : bool :=
  match s with
  | [] => true
  | c :: _ => lower_alnum c
  end.

(** The runs of [a-z0-9] of [s] joined by single hyphens. *)
Definition slug_core (s : jsstring) : jsstring :=
  join_runs false (drop_while (cls_not lower_alnum) s).

(** The group of [(^-|-$)+] and the repeated part of the slug pattern. *)
Definition EDGE : regex :=
  Group 1 (Alt (Seq Bol (Cls hyph)) (Seq (Cls hyph) Eol)).

Definition SLUG_SEP : regex := Seq (Chr "-") (Plus (Cls lower_alnum)).

(** ** Time tokens in the words of the specification *)

Module TimeSpec.

Definition all_digits (s : jsstring) : bool := forallb is_digit s.

(** Hour of a 24-hour token: one or two digits, value 0..23. *)
Definition hour24_text (h : jsstring) : Prop :=
  (length h = 1 \/ length h = 2) /\ all_digits h = true /\ Number h <= 23.

(** Hour of a 12-hour token: one or two digits, value 1..12. *)
Definition hour12_text (h : jsstring) : Prop :=
  (length h = 1 \/ length h = 2) /\ all_digits h = true /\
  1 <= Number h <= 12.

(** Minutes: two digits, value 0..59. *)
Definition minute_text (m : jsstring) : Prop :=
  length m = 2 /\ all_digits m = true /\ Number m <= 59.

(** AM or PM in either case of each letter. *)
Definition meridiem_text (x : jsstring) : Prop :=
  exists a m, x = [a; m] /\
    (a = "A" \/ a = "a" \/ a = "P" \/ a = "p") /\ (m = "M" \/ m = "m").

Definition is_pm (x : jsstring) : bool :=
  match x with
  | a :: _ => ascii_eqb a "P" || ascii_eqb a "p"
  | [] => false
  end.

Definition all_space (s : jsstring) : bool := forallb is_space s.

(** [H:mm] or [HH:mm], 24-hour. *)
Definition is_time24 (t : jsstring) : Prop :=
  exists h m, t = h ++ ":" :: m /\ hour24_text h /\ minute_text m.

(** [h:mm] or [hh:mm], optional white space, AM or PM. *)
Definition is_time12 (t : jsstring) : Prop :=
  exists h m ws x,
    t = h ++ ":" :: m ++ ws ++ x /\
    hour12_text h /\ minute_text m /\ all_space ws = true /\ meridiem_text x.

(** "12 AM -> 00, 12 PM -> 12, otherwise AM hour unchanged, PM hour +12" *)
Definition hour_rule (hour12 : nat) (pm : bool) : nat :=
  match pm, hour12 =? 12 with
  | false, true => 0
  | false, false => hour12
  | true, true => 12
  | true, false => hour12 + 12
  end.

(** [HH:mm], 24-hour, zero-padded. *)
Definition canonical_time (s : jsstring) : Prop :=
  exists h1 h2 m1 m2,
    s = [h1; h2; ":"; m1; m2] /\
    all_digits [h1; h2; m1; m2] = true /\
    Number [h1; h2] <= 23 /\ Number [m1; m2] <= 59.

(** [HH:mm] or [HH:mm-HH:mm]. *)
Definition canonical (s : jsstring) : Prop :=
  canonical_time s \/
  exists a b, canonical_time a /\ canonical_time b /\ s = a ++ "-" :: b.

End TimeSpec.
Import TimeSpec.

Definition head_not (p : cclass) (s : jsstring) : Prop :=
  match s with
  | [] => True
  | c :: _ => p c = false
  end.

(** What a part of an expression consumes: the text [u] in front of the
    input, leaving the captures as they are. *)
Definition consumes (r : regex) (u : jsstring) : Prop :=
  forall pos rest caps,
    steps r (MState pos (u ++ rest) caps) (MState (pos + length u) rest caps).

(** Conversely, what the parts can consume. *)
Definition consumed_by (r : regex) (P : jsstring -> Prop) : Prop :=
  forall pos rest caps s',
    steps r (MState pos rest caps) s' ->
    exists u rest', rest = u ++ rest' /\ P u /\
                    s' = MState (pos + length u) rest' caps.

(** A token the specification accepts: 24-hour or 12-hour. *)
Definition valid_token (t : jsstring) : Prop := is_time24 t \/ is_time12 t.

(** One or two tokens, each of them valid. *)
Definition well_formed_time (input : jsstring) : Prop :=
  match time_parts input with
  | [p] => valid_token p
  | [p; q] => valid_token p /\ valid_token q
  | _ => False
  end.

Definition no_hyphen (s : jsstring) : bool := forallb (fun c => negb (hyph c)) s.

(** The message quotes the value. *)
Definition names (msg v : jsstring) : Prop :=
  exists pre post, msg = pre ++ dq ++ v ++ dq ++ post.

(** ** Sample data for the examples *)

Module SampleHost.

(** A stand-in for the host's [Date], enough to run the hook on examples:
    it parses the one literal [2026-01-15]. *)
Definition TimeValue : Type := Z.

Definition Date_parse (s : jsstring) : option TimeValue :=
  if jseqb s (str "2026-01-15") then Some 1768435200000%Z else None.

Definition toISOString (t : TimeValue) : jsstring :=
  str "2026-01-15T00:00:00.000Z".

Definition sample_event : Event :=
  {| title := str "!!!"; slug := []; description := str "About";
     overview := str "All of it"; image := str "a.png"; venue := str "Hall";
     location := str "Lahore"; date := str "2026-01-15";
     time := str "10:00 AM - 12:30 PM"; mode := str "online";
     audience := str "everyone"; agenda := [str "Intro"];
     organizer := str "Shahid"; tags := [str "dev"] |}.

End SampleHost.

Module SampleStore.
Import BookingModel.

Definition store : Store :=
  {| events := [7; 11]; bookings := []; exists_log := [] |}.

Definition booking : BookingDocument := newBooking 1 42 (str " Dev@Example.COM ").

End SampleStore.

(** ** Vocabulary of the further properties *)

(** White space and hyphens: what [normalizeTime] discards around the
    tokens. *)
Definition filler (c : ascii) : bool := is_space c || hyph c.

(** A host whose [Date] reads back what it renders: besides the literal
    [2026-01-15] it parses the ISO rendering of that date. *)
Module RoundTripHost.

Definition TimeValue : Type := Z.

Definition toISOString (t : TimeValue) : jsstring :=
  str "2026-01-15T00:00:00.000Z".

Definition Date_parse (s : jsstring) : option TimeValue :=
  if jseqb s (str "2026-01-15") || jseqb s (str "2026-01-15T00:00:00.000Z")
  then Some 1768435200000%Z else None.

End RoundTripHost.

(** Referential integrity of a store: every stored booking points to a
    stored event. *)
Definition referential (st : BookingModel.Store) : Prop :=
  forall id b, In (id, b) (BookingModel.bookings st) ->
               In (BookingModel.eventId b) (BookingModel.events st).

(** The document with its two lists emptied. *)
Definition without_lists (doc : Event) : Event :=
  {| title := title doc; slug := slug doc; description := description doc;
     overview := overview doc; image := image doc; venue := venue doc;
     location := location doc; date := date doc; time := time doc;
     mode := mode doc; audience := audience doc; agenda := [];
     organizer := organizer doc; tags := [] |}.

(** * Proofs *)

(** ** The embedding on concrete inputs *)

Example slugify_punctuation :
  slugifyTitle (str "  Hello,   World!  ") = str "hello-world".
Proof. reflexivity. Qed.

Example slugify_hyphens :
  slugifyTitle (str "--Next.js 16 -- what's new?--") = str "next-js-16-what-s-new".
Proof. reflexivity. Qed.

Example slugify_symbols : slugifyTitle (str "!!!") = [].
Proof. reflexivity. Qed.

(** On an arbitrary string [(^-|-$)+] removes one hyphen at each end. *)
Example edge_hyphens_once :
  replaceAll RE_EDGE_HYPHENS [] (str "---a--") = str "--a-".
Proof. reflexivity. Qed.

Example single_time_24h : normalizeSingleTime (str " 7:05 ") = Ok (str "07:05").
Proof. reflexivity. Qed.

Example single_time_noon : normalizeSingleTime (str "12:30pm") = Ok (str "12:30").
Proof. reflexivity. Qed.

Example single_time_midnight :
  normalizeSingleTime (str "12:30 am") = Ok (str "00:30").
Proof. reflexivity. Qed.

Example single_time_24 :
  normalizeSingleTime (str "24:00") = Throw (err_time_format (str "24:00")).
Proof. reflexivity. Qed.

Example single_time_zero_am :
  normalizeSingleTime (str "0:15 AM") = Throw (err_time_format (str "0:15 AM")).
Proof. reflexivity. Qed.

Example time_parts_range :
  time_parts (str " 9:00 AM -  5:00 PM ") = [str "9:00 AM"; str "5:00 PM"].
Proof. reflexivity. Qed.

Example time_three_tokens :
  normalizeTime (str "1:00-2:00-3:00")
  = Throw (err_time_range (str "1:00-2:00-3:00")).
Proof. reflexivity. Qed.

Example time_empty : normalizeTime [] = Throw (err_time_range []).
Proof. reflexivity. Qed.

Example time_stray_hyphens : normalizeTime (str "-9:00-") = Ok (str "09:00").
Proof. reflexivity. Qed.

Example email_accepted :
  BookingModel.validate_email (str "  Dev@Example.COM ")
  = Ok (str "dev@example.com").
Proof. reflexivity. Qed.

Example email_no_dot :
  BookingModel.validate_email (str "dev@example")
  = Throw (str "Invalid email address.").
Proof. reflexivity. Qed.

Example email_inner_space :
  BookingModel.validate_email (str "dev @example.com")
  = Throw (str "Invalid email address.").
Proof. reflexivity. Qed.

(** ** The matcher *)

Lemma star_loop_ext (step1 step2 : cont -> cont) :
  (forall k1 k2, (forall s, k1 s = k2 s) -> forall s, step1 k1 s = step2 k2 s) ->
  forall fuel k1 k2, (forall s, k1 s = k2 s) ->
  forall s, star_loop step1 k1 fuel s = star_loop step2 k2 fuel s.
Proof.
  intros Hstep fuel; induction fuel as [|f IH]; intros k1 k2 Hk s; simpl.
  - apply Hk.
  - rewrite (Hstep _ (fun s' => if length (m_rest s') <? length (m_rest s)
                                then star_loop step2 k2 f s' else None)).
    + rewrite Hk; reflexivity.
    + intros s'. destruct (_ <? _); [apply IH; assumption | reflexivity].
Qed.

(** The matcher depends on its continuation only through its values. *)
Lemma rmatch_ext r : forall k1 k2, (forall s, k1 s = k2 s) ->
  forall s, rmatch r k1 s = rmatch r k2 s.
Proof.
  induction r; intros k1 k2 Hk s; simpl.
  - apply Hk.
  - destruct (m_rest s); [reflexivity|]. destruct (p a); [apply Hk | reflexivity].
  - apply IHr1. intros s'. apply IHr2, Hk.
  - rewrite (IHr1 k1 k2 Hk). rewrite (IHr2 k1 k2 Hk). reflexivity.
  - apply star_loop_ext; assumption.
  - apply IHr. intros s'. apply Hk.
  - destruct (m_pos s =? 0); [apply Hk | reflexivity].
  - destruct (m_rest s); [apply Hk | reflexivity].
Qed.

Lemma rmatch_fail r : forall k, (forall s, k s = None) -> forall s, rmatch r k s = None.
Proof.
  induction r; intros k Hk s; simpl; auto.
  - destruct (m_rest s); [reflexivity|]. destruct (p a); auto.
  - rewrite IHr1; auto.
  - generalize (length (m_rest s)) as fuel. intros fuel; revert s.
    induction fuel as [|f IHf]; intros s; simpl; auto.
    rewrite IHr; auto. intros s'. destruct (_ <? _); auto.
  - destruct (m_pos s =? 0); auto.
  - destruct (m_rest s); auto.
Qed.

(** Fuel beyond the length of the input ahead changes nothing. *)
Lemma star_loop_fuel a k : forall f1 f2 s,
  length (m_rest s) <= f1 -> length (m_rest s) <= f2 ->
  star_loop (rmatch a) k f1 s = star_loop (rmatch a) k f2 s.
Proof.
  induction f1 as [|f1 IH]; intros f2 s H1 H2.
  - destruct f2 as [|f2]; [reflexivity|]. simpl.
    rewrite rmatch_fail; [reflexivity|].
    intros s'. replace (length (m_rest s)) with 0 by lia. reflexivity.
  - destruct f2 as [|f2]; simpl.
    + rewrite rmatch_fail; [reflexivity|].
      intros s'. replace (length (m_rest s)) with 0 by lia. reflexivity.
    + erewrite rmatch_ext; [reflexivity|].
      intros s'. simpl. destruct (_ <? _) eqn:E; [|reflexivity].
      apply Nat.ltb_lt in E. apply IH; lia.
Qed.

(** One unfolding of a starred expression. *)
Lemma rmatch_star a k s :
  rmatch (Star a) k s =
  match rmatch a (fun s' => if length (m_rest s') <? length (m_rest s)
                            then rmatch (Star a) k s' else None) s with
  | Some r => Some r
  | None => k s
  end.
Proof.
  change (rmatch (Star a) k s) with
    (star_loop (rmatch a) k (length (m_rest s)) s).
  destruct (length (m_rest s)) as [|n] eqn:E.
  - simpl. rewrite rmatch_fail; [reflexivity|].
    intros s'. try rewrite E. reflexivity.
  - simpl. erewrite rmatch_ext; [reflexivity|].
    intros s'. simpl. try rewrite E. destruct (_ <? _) eqn:E'; [|reflexivity].
    apply Nat.ltb_lt in E'. apply star_loop_fuel; lia.
Qed.

(** A result of the matcher comes from a match of the expression. *)
Lemma rmatch_sound r : forall k s res,
  rmatch r k s = Some res -> exists s', steps r s s' /\ k s' = Some res.
Proof.
  induction r; intros k s res H.
  - simpl in H. exists s; split; [constructor | assumption].
  - simpl in H. destruct (m_rest s) as [|c t] eqn:E; [discriminate|].
    destruct (p c) eqn:P; [|discriminate].
    exists (advance s t); split; [econstructor; eassumption | assumption].
  - simpl in H. apply IHr1 in H. destruct H as (s1 & S1 & H).
    apply IHr2 in H. destruct H as (s2 & S2 & H).
    exists s2; split; [econstructor; eassumption | assumption].
  - simpl in H. destruct (rmatch r1 k s) eqn:E.
    + inversion H; subst. apply IHr1 in E. destruct E as (s' & S' & E).
      exists s'; split; [apply st_alt_l; assumption | assumption].
    + apply IHr2 in H. destruct H as (s' & S' & E').
      exists s'; split; [apply st_alt_r; assumption | assumption].
  - remember (length (m_rest s)) as n eqn:En.
    assert (Hn : length (m_rest s) <= n) by lia. clear En.
    revert s res H Hn. induction n as [|n IHn]; intros s res H Hn.
    + rewrite rmatch_star in H. rewrite rmatch_fail in H.
      * exists s; split; [constructor | assumption].
      * intros s'. replace (length (m_rest s)) with 0 by lia. reflexivity.
    + rewrite rmatch_star in H.
      destruct (rmatch r _ s) eqn:E.
      * inversion H; subst. apply IHr in E. destruct E as (s1 & S1 & E).
        destruct (_ <? _) eqn:L; [|discriminate]. apply Nat.ltb_lt in L.
        apply IHn in E; [|lia]. destruct E as (s2 & S2 & E).
        exists s2; split; [eapply st_star_more; eassumption | assumption].
      * exists s; split; [constructor | assumption].
  - simpl in H. apply IHr in H. destruct H as (s' & S' & H).
    exists (close_group i s s'); split; [constructor; assumption | assumption].
  - simpl in H. destruct (m_pos s =? 0) eqn:E; [|discriminate].
    apply Nat.eqb_eq in E. exists s; split; [constructor; assumption | assumption].
  - simpl in H. destruct (m_rest s) eqn:E; [|discriminate].
    exists s; split; [constructor; assumption | assumption].
Qed.

(** Where the expression has a match that the continuation accepts, the
    matcher finds a result (that match, or one of higher priority). *)
Lemma rmatch_complete r s s' : steps r s s' ->
  forall k, k s' <> None -> rmatch r k s <> None.
Proof.
  induction 1; intros k Hk.
  - exact Hk.
  - simpl. rewrite H, H0. exact Hk.
  - simpl. apply IHsteps1. apply IHsteps2. exact Hk.
  - simpl. destruct (rmatch a k s) eqn:E; [discriminate|].
    exfalso. exact (IHsteps k Hk E).
  - simpl. destruct (rmatch a k s) eqn:E; [discriminate|]. apply IHsteps, Hk.
  - rewrite rmatch_star. destruct (rmatch a _ s); [discriminate | exact Hk].
  - rewrite rmatch_star.
    destruct (rmatch a _ s) eqn:E; [discriminate|]. exfalso.
    revert E. apply IHsteps1. apply Nat.ltb_lt in H0. rewrite H0.
    apply IHsteps2, Hk.
  - simpl. apply IHsteps. exact Hk.
  - simpl. rewrite H. exact Hk.
  - simpl. rewrite H. exact Hk.
Qed.

(** *** Characters *)

Lemma ascii_eqb_eq a b : ascii_eqb a b = true <-> a = b.
Proof.
  unfold ascii_eqb, code. rewrite Nat.eqb_eq. split; [|congruence].
  intros H. rewrite <- (ascii_nat_embedding a), <- (ascii_nat_embedding b).
  congruence.
Qed.

Lemma ascii_eqb_refl a : ascii_eqb a a = true.
Proof. apply ascii_eqb_eq; reflexivity. Qed.

Lemma hyph_true c : hyph c = true -> c = "-".
Proof. apply ascii_eqb_eq. Qed.

Lemma hyph_not_alnum c : hyph c = true -> lower_alnum c = false.
Proof. intros H; apply hyph_true in H; subst; reflexivity. Qed.

Lemma alnum_not_hyph c : lower_alnum c = true -> hyph c = false.
Proof.
  intros H. destruct (hyph c) eqn:E; [|reflexivity].
  apply hyph_not_alnum in E. congruence.
Qed.

(** *** Equations of the matcher *)

Lemma rmatch_cls_cons p k pos c t caps :
  rmatch (Cls p) k (MState pos (c :: t) caps) =
  if p c then k (MState (S pos) t caps) else None.
Proof. reflexivity. Qed.

Lemma rmatch_cls_nil p k pos caps :
  rmatch (Cls p) k (MState pos [] caps) = None.
Proof. reflexivity. Qed.

Lemma rmatch_seq a b k s : rmatch (Seq a b) k s = rmatch a (rmatch b k) s.
Proof. reflexivity. Qed.

Lemma rmatch_alt a b k s :
  rmatch (Alt a b) k s =
  match rmatch a k s with Some r => Some r | None => rmatch b k s end.
Proof. reflexivity. Qed.

Lemma rmatch_eps k s : rmatch Eps k s = k s.
Proof. reflexivity. Qed.

Lemma rmatch_group i a k s :
  rmatch (Group i a) k s = rmatch a (fun s' => k (close_group i s s')) s.
Proof. reflexivity. Qed.

Lemma rmatch_bol k pos rest caps :
  rmatch Bol k (MState pos rest caps) =
  if pos =? 0 then k (MState pos rest caps) else None.
Proof. reflexivity. Qed.

Lemma rmatch_eol_nil k pos caps :
  rmatch Eol k (MState pos [] caps) = k (MState pos [] caps).
Proof. reflexivity. Qed.

Lemma rmatch_eol_cons k pos c t caps :
  rmatch Eol k (MState pos (c :: t) caps) = None.
Proof. reflexivity. Qed.

Lemma rmatch_star_cls_cons p k pos c t caps :
  rmatch (Star (Cls p)) k (MState pos (c :: t) caps) =
  if p c
  then match rmatch (Star (Cls p)) k (MState (S pos) t caps) with
       | Some r => Some r
       | None => k (MState pos (c :: t) caps)
       end
  else k (MState pos (c :: t) caps).
Proof.
  rewrite rmatch_star. rewrite rmatch_cls_cons.
  destruct (p c); [|reflexivity].
  cbn [m_rest length]. replace (length t <? S (length t)) with true
    by (symmetry; apply Nat.ltb_lt; lia).
  reflexivity.
Qed.

Lemma rmatch_star_nil a k pos caps :
  rmatch (Star a) k (MState pos [] caps) = k (MState pos [] caps).
Proof. reflexivity. Qed.

Create Rewrite HintDb rmatch.
#[local] Hint Rewrite rmatch_seq rmatch_alt rmatch_eps rmatch_group rmatch_bol
  rmatch_eol_nil rmatch_eol_cons rmatch_cls_cons rmatch_cls_nil
  rmatch_star_nil : rmatch.

(** Runs the matcher as far as the shape of the input is known. *)
Ltac rm_step := repeat (autorewrite with rmatch; try progress cbv beta).

(** *** Greedy runs *)

Lemma take_drop_while p s : take_while p s ++ drop_while p s = s.
Proof. induction s as [|c t IH]; simpl; [reflexivity|]. destruct (p c); simpl; congruence. Qed.

Lemma drop_while_length p s : length (drop_while p s) <= length s.
Proof. induction s as [|c t IH]; simpl; [lia|]. destruct (p c); simpl; lia. Qed.

Lemma ltb_drop_while p c (t : jsstring) :
  (length (drop_while p t) <? length (c :: t)) = true.
Proof. apply Nat.ltb_lt. pose proof (drop_while_length p t). simpl. lia. Qed.

Lemma star_cls_greedy p : forall rest pos caps,
  rmatch (Star (Cls p)) Some (MState pos rest caps) =
  Some (skip p (MState pos rest caps)).
Proof.
  induction rest as [|c t IH]; intros pos caps.
  - unfold skip; simpl. rewrite Nat.add_0_r. reflexivity.
  - rewrite rmatch_star_cls_cons. unfold skip.
    cbn [m_rest m_pos m_caps take_while drop_while].
    destruct (p c) eqn:P.
    + rewrite IH. unfold skip; simpl. f_equal. f_equal. lia.
    + f_equal. f_equal. simpl. lia.
Qed.

(** *** The three replacements of [slugifyTitle] *)

Lemma hyphenate_runs_true s :
  hyphenate_runs true s = hyphenate_runs false (drop_while (cls_not lower_alnum) s).
Proof.
  induction s as [|c t IH]; simpl; [reflexivity|].
  unfold cls_not at 1. destruct (lower_alnum c) eqn:E; simpl.
  - rewrite E. reflexivity.
  - exact IH.
Qed.

Lemma replace_from_cons r rep f pos c t :
  replace_from r rep (S f) pos (c :: t) =
  match rmatch r Some (MState pos (c :: t) []) with
  | Some s' =>
      if length (m_rest s') <? length (c :: t)
      then rep ++ replace_from r rep f (m_pos s') (m_rest s')
      else rep ++ c :: replace_from r rep f (S pos) t
  | None => c :: replace_from r rep f (S pos) t
  end.
Proof. reflexivity. Qed.

Lemma replace_non_alnum : forall fuel pos rest,
  length rest < fuel ->
  replace_from RE_NON_ALNUM (str "-") fuel pos rest = hyphenate_runs false rest.
Proof.
  induction fuel as [|f IH]; intros pos rest Hf; [lia|].
  destruct rest as [|c t]; [reflexivity|].
  simpl in Hf. rewrite replace_from_cons.
  change RE_NON_ALNUM with (Seq (Cls (cls_not lower_alnum))
                                (Star (Cls (cls_not lower_alnum)))) at 1.
  rm_step.
  unfold cls_not at 1.
  cbn [hyphenate_runs]. destruct (lower_alnum c) eqn:E; cbn [negb].
  - rewrite IH by lia. reflexivity.
  - rewrite star_cls_greedy.
    unfold skip; cbn [m_rest m_pos m_caps].
    rewrite ltb_drop_while.
    pose proof (drop_while_length (cls_not lower_alnum) t) as L.
    rewrite IH by lia.
    rewrite hyphenate_runs_true. reflexivity.
Qed.

Lemma collapse_true s :
  collapse_hyphens true s = collapse_hyphens false (drop_while hyph s).
Proof.
  induction s as [|c t IH]; simpl; [reflexivity|].
  destruct (hyph c) eqn:E; simpl; [exact IH | rewrite E; reflexivity].
Qed.

Lemma replace_hyphens : forall fuel pos rest,
  length rest < fuel ->
  replace_from RE_HYPHENS (str "-") fuel pos rest = collapse_hyphens false rest.
Proof.
  induction fuel as [|f IH]; intros pos rest Hf; [lia|].
  destruct rest as [|c t]; [reflexivity|].
  simpl in Hf. rewrite replace_from_cons.
  change RE_HYPHENS with (Seq (Cls hyph) (Seq (Cls hyph) (Star (Cls hyph)))) at 1.
  rm_step.
  cbn [collapse_hyphens].
  destruct (hyph c) eqn:E.
  - destruct t as [|c2 t2].
    + rm_step. rewrite IH by lia. reflexivity.
    + rm_step. destruct (hyph c2) eqn:E2.
      * rewrite star_cls_greedy. unfold skip; cbn [m_rest m_pos m_caps].
        pose proof (drop_while_length hyph t2) as L.
        replace (_ <? _) with true by (symmetry; apply Nat.ltb_lt; simpl; lia).
        simpl in Hf. rewrite IH by lia.
        cbn [collapse_hyphens]. rewrite E2. rewrite collapse_true.
        apply hyph_true in E; subst. reflexivity.
      * rewrite IH by lia.
        cbn [collapse_hyphens]. rewrite E2. reflexivity.
  - rewrite IH by lia. reflexivity.
Qed.

Lemma edge_inner k pos rest caps :
  rmatch EDGE k (MState (S pos) rest caps) =
  match rest with
  | [c] => if hyph c then k (MState (S (S pos)) [] ((1, [c]) :: caps)) else None
  | _ => None
  end.
Proof.
  unfold EDGE. rm_step. cbn [Nat.eqb].
  destruct rest as [|c t]; rm_step; [reflexivity|].
  destruct (hyph c); [|destruct t; reflexivity].
  destruct t; rm_step; [|reflexivity].
  unfold close_group. cbn [m_pos m_rest m_caps].
  replace (S (S pos) - S pos) with 1 by lia. reflexivity.
Qed.

Lemma edge_hyphens_inner : forall fuel pos rest,
  length rest < fuel ->
  replace_from RE_EDGE_HYPHENS [] fuel (S pos) rest = drop_last_hyphen rest.
Proof.
  induction fuel as [|f IH]; intros pos rest Hf; [lia|].
  destruct rest as [|c t]; [reflexivity|].
  simpl in Hf. rewrite replace_from_cons.
  change RE_EDGE_HYPHENS with (Seq EDGE (Star EDGE)) at 1.
  rewrite rmatch_seq, edge_inner.
  destruct t as [|c2 t2].
  - destruct (hyph c) eqn:E.
    + rewrite rmatch_star_nil. cbn [m_rest m_pos length Nat.ltb Nat.leb app].
      rewrite IH by lia. cbn. rewrite E. reflexivity.
    + rewrite IH by lia. cbn. rewrite E. reflexivity.
  - rewrite IH by lia. reflexivity.
Qed.

Lemma replace_edge_hyphens s :
  replaceAll RE_EDGE_HYPHENS [] s = drop_last_hyphen (drop_first_hyphen s).
Proof.
  unfold replaceAll. destruct s as [|c t]; [reflexivity|].
  rewrite replace_from_cons.
  change RE_EDGE_HYPHENS with (Seq EDGE (Star EDGE)) at 1.
  rewrite rmatch_seq. unfold EDGE at 1. rm_step. cbn [Nat.eqb].
  cbn [drop_first_hyphen]. destruct (hyph c) eqn:E.
  - unfold close_group. cbn [m_pos m_rest m_caps Nat.sub firstn].
    rewrite rmatch_star, edge_inner.
    destruct t as [|c2 t2]; [reflexivity|].
    destruct t2 as [|c3 t3].
    + destruct (hyph c2) eqn:E2.
      * rewrite rmatch_star_nil. cbn [m_rest m_pos length Nat.ltb Nat.leb app].
        rewrite edge_hyphens_inner by (simpl; lia).
        cbn [drop_last_hyphen]. rewrite E2. reflexivity.
      * cbn [m_rest m_pos length Nat.ltb Nat.leb app].
        rewrite edge_hyphens_inner by (simpl; lia).
        cbn [drop_last_hyphen]. rewrite E2. reflexivity.
    + replace (_ <? _) with true by (symmetry; apply Nat.ltb_lt; simpl; lia).
      cbn [m_pos m_rest app].
      rewrite edge_hyphens_inner by (simpl; lia). reflexivity.
  - rewrite edge_hyphens_inner by (simpl; lia).
    destruct t; simpl; rewrite ?E; reflexivity.
Qed.

(** *** From the three replacements to the runs joined by hyphens *)

Lemma hyphenate_join : forall (y : jsstring) (b : bool),
  (if b then ["-"] else []) ++ hyphenate_runs b y =
  join_runs b y ++ (if ends_in_gap b y then ["-"] else []).
Proof.
  induction y as [|c t IH]; intros b.
  - destruct b; reflexivity.
  - cbn [hyphenate_runs join_runs ends_in_gap].
    destruct (lower_alnum c).
    + specialize (IH false). cbn [app] in IH. rewrite IH.
      destruct b; reflexivity.
    + rewrite <- (IH true). destruct b; reflexivity.
Qed.

Lemma join_true y :
  join_runs true y =
  match drop_while (cls_not lower_alnum) y with
  | [] => []
  | _ :: _ => "-" :: slug_core y
  end.
Proof.
  unfold slug_core.
  induction y as [|c t IH]; [reflexivity|].
  cbn [join_runs drop_while]. unfold cls_not at 1 3.
  destruct (lower_alnum c) eqn:E; cbn [negb].
  - cbn [join_runs]. rewrite E. reflexivity.
  - exact IH.
Qed.

Lemma gap_no_alnum y :
  drop_while (cls_not lower_alnum) y = [] -> ends_in_gap true y = true.
Proof.
  induction y as [|c t IH]; [reflexivity|].
  cbn [drop_while ends_in_gap]. unfold cls_not at 1.
  destruct (lower_alnum c); cbn [negb]; [discriminate | exact IH].
Qed.

Lemma drop_while_head p y :
  match drop_while p y with [] => True | c :: _ => p c = false end.
Proof.
  induction y as [|c t IH]; simpl; [exact I|].
  destruct (p c) eqn:E; [exact IH | exact E].
Qed.

Lemma head_ok_core y : head_ok (slug_core y) = true.
Proof.
  unfold slug_core.
  pose proof (drop_while_head (cls_not lower_alnum) y) as H.
  destruct (drop_while _ y) as [|c t]; [reflexivity|].
  unfold cls_not in H. apply negb_false_iff in H.
  cbn [join_runs]. rewrite H. exact H.
Qed.

Lemma head_ok_app a b :
  a <> [] -> head_ok (a ++ b) = head_ok a.
Proof. destruct a; [congruence | reflexivity]. Qed.

Lemma last_ok_join : forall y p, head_ok (rev (join_runs p y)) = true.
Proof.
  induction y as [|c t IH]; intros p; [reflexivity|].
  cbn [join_runs]. destruct (lower_alnum c) eqn:E; [|apply IH].
  assert (H : head_ok (rev (c :: join_runs false t)) = true).
  { cbn [rev]. destruct (join_runs false t) as [|d u] eqn:J.
    - simpl. exact E.
    - rewrite head_ok_app.
      + rewrite <- J. apply IH.
      + simpl. destruct (rev u); discriminate. }
  destruct p; [|exact H].
  change ("-" :: c :: join_runs false t) with (["-"] ++ (c :: join_runs false t)).
  rewrite rev_app_distr. rewrite head_ok_app; [exact H|].
  cbn [rev]. destruct (rev (join_runs false t)); discriminate.
Qed.

Lemma slug_tail_join : forall y p, slug_tail (join_runs p y).
Proof.
  induction y as [|c t IH]; intros p; [constructor|].
  cbn [join_runs]. destruct (lower_alnum c) eqn:E; [|apply IH].
  destruct p; [apply tail_sep | apply tail_char]; auto.
Qed.

(** The result is empty or an [a-z0-9] character followed by a tail. *)
Lemma slug_core_shape y :
  slug_core y = [] \/
  exists c t, slug_core y = c :: t /\ lower_alnum c = true /\ slug_tail t.
Proof.
  unfold slug_core.
  pose proof (drop_while_head (cls_not lower_alnum) y) as H.
  destruct (drop_while _ y) as [|c t]; [left; reflexivity|].
  unfold cls_not in H. apply negb_false_iff in H. right.
  cbn [join_runs]. rewrite H. exists c, (join_runs false t).
  split; [reflexivity|]. split; [exact H | apply slug_tail_join].
Qed.

(** *** Stripping the edge hyphens *)

Lemma drop_last_hyphen_snoc s : drop_last_hyphen (s ++ ["-"]) = s.
Proof.
  induction s as [|c t IH]; [reflexivity|].
  cbn [app drop_last_hyphen]. rewrite IH.
  destruct (t ++ ["-"]) eqn:E; [destruct t; discriminate | reflexivity].
Qed.

Lemma drop_last_hyphen_id s :
  head_ok (rev s) = true -> drop_last_hyphen s = s.
Proof.
  induction s as [|c t IH]; intros H; [reflexivity|].
  cbn [drop_last_hyphen]. destruct t as [|d u].
  - simpl in H. rewrite (alnum_not_hyph _ H). reflexivity.
  - rewrite IH; [reflexivity|].
    cbn [rev] in H. rewrite head_ok_app in H; [exact H|].
    cbn [rev]. destruct (rev u); discriminate.
Qed.

Lemma drop_while_hyph_id s :
  head_ok s = true -> drop_while hyph s = s.
Proof.
  destruct s as [|c t]; intros H; [reflexivity|].
  simpl in H. simpl. rewrite (alnum_not_hyph _ H). reflexivity.
Qed.

Lemma strip_edges (lead core trail : jsstring) :
  (lead = [] \/ lead = ["-"]) -> (trail = [] \/ trail = ["-"]) ->
  head_ok core = true -> head_ok (rev core) = true ->
  drop_last_hyphen (drop_first_hyphen (lead ++ core ++ trail)) = core /\
  strip_hyphens (lead ++ core ++ trail) = core.
Proof.
  intros Hl Ht Hh Hr.
  assert (Hs : strip_hyphens core = core).
  { unfold strip_hyphens. rewrite (drop_while_hyph_id _ Hh).
    rewrite (drop_while_hyph_id _ Hr). apply rev_involutive. }
  assert (Hs' : strip_hyphens (core ++ ["-"]) = core).
  { unfold strip_hyphens. destruct core as [|c t].
    - reflexivity.
    - rewrite (drop_while_hyph_id (_ ++ _)) by exact Hh.
      rewrite rev_app_distr. cbn [rev app drop_while]. cbn [rev] in Hr.
      change (hyph "-") with true. cbv iota.
      rewrite (drop_while_hyph_id _ Hr).
      rewrite rev_app_distr, rev_involutive. reflexivity. }
  destruct core as [|c t].
  - destruct Hl as [-> | ->], Ht as [-> | ->]; split; reflexivity.
  - simpl in Hh. pose proof (alnum_not_hyph _ Hh) as Nh.
    destruct Hl as [-> | ->], Ht as [-> | ->]; cbn [app drop_first_hyphen];
      rewrite ?app_nil_r; change (hyph "-") with true; cbv iota; rewrite ?Nh.
    + split; [apply drop_last_hyphen_id; exact Hr | exact Hs].
    + split; [apply (drop_last_hyphen_snoc (c :: t)) | exact Hs'].
    + split; [apply drop_last_hyphen_id; exact Hr|].
      unfold strip_hyphens. cbn [drop_while]. change (hyph "-") with true.
      cbv iota. exact Hs.
    + split; [apply (drop_last_hyphen_snoc (c :: t))|].
      unfold strip_hyphens. cbn [drop_while]. change (hyph "-") with true.
      cbv iota. exact Hs'.
Qed.

Lemma hyphenate_form y :
  exists lead trail,
    (lead = [] \/ lead = ["-"]) /\ (trail = [] \/ trail = ["-"]) /\
    hyphenate_runs false y = lead ++ slug_core y ++ trail.
Proof.
  pose proof (hyphenate_join y false) as H. cbn [app] in H.
  destruct y as [|c t].
  - exists [], []. auto.
  - destruct (lower_alnum c) eqn:E.
    + exists [], (if ends_in_gap false (c :: t) then ["-"] else []).
      split; [left; reflexivity|].
      split; [destruct (ends_in_gap false (c :: t)); [right|left]; reflexivity|].
      rewrite H. unfold slug_core. cbn [drop_while]. unfold cls_not.
      rewrite E. reflexivity.
    + cbn [hyphenate_runs]. rewrite E.
      pose proof (hyphenate_join t true) as H'. cbn [app] in H'. rewrite H'.
      rewrite join_true.
      assert (Ec : slug_core (c :: t) = slug_core t).
      { unfold slug_core. cbn [drop_while]. unfold cls_not at 1. rewrite E.
        reflexivity. }
      rewrite Ec.
      destruct (drop_while (cls_not lower_alnum) t) as [|d u] eqn:D.
      * rewrite (gap_no_alnum _ D). exists ["-"], [].
        unfold slug_core. rewrite D.
        split; [right; reflexivity|]. split; [left; reflexivity|].
        reflexivity.
      * exists ["-"], (if ends_in_gap true t then ["-"] else []).
        split; [right; reflexivity|].
        split; [destruct (ends_in_gap true t); [right|left]; reflexivity|].
        reflexivity.
Qed.

Lemma collapse_tail t : slug_tail t -> collapse_hyphens false t = t.
Proof.
  induction 1 as [|c t Hc _ IH|c t Hc _ IH]; [reflexivity| |].
  - cbn [collapse_hyphens]. rewrite (alnum_not_hyph _ Hc), IH. reflexivity.
  - cbn [collapse_hyphens]. change (hyph "-") with true. cbv iota.
    rewrite (alnum_not_hyph _ Hc), IH. reflexivity.
Qed.

Lemma collapse_core y : collapse_hyphens false (slug_core y) = slug_core y.
Proof.
  destruct (slug_core_shape y) as [-> | (c & t & -> & Hc & Ht)]; [reflexivity|].
  cbn [collapse_hyphens]. rewrite (alnum_not_hyph _ Hc), (collapse_tail Ht).
  reflexivity.
Qed.

Lemma last_ok_core y : head_ok (rev (slug_core y)) = true.
Proof. apply last_ok_join. Qed.

Lemma slugifyTitle_core title :
  slugifyTitle title = slug_core (toLowerCase (trim title)).
Proof.
  unfold slugifyTitle. set (y := toLowerCase (trim title)).
  unfold replaceAll at 3. rewrite replace_non_alnum by lia.
  rewrite replace_edge_hyphens.
  destruct (hyphenate_form y) as (lead & trail & Hl & Ht & ->).
  destruct (@strip_edges lead (slug_core y) trail Hl Ht (head_ok_core y) (last_ok_core y)) as [-> _].
  unfold replaceAll. rewrite replace_hyphens by lia. apply collapse_core.
Qed.

Lemma slug_spec_core title :
  slug_spec title = slug_core (toLowerCase (trim title)).
Proof.
  unfold slug_spec. set (y := toLowerCase (trim title)).
  destruct (hyphenate_form y) as (lead & trail & Hl & Ht & ->).
  destruct (@strip_edges lead (slug_core y) trail Hl Ht (head_ok_core y) (last_ok_core y)) as [_ ->].
  apply collapse_core.
Qed.

(** *** The slug matches the slug pattern *)

Lemma steps_length r s s' :
  steps r s s' -> length (m_rest s') <= length (m_rest s).
Proof.
  induction 1; simpl; try lia.
  rewrite H. simpl. lia.
Qed.

Lemma exec_from_first r pos rest :
  rmatch r Some (MState pos rest []) <> None -> exec_from r pos rest <> None.
Proof.
  intros H. destruct rest; simpl; destruct (rmatch r Some _); congruence.
Qed.

Lemma slug_tail_steps t : slug_tail t -> forall pos caps,
  exists s1 s2,
    steps (Star (Cls lower_alnum)) (MState pos t caps) s1 /\
    steps (Star SLUG_SEP) s1 s2 /\ m_rest s2 = [].
Proof.
  induction 1 as [|c t Hc _ IH|c t Hc _ IH]; intros pos caps.
  - exists (MState pos [] caps), (MState pos [] caps).
    split; [constructor|]. split; [constructor | reflexivity].
  - destruct (IH (S pos) caps) as (s1 & s2 & S1 & S2 & E).
    exists s1, s2. split; [|split; assumption].
    eapply st_star_more; [| |exact S1].
    + apply (@st_cls lower_alnum (MState pos (c :: t) caps) c t); auto.
    + simpl. lia.
  - destruct (IH (S (S pos)) caps) as (s1 & s2 & S1 & S2 & E).
    exists (MState pos ("-" :: c :: t) caps), s2.
    split; [constructor|]. split; [|assumption].
    eapply st_star_more; [| |exact S2].
    + unfold SLUG_SEP, Plus, Chr. eapply st_seq.
      * apply (@st_cls _ (MState pos ("-" :: c :: t) caps) "-" (c :: t)); auto.
      * eapply st_seq; [|exact S1].
        apply (@st_cls lower_alnum (MState (S pos) (c :: t) caps) c t); auto.
    + apply steps_length in S1. simpl in *. lia.
Qed.

Lemma slug_shape_test c t :
  lower_alnum c = true -> slug_tail t -> regexp_test RE_SLUG (c :: t) = true.
Proof.
  intros Hc Ht. unfold regexp_test, exec.
  destruct (exec_from _ _ _) eqn:E; [reflexivity|]. exfalso.
  revert E. apply exec_from_first.
  destruct (slug_tail_steps Ht 1 []) as (s1 & s2 & S1 & S2 & E).
  apply (@rmatch_complete _ _ (close_group 0 (MState 0 (c :: t) []) s2));
    [|discriminate].
  constructor. unfold RE_SLUG, Plus.
  eapply st_seq; [constructor; reflexivity|].
  eapply st_seq.
  - eapply st_seq; [|exact S1].
    apply (@st_cls lower_alnum (MState 0 (c :: t) []) c t); auto.
  - eapply st_seq; [exact S2|]. constructor; assumption.
Qed.

(** *** Characters of the slug *)

Ltac all_chars c := destruct c as [[] [] [] [] [] [] [] []].

(** White space stays outside [a-z0-9] when lower-cased. *)
Lemma space_lower_gap c :
  is_space c = true -> lower_alnum (lower_char c) = false.
Proof. all_chars c; vm_compute; intros H; first [reflexivity | discriminate]. Qed.

Lemma lower_alnum_fixed c : lower_alnum c = true -> lower_char c = c.
Proof. all_chars c; vm_compute; intros H; first [reflexivity | discriminate]. Qed.

Lemma slug_tail_lower t : slug_tail t -> toLowerCase t = t.
Proof.
  induction 1 as [|c t Hc _ IH|c t Hc _ IH]; [reflexivity| |].
  - simpl. rewrite (lower_alnum_fixed _ Hc). fold (toLowerCase t). congruence.
  - simpl. rewrite (lower_alnum_fixed _ Hc). fold (toLowerCase t).
    change (lower_char "-") with "-". congruence.
Qed.

(** *** When the slug is empty *)

Lemma drop_while_nil p s :
  drop_while p s = [] <-> forall c, In c s -> p c = true.
Proof.
  induction s as [|c t IH]; simpl.
  - split; [intros _ c [] | reflexivity].
  - destruct (p c) eqn:E.
    + rewrite IH. split.
      * intros H d [<- | Hd]; auto.
      * intros H d Hd. apply H. right; exact Hd.
    + split; [discriminate|]. intros H. specialize (H c (or_introl eq_refl)).
      congruence.
Qed.

Lemma slug_core_nil y :
  slug_core y = [] <-> forall c, In c y -> lower_alnum c = false.
Proof.
  assert (H : slug_core y = [] <-> drop_while (cls_not lower_alnum) y = []).
  { unfold slug_core.
    pose proof (drop_while_head (cls_not lower_alnum) y) as Hd.
    destruct (drop_while _ y) as [|c t]; [tauto|].
    unfold cls_not in Hd. apply negb_false_iff in Hd.
    cbn [join_runs]. rewrite Hd. split; discriminate. }
  rewrite H, drop_while_nil. unfold cls_not.
  split; intros G c Hc; specialize (G c Hc).
  - apply negb_true_iff in G. exact G.
  - rewrite G. reflexivity.
Qed.

Lemma In_trimStart c s : In c (trimStart s) -> In c s.
Proof.
  induction s as [|d t IH]; simpl; [tauto|].
  destruct (is_space d); [right; auto | simpl; tauto].
Qed.

Lemma In_trimStart_keep c s :
  In c s -> is_space c = false -> In c (trimStart s).
Proof.
  induction s as [|d t IH]; simpl; [tauto|]. intros [-> | H] Hc.
  - rewrite Hc. left; reflexivity.
  - destruct (is_space d); [auto | right; exact H].
Qed.

Lemma In_trim c s : In c (trim s) -> In c s.
Proof.
  unfold trim, trimEnd. intros H. apply in_rev in H.
  apply In_trimStart in H. apply in_rev in H. apply In_trimStart in H.
  exact H.
Qed.

Lemma In_trim_keep c s : In c s -> is_space c = false -> In c (trim s).
Proof.
  unfold trim, trimEnd. intros H Hc. apply -> in_rev.
  apply In_trimStart_keep; [|exact Hc]. apply in_rev.
  rewrite rev_involutive. apply In_trimStart_keep; assumption.
Qed.

(** The slug is empty exactly when lower-casing leaves the title without
    a character of [a-z0-9]. *)
Lemma slugifyTitle_empty title :
  slugifyTitle title = [] <->
  forall c, In c (toLowerCase title) -> lower_alnum c = false.
Proof.
  rewrite slugifyTitle_core, slug_core_nil. unfold toLowerCase. split.
  - intros H c Hc. apply in_map_iff in Hc. destruct Hc as (d & <- & Hd).
    destruct (is_space d) eqn:S; [apply space_lower_gap, S|].
    apply H, in_map, In_trim_keep; assumption.
  - intros H c Hc. apply in_map_iff in Hc. destruct Hc as (d & <- & Hd).
    apply H, in_map, In_trim, Hd.
Qed.

(** C1.  [slugifyTitle] computes what the specification describes: trim,
    lower-case, every maximal run of characters outside [a-z0-9] replaced
    by one hyphen, leading and trailing hyphens stripped, repeated hyphens
    collapsed.  The result is its own lower case; it is empty or matches
    [^[a-z0-9]+(-[a-z0-9]+)*$]; it is empty only if the title has no
    alphanumeric character, that is none that lower-casing turns into a
    character of [a-z0-9] (and then it is indeed empty); and the title
    "My Big Event!!" gives "my-big-event". *)
Theorem slugifyTitle_spec (title : jsstring) :
  slugifyTitle title = slug_spec title /\
  toLowerCase (slugifyTitle title) = slugifyTitle title /\
  (slugifyTitle title = [] \/
   regexp_test RE_SLUG (slugifyTitle title) = true) /\
  (slugifyTitle title = [] <->
   forall c, In c (toLowerCase title) -> lower_alnum c = false) /\
  slugifyTitle (str "My Big Event!!") = str "my-big-event".
Proof.
  split; [rewrite slugifyTitle_core, slug_spec_core; reflexivity|].
  split; [|split; [|split; [apply slugifyTitle_empty | reflexivity]]].
  - rewrite slugifyTitle_core.
    destruct (slug_core_shape (toLowerCase (trim title)))
      as [-> | (c & t & -> & Hc & Ht)]; [reflexivity|].
    apply (@slug_tail_lower (c :: t) (@tail_char c t Hc Ht)).
  - rewrite slugifyTitle_core.
    destruct (slug_core_shape (toLowerCase (trim title)))
      as [-> | (c & t & -> & Hc & Ht)]; [left; reflexivity|].
    right. apply slug_shape_test; assumption.
Qed.

(** *** Inversion of the matching relation *)

Lemma steps_eps_inv s s' : steps Eps s s' -> s' = s.
Proof. inversion 1; reflexivity. Qed.

Lemma steps_cls_inv p pos rest caps s' :
  steps (Cls p) (MState pos rest caps) s' ->
  exists c t, rest = c :: t /\ p c = true /\ s' = MState (S pos) t caps.
Proof. inversion 1; subst. simpl in *. eauto. Qed.

Lemma steps_seq_inv a b s s' :
  steps (Seq a b) s s' -> exists s1, steps a s s1 /\ steps b s1 s'.
Proof. inversion 1; eauto. Qed.

Lemma steps_alt_inv a b s s' :
  steps (Alt a b) s s' -> steps a s s' \/ steps b s s'.
Proof. inversion 1; auto. Qed.

Lemma steps_group_inv i a s s' :
  steps (Group i a) s s' -> exists s1, steps a s s1 /\ s' = close_group i s s1.
Proof. inversion 1; eauto. Qed.

Lemma steps_bol_inv s s' : steps Bol s s' -> s' = s /\ m_pos s = 0.
Proof. inversion 1; auto. Qed.

Lemma steps_eol_inv s s' : steps Eol s s' -> s' = s /\ m_rest s = [].
Proof. inversion 1; auto. Qed.

Lemma steps_star_cls_inv p s s' :
  steps (Star (Cls p)) s s' ->
  exists u rest', forallb p u = true /\ m_rest s = u ++ rest' /\
            s' = MState (m_pos s + length u) rest' (m_caps s).
Proof.
  remember (Star (Cls p)) as r eqn:E. induction 1; try discriminate.
  - exists [], (m_rest s). simpl. rewrite Nat.add_0_r. destruct s; auto.
  - inversion E; subst a. clear IHsteps1.
    destruct (IHsteps2 eq_refl) as (u & rest' & Hu & Hr & Hs).
    destruct s as [pos rest caps]. apply steps_cls_inv in H.
    destruct H as (c & t & -> & Hp & ->). simpl in *.
    exists (c :: u), rest'. simpl. rewrite Hp, Hu.
    split; [reflexivity|]. split; [congruence|].
    rewrite Hs. f_equal. lia.
Qed.

Ltac steps_inv :=
  repeat match goal with
  | H : steps (Seq _ _) _ _ |- _ =>
      apply steps_seq_inv in H; destruct H as (? & ? & ?)
  | H : steps (Alt _ _) _ _ |- _ => apply steps_alt_inv in H; destruct H
  | H : steps (Group _ _) _ _ |- _ =>
      apply steps_group_inv in H; destruct H as (? & ? & ?); subst
  | H : steps Eps _ _ |- _ => apply steps_eps_inv in H; subst
  | H : steps Bol _ _ |- _ => apply steps_bol_inv in H; destruct H; subst
  | H : steps Eol _ _ |- _ =>
      apply steps_eol_inv in H; destruct H; subst; cbn [m_rest close_group] in *
  | H : steps (Cls _) (MState _ _ _) _ |- _ =>
      apply steps_cls_inv in H; destruct H as (? & ? & ? & ? & ?); subst
  | H : steps _ (close_group _ _ _) _ |- _ =>
      unfold close_group in H; cbn [m_pos m_rest m_caps] in H
  | H : steps (Star (Cls _)) (MState _ _ _) _ |- _ =>
      apply steps_star_cls_inv in H; destruct H as (? & ? & ? & ? & ?);
      cbn [m_pos m_rest m_caps] in *; subst
  end.

Lemma exec_from_bol r : forall rest pos,
  exec_from (Group 0 (Seq Bol r)) (S pos) rest = None.
Proof.
  induction rest as [|c t IH]; intros pos; [reflexivity|].
  cbn [exec_from]. rewrite rmatch_group, rmatch_seq, rmatch_bol.
  cbn [Nat.eqb]. apply IH.
Qed.

Lemma exec_bol r t :
  exec (Seq Bol r) t = rmatch (Group 0 (Seq Bol r)) Some (MState 0 t []).
Proof.
  unfold exec. destruct t as [|c t]; cbn [exec_from];
    destruct (rmatch _ _ _); try reflexivity.
  apply exec_from_bol.
Qed.

Lemma exec_bol_steps r t m :
  exec (Seq Bol r) t = Some m ->
  exists s', steps r (MState 0 t []) s' /\
             m = close_group 0 (MState 0 t []) s'.
Proof.
  rewrite exec_bol. intros H. apply rmatch_sound in H.
  destruct H as (s' & S' & E). inversion E; subst. steps_inv.
  eauto.
Qed.

(** *** Arithmetic of character classes *)

Lemma in_range_iff lo hi c :
  in_range lo hi c = true <-> code lo <= code c <= code hi.
Proof.
  unfold in_range. rewrite andb_true_iff, !Nat.leb_le. tauto.
Qed.

Lemma cls_char_iff a c : cls_char a c = true <-> c = a.
Proof. apply ascii_eqb_eq. Qed.

Lemma cls_char_refl a : cls_char a a = true.
Proof. apply ascii_eqb_refl. Qed.

Lemma cls_or_iff p q c : cls_or p q c = true <-> p c = true \/ q c = true.
Proof. unfold cls_or. apply orb_true_iff. Qed.

Lemma code_inj a b : code a = code b -> a = b.
Proof. intros H. apply ascii_eqb_eq. unfold ascii_eqb. apply Nat.eqb_eq, H. Qed.

Lemma code_eq_char c n a : code a = n -> code c = n -> c = a.
Proof. intros <- H. apply code_inj, H. Qed.

Ltac codes :=
  change (code "0") with 48 in *; change (code "1") with 49 in *;
  change (code "2") with 50 in *; change (code "3") with 51 in *;
  change (code "5") with 53 in *; change (code "9") with 57 in *;
  change (code ":") with 58 in *.

(** Turns the facts on character classes and on digit strings into
    inequalities on character codes. *)
Ltac cls_arith :=
  unfold hour24_text, hour12_text, minute_text, all_digits, is_digit,
    cls_range, Number in *;
  cbn [forallb fold_left length] in *;
  repeat match goal with
  | H : cls_char _ _ = true |- _ => apply cls_char_iff in H; subst
  | H : _ && _ = true |- _ => apply andb_true_iff in H; destruct H
  | H : in_range _ _ _ = true |- _ => apply in_range_iff in H
  end;
  rewrite ?andb_true_iff, ?in_range_iff; codes.

Lemma length1 (A : Type) (l : list A) : length l = 1 -> exists a, l = [a].
Proof. destruct l as [|a [|b l]]; try discriminate. eauto. Qed.

Lemma length2 (A : Type) (l : list A) : length l = 2 -> exists a b, l = [a; b].
Proof. destruct l as [|a [|b [|c l]]]; try discriminate. eauto. Qed.

(** *** The parts of a time token *)

Lemma steps_cls p pos c t caps :
  p c = true ->
  steps (Cls p) (MState pos (c :: t) caps) (MState (S pos) t caps).
Proof.
  intros H. apply (@st_cls p (MState pos (c :: t) caps) c t); auto.
Qed.

Lemma steps_chr pos c t caps :
  steps (Chr c) (MState pos (c :: t) caps) (MState (S pos) t caps).
Proof. apply steps_cls, cls_char_refl. Qed.

Lemma steps_star_run p u : forallb p u = true -> consumes (Star (Cls p)) u.
Proof.
  induction u as [|c u IH]; intros Hu pos rest caps.
  - cbn [app length]. rewrite Nat.add_0_r. constructor.
  - simpl in Hu. apply andb_true_iff in Hu. destruct Hu as [Hc Hu].
    cbn [app length]. replace (pos + S (length u)) with (S pos + length u) by lia.
    eapply st_star_more; [apply steps_cls, Hc | simpl; lia | apply IH, Hu].
Qed.

Lemma hour24_steps h : hour24_text h -> consumes HOUR24 h.
Proof.
  intros (Lh & Dh & Nh) pos rest caps. unfold HOUR24, Opt.
  destruct Lh as [Lh | Lh].
  - apply length1 in Lh. destruct Lh as (c & ->). cbn [app length].
    replace (pos + 1) with (S pos) by lia.
    apply st_alt_l. eapply st_seq; [apply st_alt_r, st_eps|].
    apply steps_cls. cls_arith. lia.
  - apply length2 in Lh. destruct Lh as (c & d & ->). cbn [app length].
    replace (pos + 2) with (S (S pos)) by lia.
    cls_arith. destruct (Nat.eq_dec (code c) 50) as [E | E].
    + apply (@code_eq_char c 50 "2" eq_refl) in E. subst c.
      apply st_alt_r. eapply st_seq; [apply steps_chr|].
      apply steps_cls. cls_arith. change (code "2") with 50 in *. lia.
    + apply st_alt_l. eapply st_seq; [apply st_alt_l|];
        apply steps_cls; cls_arith; lia.
Qed.

Lemma hour12_steps h : hour12_text h -> consumes HOUR12 h.
Proof.
  intros (Lh & Dh & Nh) pos rest caps. unfold HOUR12, Opt.
  destruct Lh as [Lh | Lh].
  - apply length1 in Lh. destruct Lh as (c & ->). cbn [app length].
    replace (pos + 1) with (S pos) by lia.
    apply st_alt_r. eapply st_seq; [apply st_alt_r, st_eps|].
    apply steps_cls. cls_arith. lia.
  - apply length2 in Lh. destruct Lh as (c & d & ->). cbn [app length].
    replace (pos + 2) with (S (S pos)) by lia.
    cls_arith. destruct (Nat.eq_dec (code c) 49) as [E | E].
    + apply (@code_eq_char c 49 "1" eq_refl) in E. subst c.
      apply st_alt_l. eapply st_seq; [apply steps_chr|].
      apply steps_cls. cls_arith. change (code "1") with 49 in *. lia.
    + assert (E0 : code c = 48) by lia.
      apply (@code_eq_char c 48 "0" eq_refl) in E0. subst c.
      apply st_alt_r. eapply st_seq; [apply st_alt_l, steps_chr|].
      apply steps_cls. cls_arith. change (code "0") with 48 in *. lia.
Qed.

Lemma minute_steps m : minute_text m -> consumes MINUTE m.
Proof.
  intros (Lm & Dm & Nm) pos rest caps.
  apply length2 in Lm. destruct Lm as (c & d & ->).
  cbn [app length]. replace (pos + 2) with (S (S pos)) by lia. unfold MINUTE.
  cls_arith.
  eapply st_seq; apply steps_cls; cls_arith; lia.
Qed.

Lemma meridiem_steps x : meridiem_text x -> consumes MERIDIEM x.
Proof.
  intros (a & b & -> & Ha & Hb) pos rest caps. cbn [app length].
  replace (pos + 2) with (S (S pos)) by lia. unfold MERIDIEM.
  eapply st_seq; apply steps_cls.
  - destruct Ha as [-> | [-> | [-> | ->]]]; reflexivity.
  - destruct Hb as [-> | ->]; reflexivity.
Qed.

(** Names the text consumed, one or two characters, from the position
    reached. *)
Ltac consumed :=
  repeat match goal with
         | H : cls_char _ _ = true |- _ => apply cls_char_iff in H; subst
         end;
  lazymatch goal with
  | |- exists u rest', ?c :: ?d :: ?r = _ /\ _ /\ MState (S (S _)) ?r _ = _ =>
      exists [c; d], r
  | |- exists u rest', ?c :: ?r = _ /\ _ /\ MState (S _) ?r _ = _ =>
      exists [c], r
  end;
  cbn [app length]; split; [reflexivity|]; split; [|f_equal; lia].

Lemma hour24_inv : consumed_by HOUR24 hour24_text.
Proof.
  intros pos rest caps s' H. unfold HOUR24, Opt, Chr in H.
  steps_inv; consumed; cls_arith.
  - split; [right; reflexivity|]. repeat split; try lia.
  - split; [left; reflexivity|]. repeat split; try lia.
  - split; [right; reflexivity|]. repeat split; try lia.
Qed.

Lemma hour12_inv : consumed_by HOUR12 hour12_text.
Proof.
  intros pos rest caps s' H. unfold HOUR12, Opt, Chr in H.
  steps_inv; consumed; cls_arith.
  - split; [right; reflexivity|]. repeat split; try lia.
  - split; [right; reflexivity|]. repeat split; try lia.
  - split; [left; reflexivity|]. repeat split; try lia.
Qed.

Lemma minute_inv : consumed_by MINUTE minute_text.
Proof.
  intros pos rest caps s' H. unfold MINUTE in H.
  steps_inv; consumed; cls_arith.
  split; [reflexivity|]. repeat split; try lia.
Qed.

Lemma meridiem_inv : consumed_by MERIDIEM meridiem_text.
Proof.
  intros pos rest caps s' H. unfold MERIDIEM in H. steps_inv. consumed.
  repeat match goal with
         | H : cls_or _ _ _ = true |- _ =>
             rewrite !cls_or_iff, !cls_char_iff in H
         end.
  eexists; eexists. split; [reflexivity | tauto].
Qed.

Lemma space_run_inv : consumed_by (Star (Cls is_space))
                                  (fun u => all_space u = true).
Proof.
  intros pos rest caps s' H. apply steps_star_cls_inv in H.
  destruct H as (u & rest' & Hu & E & ->). exists u, rest'. auto.
Qed.

Lemma chr_inv c pos rest caps s' :
  steps (Chr c) (MState pos rest caps) s' ->
  exists rest', rest = c :: rest' /\ s' = MState (S pos) rest' caps.
Proof.
  intros H. apply steps_cls_inv in H. destruct H as (d & t & -> & E & ->).
  apply cls_char_iff in E. subst. eauto.
Qed.

(** The text a group records. *)
Lemma group_inv i r P pos rest caps s' :
  consumed_by r P -> steps (Group i r) (MState pos rest caps) s' ->
  exists u rest', rest = u ++ rest' /\ P u /\
                  s' = MState (pos + length u) rest' ((i, u) :: caps).
Proof.
  intros C H. apply steps_group_inv in H. destruct H as (s1 & H & ->).
  apply C in H. destruct H as (u & rest' & -> & Pu & ->).
  exists u, rest'. split; [reflexivity|]. split; [exact Pu|].
  unfold close_group. cbn [m_pos m_rest m_caps]. f_equal. f_equal. f_equal.
  replace (pos + length u - pos) with (length u) by lia.
  rewrite firstn_app, Nat.sub_diag, firstn_all. cbn [firstn]. apply app_nil_r.
Qed.

Lemma group_steps i r u pos rest caps :
  consumes r u ->
  steps (Group i r) (MState pos (u ++ rest) caps)
        (close_group i (MState pos (u ++ rest) caps)
           (MState (pos + length u) rest caps)).
Proof. intros C. apply st_group, C. Qed.

(** *** The two time expressions *)

Lemma hhmm_sound t m :
  exec RE_HHMM t = Some m ->
  exists h mi, t = h ++ ":" :: mi /\ hour24_text h /\ minute_text mi /\
               capture 1 m = h /\ capture 2 m = mi.
Proof.
  unfold RE_HHMM. intros H. apply exec_bol_steps in H.
  destruct H as (s' & S' & ->).
  apply steps_seq_inv in S'. destruct S' as (s1 & G1 & S').
  apply (group_inv hour24_inv) in G1. destruct G1 as (h & r1 & -> & Hh & ->).
  apply steps_seq_inv in S'. destruct S' as (s2 & C & S').
  apply chr_inv in C. destruct C as (r2 & -> & ->).
  apply steps_seq_inv in S'. destruct S' as (s3 & G2 & S').
  apply (group_inv minute_inv) in G2. destruct G2 as (mi & r3 & -> & Hm & ->).
  apply steps_eol_inv in S'. destruct S' as [-> E]. cbn [m_rest] in E. subst r3.
  exists h, mi. rewrite app_nil_r. auto.
Qed.

Lemma hhmm_complete t : is_time24 t -> exec RE_HHMM t <> None.
Proof.
  intros (h & mi & -> & Hh & Hm). rewrite <- (app_nil_r mi).
  unfold RE_HHMM. rewrite exec_bol.
  eapply rmatch_complete; [|discriminate].
  apply st_group. eapply st_seq; [apply st_bol; reflexivity|].
  eapply st_seq; [apply group_steps, hour24_steps, Hh|].
  eapply st_seq; [apply steps_chr|].
  eapply st_seq; [apply group_steps, minute_steps, Hm|].
  apply st_eol. reflexivity.
Qed.

Lemma ampm_sound t m :
  exec RE_AMPM t = Some m ->
  exists h mi ws x,
    t = h ++ ":" :: mi ++ ws ++ x /\ hour12_text h /\ minute_text mi /\
    all_space ws = true /\ meridiem_text x /\
    capture 1 m = h /\ capture 2 m = mi /\ capture 3 m = x.
Proof.
  unfold RE_AMPM. intros H. apply exec_bol_steps in H.
  destruct H as (s' & S' & ->).
  apply steps_seq_inv in S'. destruct S' as (s1 & G1 & S').
  apply (group_inv hour12_inv) in G1. destruct G1 as (h & r1 & -> & Hh & ->).
  apply steps_seq_inv in S'. destruct S' as (s2 & C & S').
  apply chr_inv in C. destruct C as (r2 & -> & ->).
  apply steps_seq_inv in S'. destruct S' as (s3 & G2 & S').
  apply (group_inv minute_inv) in G2. destruct G2 as (mi & r3 & -> & Hm & ->).
  apply steps_seq_inv in S'. destruct S' as (s4 & W & S').
  apply space_run_inv in W. destruct W as (ws & r4 & -> & Hws & ->).
  apply steps_seq_inv in S'. destruct S' as (s5 & G3 & S').
  apply (group_inv meridiem_inv) in G3. destruct G3 as (x & r5 & -> & Hx & ->).
  apply steps_eol_inv in S'. destruct S' as [-> E]. cbn [m_rest] in E. subst r5.
  exists h, mi, ws, x. rewrite app_nil_r. repeat split; auto;
    first [apply Hh | apply Hm].
Qed.

Lemma ampm_complete t : is_time12 t -> exec RE_AMPM t <> None.
Proof.
  intros (h & mi & ws & x & -> & Hh & Hm & Hws & Hx).
  rewrite <- (app_nil_r x). unfold RE_AMPM. rewrite exec_bol.
  eapply rmatch_complete; [|discriminate].
  apply st_group. eapply st_seq; [apply st_bol; reflexivity|].
  eapply st_seq; [apply group_steps, hour12_steps, Hh|].
  eapply st_seq; [apply steps_chr|].
  eapply st_seq; [apply group_steps, minute_steps, Hm|].
  eapply st_seq; [apply steps_star_run, Hws|].
  eapply st_seq; [apply group_steps, meridiem_steps, Hx|].
  apply st_eol. reflexivity.
Qed.

(** *** Trimming *)

Lemma trimStart_drop s : trimStart s = drop_while is_space s.
Proof. induction s as [|c t IH]; simpl; [reflexivity|]. rewrite IH. reflexivity. Qed.

Lemma trimStart_pad lead s :
  all_space lead = true -> trimStart (lead ++ s) = trimStart s.
Proof.
  induction lead as [|c t IH]; simpl; [reflexivity|].
  intros H. apply andb_true_iff in H. destruct H as [-> H]. auto.
Qed.

Lemma trimStart_id s : head_not is_space s -> trimStart s = s.
Proof. destruct s as [|c t]; simpl; [reflexivity|]. intros ->. reflexivity. Qed.

Lemma all_space_rev s : all_space (rev s) = all_space s.
Proof.
  unfold all_space. induction s as [|c t IH]; [reflexivity|].
  simpl. rewrite forallb_app, IH. simpl. rewrite andb_true_r. apply andb_comm.
Qed.

Lemma trimEnd_pad s trail :
  all_space trail = true -> trimEnd (s ++ trail) = trimEnd s.
Proof.
  intros H. unfold trimEnd. rewrite rev_app_distr, trimStart_pad; [reflexivity|].
  rewrite all_space_rev. exact H.
Qed.

Lemma trimEnd_id s : head_not is_space (rev s) -> trimEnd s = s.
Proof.
  intros H. unfold trimEnd. rewrite trimStart_id by exact H.
  apply rev_involutive.
Qed.

Lemma trim_pad lead core trail :
  all_space lead = true -> all_space trail = true ->
  head_not is_space core -> head_not is_space (rev core) ->
  trim (lead ++ core ++ trail) = core.
Proof.
  intros Hl Ht Hc Hr. unfold trim.
  rewrite trimStart_pad by exact Hl.
  destruct core as [|c t].
  - simpl. unfold trimEnd.
    rewrite <- (app_nil_r (trimStart trail)), <- (app_nil_r trail).
    rewrite trimStart_pad by exact Ht. reflexivity.
  - rewrite trimStart_id by exact Hc.
    rewrite trimEnd_pad by exact Ht. apply trimEnd_id, Hr.
Qed.

Lemma drop_while_split p s :
  exists u, forallb p u = true /\ s = u ++ drop_while p s.
Proof.
  induction s as [|c t (u & Hu & E)]; [exists []; auto|].
  simpl. destruct (p c) eqn:P.
  - exists (c :: u). simpl. rewrite P, Hu. split; [reflexivity | congruence].
  - exists []. auto.
Qed.

Lemma head_not_app p a b : a <> [] -> head_not p (a ++ b) -> head_not p a.
Proof. destruct a; [congruence | auto]. Qed.

Lemma trim_decomp s :
  exists lead trail,
    s = lead ++ trim s ++ trail /\
    all_space lead = true /\ all_space trail = true /\
    head_not is_space (trim s) /\ head_not is_space (rev (trim s)).
Proof.
  unfold trim, trimEnd. rewrite !trimStart_drop.
  destruct (drop_while_split is_space s) as (lead & Hl & Es).
  set (y := drop_while is_space s) in *.
  destruct (drop_while_split is_space (rev y)) as (u & Hu & Ey).
  set (z := drop_while is_space (rev y)) in *.
  assert (Ey' : y = rev z ++ rev u).
  { rewrite <- (rev_involutive y), Ey, rev_app_distr. reflexivity. }
  exists lead, (rev u). split; [|split; [exact Hl|split]].
  - rewrite <- Ey'. exact Es.
  - rewrite all_space_rev. exact Hu.
  - split.
    + pose proof (drop_while_head is_space s) as Hy. fold y in Hy.
      destruct (rev z) as [|c t] eqn:Ez; [exact I|].
      rewrite Ey' in Hy. simpl in Hy. exact Hy.
    + rewrite rev_involutive.
      pose proof (drop_while_head is_space (rev y)) as Hz. fold z in Hz.
      destruct z; [exact I | exact Hz].
Qed.

Lemma trim_idem s : trim (trim s) = trim s.
Proof.
  destruct (trim_decomp s) as (lead & trail & _ & _ & _ & Hh & Hr).
  rewrite <- (app_nil_r (trim s)) at 1.
  apply (@trim_pad [] (trim s) []); auto.
Qed.

(** *** Two digits *)

Lemma digit_cases c : is_digit c = true -> In c (str "0123456789").
Proof.
  all_chars c; vm_compute; intros H; try discriminate; tauto.
Qed.

Lemma digit_not_space c : is_digit c = true -> is_space c = false.
Proof. all_chars c; vm_compute; intros H; first [reflexivity | discriminate]. Qed.

Lemma digit_not_hyph c : is_digit c = true -> hyph c = false.
Proof. all_chars c; vm_compute; intros H; first [reflexivity | discriminate]. Qed.

Lemma pad2_one a : is_digit a = true -> pad2 (Number [a]) = ["0"; a].
Proof.
  intros H. apply digit_cases in H. simpl in H.
  repeat (destruct H as [<- | H]; [reflexivity|]). destruct H.
Qed.

Lemma pad2_two a b :
  is_digit a = true -> is_digit b = true -> pad2 (Number [a; b]) = [a; b].
Proof.
  intros Ha Hb. apply digit_cases in Ha, Hb. simpl in Ha, Hb.
  repeat (destruct Ha as [<- | Ha];
          [repeat (destruct Hb as [<- | Hb]; [reflexivity|]); destruct Hb|]).
  destruct Ha.
Qed.

Lemma pad2_hour n :
  n <= 23 ->
  exists a b, pad2 n = [a; b] /\ is_digit a = true /\ is_digit b = true /\
              Number [a; b] = n.
Proof.
  intros H.
  do 24 (destruct n as [|n]; [eexists; eexists; repeat split; reflexivity|]).
  lia.
Qed.

(** *** A token has one reading *)

Lemma colon_not_digit : is_digit ":" = false.
Proof. reflexivity. Qed.

Lemma digits_colon_unique : forall h h' r r',
  all_digits h = true -> all_digits h' = true ->
  h ++ ":" :: r = h' ++ ":" :: r' -> h = h' /\ r = r'.
Proof.
  unfold all_digits.
  induction h as [|c h IH]; intros [|c' h'] r r' Hh Hh' E; simpl in *.
  - inversion E; auto.
  - inversion E; subst. rewrite colon_not_digit in Hh'. discriminate.
  - inversion E; subst. rewrite colon_not_digit in Hh. discriminate.
  - inversion E; subst. apply andb_true_iff in Hh, Hh'.
    destruct (IH h' r r') as [-> ->]; tauto.
Qed.

Lemma app_length_inj (A : Type) (a a' b b' : list A) :
  length a = length a' -> a ++ b = a' ++ b' -> a = a' /\ b = b'.
Proof.
  revert a'. induction a as [|x a IH]; intros [|x' a'] L E;
    simpl in *; try discriminate; [auto|].
  inversion E; subst. destruct (IH a') as [-> ->]; auto.
Qed.

Lemma app_length_inj_r (A : Type) (a a' b b' : list A) :
  length b = length b' -> a ++ b = a' ++ b' -> a = a' /\ b = b'.
Proof.
  intros L E. apply app_length_inj; [|exact E].
  apply (f_equal (@length A)) in E. rewrite !length_app in E. lia.
Qed.

Lemma time24_not_time12 t : is_time24 t -> is_time12 t -> False.
Proof.
  intros (h & m & -> & (_ & Dh & _) & (Lm & _))
         (h' & m' & ws & x & E & (_ & Dh' & _) & (Lm' & _) & _ & Hx).
  destruct (digits_colon_unique _ _ _ _ Dh Dh' E) as [_ ->].
  destruct Hx as (a & b & -> & _). rewrite !length_app in Lm. simpl in Lm. lia.
Qed.

Lemma meridiem_length x : meridiem_text x -> length x = 2.
Proof. intros (a & b & -> & _). reflexivity. Qed.

Lemma time12_unique h m ws x h' m' ws' x' :
  h ++ ":" :: m ++ ws ++ x = h' ++ ":" :: m' ++ ws' ++ x' ->
  hour12_text h -> minute_text m -> meridiem_text x ->
  hour12_text h' -> minute_text m' -> meridiem_text x' ->
  h = h' /\ m = m' /\ x = x'.
Proof.
  intros E (_ & Dh & _) (Lm & _) Hx (_ & Dh' & _) (Lm' & _) Hx'.
  destruct (digits_colon_unique _ _ _ _ Dh Dh' E) as [-> E1].
  apply app_length_inj in E1; [|congruence]. destruct E1 as [-> E2].
  apply app_length_inj_r in E2.
  - destruct E2 as [_ ->]. auto.
  - rewrite (meridiem_length Hx), (meridiem_length Hx'). reflexivity.
Qed.

(** *** [normalizeSingleTime] on each kind of token *)

Lemma normalizeSingleTime_24 input h mi :
  trim input = h ++ ":" :: mi -> hour24_text h -> minute_text mi ->
  normalizeSingleTime input = Ok (pad2 (Number h) ++ ":" :: mi).
Proof.
  intros E Hh Hm. unfold normalizeSingleTime.
  destruct (exec RE_HHMM (trim input)) as [r|] eqn:X.
  - apply hhmm_sound in X.
    destruct X as (h' & mi' & E' & (_ & Dh' & _) & _ & -> & ->).
    rewrite E in E'. destruct Hh as (_ & Dh & _).
    destruct (digits_colon_unique _ _ _ _ Dh Dh' E') as [-> ->]. reflexivity.
  - exfalso. revert X. apply hhmm_complete. rewrite E.
    exists h, mi. auto.
Qed.

Lemma meridiem_rule x n :
  meridiem_text x ->
  (if jseqb (toUpperCase x) (str "AM")
   then (if n =? 12 then 0 else n)
   else (if n =? 12 then 12 else n + 12)) = hour_rule n (is_pm x).
Proof.
  intros (a & b & -> & Ha & Hb). unfold hour_rule.
  destruct Ha as [-> | [-> | [-> | ->]]], Hb as [-> | ->];
    cbn; destruct (n =? 12); reflexivity.
Qed.

Lemma normalizeSingleTime_12 input h mi ws x :
  trim input = h ++ ":" :: mi ++ ws ++ x ->
  hour12_text h -> minute_text mi -> all_space ws = true -> meridiem_text x ->
  normalizeSingleTime input =
  Ok (pad2 (hour_rule (Number h) (is_pm x)) ++ ":" :: mi).
Proof.
  intros E Hh Hm Hws Hx. unfold normalizeSingleTime.
  assert (T12 : is_time12 (trim input)).
  { rewrite E. exists h, mi, ws, x. auto. }
  destruct (exec RE_HHMM (trim input)) as [r|] eqn:X.
  - exfalso. apply hhmm_sound in X.
    destruct X as (h' & mi' & E' & H1 & H2 & _).
    apply (@time24_not_time12 (trim input)); [|exact T12].
    exists h', mi'. auto.
  - destruct (exec RE_AMPM (trim input)) as [r|] eqn:Y.
    + apply ampm_sound in Y.
      destruct Y as (h' & mi' & ws' & x' & E' & Hh' & Hm' & _ & Hx' & -> & -> & ->).
      rewrite E in E'.
      destruct (@time12_unique h mi ws x h' mi' ws' x' E' Hh Hm Hx Hh' Hm' Hx')
        as (<- & <- & <-).
      rewrite (meridiem_rule _ Hx). reflexivity.
    + exfalso. revert Y. apply ampm_complete, T12.
Qed.

(** What [normalizeSingleTime] returns, in every case. *)
Lemma normalizeSingleTime_cases input :
  (exists h mi, trim input = h ++ ":" :: mi /\ hour24_text h /\
      minute_text mi /\
      normalizeSingleTime input = Ok (pad2 (Number h) ++ ":" :: mi)) \/
  (exists h mi ws x, trim input = h ++ ":" :: mi ++ ws ++ x /\
      hour12_text h /\ minute_text mi /\ all_space ws = true /\
      meridiem_text x /\
      normalizeSingleTime input =
      Ok (pad2 (hour_rule (Number h) (is_pm x)) ++ ":" :: mi)) \/
  (~ is_time24 (trim input) /\ ~ is_time12 (trim input) /\
   normalizeSingleTime input = Throw (err_time_format input)).
Proof.
  destruct (exec RE_HHMM (trim input)) as [r|] eqn:X.
  - left. apply hhmm_sound in X.
    destruct X as (h & mi & E & Hh & Hm & _). exists h, mi.
    split; [exact E|]. split; [exact Hh|]. split; [exact Hm|].
    apply normalizeSingleTime_24; assumption.
  - destruct (exec RE_AMPM (trim input)) as [r|] eqn:Y.
    + right; left. apply ampm_sound in Y.
      destruct Y as (h & mi & ws & x & E & Hh & Hm & Hws & Hx & _).
      exists h, mi, ws, x.
      split; [exact E|]. split; [exact Hh|]. split; [exact Hm|].
      split; [exact Hws|]. split; [exact Hx|].
      apply (@normalizeSingleTime_12 input h mi ws x); assumption.
    + right; right. split; [|split].
      * intros T. revert X. apply hhmm_complete, T.
      * intros T. revert Y. apply ampm_complete, T.
      * unfold normalizeSingleTime. rewrite X, Y. reflexivity.
Qed.

(** *** The result is canonical *)

Lemma hour_rule_bound n pm : 1 <= n <= 12 -> hour_rule n pm <= 23.
Proof.
  intros H. unfold hour_rule. destruct pm, (Nat.eqb_spec n 12); lia.
Qed.

Lemma canonical_24 h mi :
  hour24_text h -> minute_text mi ->
  canonical_time (pad2 (Number h) ++ ":" :: mi).
Proof.
  intros (Lh & Dh & Nh) (Lm & Dm & Nm).
  apply length2 in Lm. destruct Lm as (m1 & m2 & ->).
  destruct Lh as [Lh | Lh].
  - apply length1 in Lh. destruct Lh as (a & ->).
    assert (Ha : is_digit a = true).
    { unfold all_digits in Dh. simpl in Dh. apply andb_true_iff in Dh. tauto. }
    rewrite (pad2_one _ Ha). exists "0", a, m1, m2.
    split; [reflexivity|]. unfold all_digits in *. simpl in Dm |- *.
    rewrite Ha. split; [exact Dm|]. split; [|exact Nm].
    cls_arith. lia.
  - apply length2 in Lh. destruct Lh as (a & b & ->).
    assert (Hab : is_digit a = true /\ is_digit b = true).
    { unfold all_digits in Dh. simpl in Dh.
      apply andb_true_iff in Dh. destruct Dh as [Ha Hb].
      apply andb_true_iff in Hb. tauto. }
    destruct Hab as [Ha Hb]. rewrite (pad2_two _ _ Ha Hb).
    exists a, b, m1, m2. split; [reflexivity|].
    unfold all_digits in *. simpl in Dm |- *. rewrite Ha, Hb.
    split; [exact Dm|]. split; [exact Nh | exact Nm].
Qed.

Lemma canonical_12 h mi pm :
  hour12_text h -> minute_text mi ->
  canonical_time (pad2 (hour_rule (Number h) pm) ++ ":" :: mi).
Proof.
  intros (_ & _ & Nh) (Lm & Dm & Nm).
  apply length2 in Lm. destruct Lm as (m1 & m2 & ->).
  destruct (pad2_hour (hour_rule_bound pm Nh)) as (a & b & -> & Ha & Hb & E).
  exists a, b, m1, m2. split; [reflexivity|].
  unfold all_digits in *. simpl in Dm |- *. rewrite Ha, Hb.
  split; [exact Dm|]. split; [|exact Nm].
  rewrite E. apply hour_rule_bound, Nh.
Qed.

Lemma normalizeSingleTime_ok input out :
  normalizeSingleTime input = Ok out ->
  valid_token (trim input) /\ canonical_time out.
Proof.
  intros H. destruct (normalizeSingleTime_cases input)
    as [(h & mi & E & Hh & Hm & R)
       |[(h & mi & ws & x & E & Hh & Hm & Hws & Hx & R) | (_ & _ & R)]];
    rewrite R in H; inversion H; subst.
  - split; [left; rewrite E; exists h, mi; auto | apply canonical_24; auto].
  - split; [right; rewrite E; exists h, mi, ws, x; auto
           | apply canonical_12; auto].
Qed.

Lemma normalizeSingleTime_throw input e :
  normalizeSingleTime input = Throw e ->
  ~ valid_token (trim input) /\ e = err_time_format input.
Proof.
  intros H. destruct (normalizeSingleTime_cases input)
    as [(h & mi & E & Hh & Hm & R)
       |[(h & mi & ws & x & E & Hh & Hm & Hws & Hx & R) | (N1 & N2 & R)]];
    rewrite R in H; inversion H; subst.
  split; [unfold valid_token; tauto | reflexivity].
Qed.

Lemma normalizeSingleTime_valid input :
  valid_token (trim input) -> exists out, normalizeSingleTime input = Ok out.
Proof.
  intros V. destruct (normalizeSingleTime input) as [out|e] eqn:E; [eauto|].
  apply normalizeSingleTime_throw in E. tauto.
Qed.

(** *** Canonical strings are fixed points *)

Lemma canonical_time_fixed s :
  canonical_time s -> trim s = s /\ normalizeSingleTime s = Ok s.
Proof.
  intros (h1 & h2 & m1 & m2 & -> & D & Nh & Nm).
  unfold all_digits in D. simpl in D.
  repeat (apply andb_true_iff in D; destruct D as [? D]).
  assert (T : trim [h1; h2; ":"; m1; m2] = [h1; h2; ":"; m1; m2]).
  { apply (@trim_pad [] [h1; h2; ":"; m1; m2] []); simpl; auto using digit_not_space. }
  split; [exact T|].
  rewrite (@normalizeSingleTime_24 _ [h1; h2] [m1; m2] T).
  - rewrite pad2_two by assumption. reflexivity.
  - split; [right; reflexivity|]. split; [|exact Nh].
    unfold all_digits. simpl. rewrite H, H0. reflexivity.
  - split; [reflexivity|]. split; [|exact Nm].
    unfold all_digits. simpl. rewrite H1, H2. reflexivity.
Qed.

Lemma split_no_sep sep s :
  forallb (fun c => negb (ascii_eqb c sep)) s = true -> split sep s = [s].
Proof.
  induction s as [|c t IH]; simpl; [reflexivity|]. intros H.
  apply andb_true_iff in H. destruct H as [Hc Ht].
  apply negb_true_iff in Hc. rewrite Hc, (IH Ht). reflexivity.
Qed.

Lemma split_app sep a b :
  forallb (fun c => negb (ascii_eqb c sep)) a = true ->
  split sep (a ++ sep :: b) = a :: split sep b.
Proof.
  induction a as [|c t IH]; simpl.
  - intros _. rewrite ascii_eqb_refl. reflexivity.
  - intros H. apply andb_true_iff in H. destruct H as [Hc Ht].
    apply negb_true_iff in Hc. rewrite Hc, (IH Ht). reflexivity.
Qed.

Lemma time_parts_one p :
  no_hyphen p = true -> trim p <> [] -> time_parts p = [trim p].
Proof.
  intros H N. unfold time_parts. rewrite (split_no_sep _ _ H). simpl.
  destruct (trim p); [congruence | reflexivity].
Qed.

Lemma time_parts_two p q :
  no_hyphen p = true -> no_hyphen q = true -> trim p <> [] -> trim q <> [] ->
  time_parts (p ++ "-" :: q) = [trim p; trim q].
Proof.
  intros Hp Hq Np Nq. unfold time_parts.
  rewrite (split_app _ _ _ Hp), (split_no_sep _ _ Hq). simpl.
  destruct (trim p); [congruence|]. destruct (trim q); [congruence|].
  reflexivity.
Qed.

Lemma canonical_time_no_hyphen s : canonical_time s -> no_hyphen s = true.
Proof.
  intros (h1 & h2 & m1 & m2 & -> & D & _).
  unfold all_digits in D. simpl in D.
  repeat (apply andb_true_iff in D; destruct D as [? D]).
  unfold no_hyphen. simpl. rewrite !digit_not_hyph by assumption. reflexivity.
Qed.

Lemma canonical_time_nonempty s : canonical_time s -> s <> [].
Proof. intros (h1 & h2 & m1 & m2 & -> & _). discriminate. Qed.

Lemma canonical_fixed s : canonical s -> normalizeTime s = Ok s.
Proof.
  intros [C | (a & b & Ca & Cb & ->)].
  - destruct (canonical_time_fixed C) as [T R]. unfold normalizeTime.
    rewrite time_parts_one, T.
    + exact R.
    + apply canonical_time_no_hyphen, C.
    + rewrite T. apply canonical_time_nonempty, C.
  - destruct (canonical_time_fixed Ca) as [Ta Ra].
    destruct (canonical_time_fixed Cb) as [Tb Rb]. unfold normalizeTime.
    rewrite time_parts_two, Ta, Tb.
    + rewrite Ra, Rb. reflexivity.
    + apply canonical_time_no_hyphen, Ca.
    + apply canonical_time_no_hyphen, Cb.
    + rewrite Ta. apply canonical_time_nonempty, Ca.
    + rewrite Tb. apply canonical_time_nonempty, Cb.
Qed.

Lemma normalizeTime_ok input out :
  normalizeTime input = Ok out -> canonical out.
Proof.
  unfold normalizeTime. destruct (time_parts input) as [|p [|q [|r l]]];
    try discriminate.
  - intros H. left. apply (normalizeSingleTime_ok _ H).
  - destruct (normalizeSingleTime p) as [a|] eqn:A; [|discriminate].
    destruct (normalizeSingleTime q) as [b|] eqn:B; [|discriminate].
    simpl. intros H. inversion H; subst. right. exists a, b.
    split; [apply (normalizeSingleTime_ok _ A)|].
    split; [apply (normalizeSingleTime_ok _ B) | reflexivity].
Qed.

Lemma time_parts_trimmed input p : In p (time_parts input) -> trim p = p.
Proof.
  unfold time_parts. intros H. apply filter_In in H. destruct H as [H _].
  apply in_map_iff in H. destruct H as (x & <- & _). apply trim_idem.
Qed.

Lemma valid_token_nonempty t : valid_token t -> t <> [].
Proof.
  intros [(h & m & -> & (L & _) & _) | (h & m & ws & x & -> & (L & _) & _)];
    destruct h; simpl in *; try discriminate; destruct L; discriminate.
Qed.

(** *** Tokens contain no hyphen *)

Lemma space_not_hyph c : is_space c = true -> hyph c = false.
Proof. all_chars c; vm_compute; intros H; first [reflexivity | discriminate]. Qed.

Lemma no_hyphen_app a b : no_hyphen (a ++ b) = no_hyphen a && no_hyphen b.
Proof. apply forallb_app. Qed.

Lemma no_hyphen_digits s : all_digits s = true -> no_hyphen s = true.
Proof.
  unfold all_digits, no_hyphen. induction s as [|c t IH]; simpl; [reflexivity|].
  intros H. apply andb_true_iff in H. destruct H as [Hc Ht].
  rewrite (digit_not_hyph _ Hc), (IH Ht). reflexivity.
Qed.

Lemma no_hyphen_space s : all_space s = true -> no_hyphen s = true.
Proof.
  unfold all_space, no_hyphen. induction s as [|c t IH]; simpl; [reflexivity|].
  intros H. apply andb_true_iff in H. destruct H as [Hc Ht].
  rewrite (space_not_hyph _ Hc), (IH Ht). reflexivity.
Qed.

Lemma no_hyphen_meridiem x : meridiem_text x -> no_hyphen x = true.
Proof.
  intros (a & b & -> & Ha & Hb).
  destruct Ha as [-> | [-> | [-> | ->]]], Hb as [-> | ->]; reflexivity.
Qed.

Lemma valid_token_no_hyphen t : valid_token t -> no_hyphen t = true.
Proof.
  intros [(h & m & -> & (_ & Dh & _) & (_ & Dm & _))
         |(h & m & ws & x & -> & (_ & Dh & _) & (_ & Dm & _) & Hws & Hx)].
  - rewrite no_hyphen_app. change (":" :: m) with ([":"] ++ m).
    rewrite no_hyphen_app, (no_hyphen_digits _ Dh), (no_hyphen_digits _ Dm).
    reflexivity.
  - rewrite no_hyphen_app. change (":" :: m ++ ws ++ x) with ([":"] ++ m ++ ws ++ x).
    rewrite !no_hyphen_app, (no_hyphen_digits _ Dh), (no_hyphen_digits _ Dm).
    rewrite (no_hyphen_space _ Hws), (no_hyphen_meridiem Hx). reflexivity.
Qed.

Lemma normalizeSingleTime_no_hyphen p a :
  normalizeSingleTime p = Ok a -> no_hyphen p = true /\ trim p <> [].
Proof.
  intros H. apply normalizeSingleTime_ok in H. destruct H as [V _].
  split; [|apply valid_token_nonempty, V].
  destruct (trim_decomp p) as (lead & trail & E & Hl & Ht & _).
  rewrite E, !no_hyphen_app, (valid_token_no_hyphen V).
  rewrite (no_hyphen_space _ Hl), (no_hyphen_space _ Ht). reflexivity.
Qed.

Lemma normalizeSingleTime_trim p a :
  normalizeSingleTime p = Ok a -> normalizeSingleTime (trim p) = Ok a.
Proof.
  unfold normalizeSingleTime. rewrite trim_idem.
  destruct (exec RE_HHMM (trim p)); [auto|].
  destruct (exec RE_AMPM (trim p)); [auto | discriminate].
Qed.

Lemma normalizeTime_single p a :
  normalizeSingleTime p = Ok a -> normalizeTime p = Ok a.
Proof.
  intros H. destruct (normalizeSingleTime_no_hyphen _ H) as [Hp Np].
  unfold normalizeTime. rewrite (time_parts_one _ Hp Np).
  apply normalizeSingleTime_trim, H.
Qed.

Lemma normalizeTime_range p q a b :
  normalizeSingleTime p = Ok a -> normalizeSingleTime q = Ok b ->
  normalizeTime (p ++ "-" :: q) = Ok (a ++ "-" :: b).
Proof.
  intros Ha Hb.
  destruct (normalizeSingleTime_no_hyphen _ Ha) as [Hp Np].
  destruct (normalizeSingleTime_no_hyphen _ Hb) as [Hq Nq].
  unfold normalizeTime. rewrite (time_parts_two _ _ Hp Hq Np Nq).
  rewrite (normalizeSingleTime_trim _ Ha), (normalizeSingleTime_trim _ Hb).
  reflexivity.
Qed.

(** C2.  A valid 12-hour token (hour 1..12 in one or two digits, a colon,
    two digits of minutes 00..59, optional white space, AM or PM in any
    case), possibly surrounded by white space, is converted to zero-padded
    24-hour form by the rule 12 AM -> 00, 12 PM -> 12, other AM hours
    unchanged, other PM hours plus 12. *)
Theorem normalizeSingleTime_12h (lead trail h mi ws x : jsstring) :
  all_space lead = true -> all_space trail = true ->
  hour12_text h -> minute_text mi -> all_space ws = true -> meridiem_text x ->
  normalizeSingleTime (lead ++ (h ++ ":" :: mi ++ ws ++ x) ++ trail) =
    Ok (pad2 (hour_rule (Number h) (is_pm x)) ++ ":" :: mi) /\
  canonical_time (pad2 (hour_rule (Number h) (is_pm x)) ++ ":" :: mi) /\
  (hour_rule 12 false = 0 /\ hour_rule 12 true = 12 /\
   forall n, n <> 12 -> hour_rule n false = n /\ hour_rule n true = n + 12) /\
  normalizeSingleTime (str "2:30 PM") = Ok (str "14:30") /\
  normalizeSingleTime (str "12:00 AM") = Ok (str "00:00") /\
  normalizeSingleTime (str "12:00 PM") = Ok (str "12:00").
Proof.
  intros Hl Ht Hh Hm Hws Hx.
  split; [|split; [apply canonical_12; assumption|split;
    [|repeat split; reflexivity]]].
  - apply (@normalizeSingleTime_12 _ h mi ws x); try assumption.
    apply trim_pad; try assumption.
    + destruct Hh as (L & D & _). destruct h as [|c t].
      * destruct L; discriminate.
      * unfold all_digits in D. simpl in D. apply andb_true_iff in D.
        simpl. apply digit_not_space. tauto.
    + destruct Hx as (a & b & -> & _ & Hb).
      change [a; b] with ([a] ++ [b]). rewrite !app_comm_cons, !app_assoc.
      rewrite rev_app_distr. simpl. destruct Hb as [-> | ->]; reflexivity.
  - split; [reflexivity|]. split; [reflexivity|]. intros n Hn.
    unfold hour_rule. destruct (Nat.eqb_spec n 12); [contradiction|].
    split; reflexivity.
Qed.

Lemma normalizeSingleTime_12h_witness :
  all_space (str " ") = true /\ all_space [] = true /\
  hour12_text (str "7") /\ minute_text (str "05") /\
  all_space [] = true /\ meridiem_text (str "pm") /\
  normalizeSingleTime (str " 7:05pm") = Ok (str "19:05").
Proof.
  assert (Hh : hour12_text (str "7")).
  { split; [left; reflexivity|]. split; [reflexivity|]. vm_compute. lia. }
  assert (Hm : minute_text (str "05")).
  { split; [reflexivity|]. split; [reflexivity|]. vm_compute. lia. }
  assert (Hx : meridiem_text (str "pm")).
  { exists "p", "m". split; [reflexivity|]. split; [tauto | tauto]. }
  repeat (split; [first [reflexivity | assumption]|]).
  exact (proj1 (@normalizeSingleTime_12h (str " ") [] (str "7") (str "05") []
                  (str "pm") eq_refl eq_refl Hh Hm eq_refl Hx)).
Defined.

(** C3.  Whenever [normalizeTime] succeeds the result is [HH:mm] or
    [HH:mm-HH:mm], 24-hour and zero-padded; a single valid token gives its
    normalised form and two valid tokens separated by a hyphen give the two
    normalised forms joined by one hyphen. *)
Theorem normalizeTime_canonical (input out : jsstring) :
  normalizeTime input = Ok out ->
  canonical out /\
  (forall p a, normalizeSingleTime p = Ok a -> normalizeTime p = Ok a) /\
  (forall p q a b,
     normalizeSingleTime p = Ok a -> normalizeSingleTime q = Ok b ->
     normalizeTime (p ++ "-" :: q) = Ok (a ++ "-" :: b)) /\
  normalizeTime (str "10:00 AM - 12:30 PM") = Ok (str "10:00-12:30").
Proof.
  intros H. split; [apply (normalizeTime_ok _ H)|].
  split; [exact normalizeTime_single|].
  split; [exact normalizeTime_range | reflexivity].
Qed.

Lemma normalizeTime_canonical_witness :
  normalizeTime (str "9:05 pm-23:15") = Ok (str "21:05-23:15") /\
  canonical (str "21:05-23:15").
Proof.
  split; [reflexivity|].
  exact (proj1 (@normalizeTime_canonical (str "9:05 pm-23:15")
                  (str "21:05-23:15") eq_refl)).
Defined.

(** *** Failures of [normalizeTime] *)

Lemma names_time_format v : names (err_time_format v) v.
Proof.
  exists (str "Invalid time format: "), (str ". Use HH:mm or h:mm AM/PM.").
  reflexivity.
Qed.

Lemma names_time_range v : names (err_time_range v) v.
Proof. exists (str "Invalid time range: "), (str "."). reflexivity. Qed.

Lemma part_ok input p :
  In p (time_parts input) ->
  (valid_token p <-> exists out, normalizeSingleTime p = Ok out).
Proof.
  intros H. apply time_parts_trimmed in H. split.
  - intros V. apply normalizeSingleTime_valid. rewrite H. exact V.
  - intros (out & E). apply normalizeSingleTime_ok in E.
    rewrite H in E. tauto.
Qed.

Lemma part_throw input p :
  In p (time_parts input) -> ~ valid_token p ->
  normalizeSingleTime p = Throw (err_time_format p).
Proof.
  intros H N. destruct (normalizeSingleTime p) as [out|e] eqn:E.
  - exfalso. apply N. apply (part_ok _ _ H). eauto.
  - apply normalizeSingleTime_throw in E. destruct E as [_ ->]. reflexivity.
Qed.

(** C4.  [normalizeTime] succeeds exactly on one or two valid tokens.  With
    any other number of non-empty tokens it throws the range error, which
    quotes the whole input; with one or two tokens of which one is not a
    valid 24-hour or 12-hour time it throws the format error, which quotes
    that token (the first such token when both are invalid). *)
Theorem normalizeTime_errors (input : jsstring) :
  ((exists out, normalizeTime input = Ok out) <-> well_formed_time input) /\
  (length (time_parts input) <> 1 -> length (time_parts input) <> 2 ->
   normalizeTime input = Throw (err_time_range input) /\
   names (err_time_range input) input) /\
  (forall p, time_parts input = [p] -> ~ valid_token p ->
   normalizeTime input = Throw (err_time_format p) /\
   names (err_time_format p) p) /\
  (forall p q, time_parts input = [p; q] -> ~ valid_token p ->
   normalizeTime input = Throw (err_time_format p) /\
   names (err_time_format p) p) /\
  (forall p q, time_parts input = [p; q] -> valid_token p -> ~ valid_token q ->
   normalizeTime input = Throw (err_time_format q) /\
   names (err_time_format q) q) /\
  normalizeTime (str "25:00") =
    Throw (str "Invalid time format: " ++ dq ++ str "25:00" ++ dq
           ++ str ". Use HH:mm or h:mm AM/PM.").
Proof.
  split; [|split; [|split; [|split; [|split; [|reflexivity]]]]].
  - unfold well_formed_time, normalizeTime.
    destruct (time_parts input) as [|p [|q [|r l]]] eqn:E.
    + split; [intros (out & H); discriminate | tauto].
    + symmetry. apply (@part_ok input). rewrite E. left; reflexivity.
    + assert (Ip : In p (time_parts input)) by (rewrite E; simpl; auto).
      assert (Iq : In q (time_parts input)) by (rewrite E; simpl; auto).
      rewrite (part_ok _ _ Ip), (part_ok _ _ Iq). split.
      * intros (out & H).
        destruct (normalizeSingleTime p) as [a|]; [|discriminate].
        destruct (normalizeSingleTime q) as [b|]; [|discriminate]. eauto.
      * intros [(a & ->) (b & ->)]. simpl. eauto.
    + split; [intros (out & H); discriminate | tauto].
  - intros N1 N2. split; [|apply names_time_range].
    unfold normalizeTime.
    destruct (time_parts input) as [|p [|q [|r l]]]; simpl in *;
      try reflexivity; congruence.
  - intros p E N. split; [|apply names_time_format].
    unfold normalizeTime. rewrite E. apply (@part_throw input); [|exact N].
    rewrite E. left; reflexivity.
  - intros p q E N. split; [|apply names_time_format].
    unfold normalizeTime. rewrite E. rewrite (@part_throw input p); [reflexivity| |exact N].
    rewrite E. left; reflexivity.
  - intros p q E V N. split; [|apply names_time_format].
    unfold normalizeTime. rewrite E.
    assert (Ip : In p (time_parts input)) by (rewrite E; simpl; auto).
    apply (part_ok _ _ Ip) in V. destruct V as (a & ->).
    rewrite (@part_throw input q); [reflexivity| |exact N].
    rewrite E. right; left; reflexivity.
Qed.

Lemma not_valid_25 : ~ valid_token (str "25:00").
Proof.
  intros V. apply (@normalizeSingleTime_valid (str "25:00")) in V.
  destruct V as (out & E). vm_compute in E. discriminate.
Qed.

Lemma normalizeTime_errors_witness :
  time_parts (str "9:00 - 25:00") = [str "9:00"; str "25:00"] /\
  valid_token (str "9:00") /\ ~ valid_token (str "25:00") /\
  normalizeTime (str "9:00 - 25:00") = Throw (err_time_format (str "25:00")).
Proof.
  assert (V : valid_token (str "9:00")).
  { left. exists (str "9"), (str "00"). split; [reflexivity|]. split.
    - split; [left; reflexivity|]. split; [reflexivity|]. vm_compute. lia.
    - split; [reflexivity|]. split; [reflexivity|]. vm_compute. lia. }
  split; [reflexivity|]. split; [exact V|]. split; [exact not_valid_25|].
  exact (proj1 (proj1 (proj2 (proj2 (proj2 (proj2
           (normalizeTime_errors (str "9:00 - 25:00"))))))
           (str "9:00") (str "25:00") eq_refl V not_valid_25)).
Defined.

(** C5.  [normalizeTime] is idempotent: a result of [normalizeTime] is
    returned unchanged by [normalizeTime]. *)
Theorem normalizeTime_idempotent (x y : jsstring) :
  normalizeTime x = Ok y ->
  normalizeTime y = Ok y /\
  bind (normalizeTime x) normalizeTime = normalizeTime x.
Proof.
  intros H. assert (F : normalizeTime y = Ok y).
  { apply canonical_fixed, (normalizeTime_ok _ H). }
  split; [exact F|]. rewrite H. simpl. exact F.
Qed.

Lemma normalizeTime_idempotent_witness :
  normalizeTime (str "10:00 AM - 12:30 PM") = Ok (str "10:00-12:30") /\
  normalizeTime (str "10:00-12:30") = Ok (str "10:00-12:30").
Proof.
  split; [reflexivity|].
  exact (proj1 (@normalizeTime_idempotent (str "10:00 AM - 12:30 PM")
                  (str "10:00-12:30") eq_refl)).
Defined.

(** *** The pre-save hook of the Event model *)

Lemma names_date v : names (err_date v) v.
Proof. exists (str "Invalid date: "), (str "."). reflexivity. Qed.

Lemma err_date_not_time_format v p : err_time_format p <> err_date v.
Proof. intros H. apply (f_equal (fun s => nth 8 s " ")) in H. discriminate. Qed.

Lemma err_date_not_time_range v p : err_time_range p <> err_date v.
Proof. intros H. apply (f_equal (fun s => nth 8 s " ")) in H. discriminate. Qed.

Lemma normalizeTime_throw input e :
  normalizeTime input = Throw e ->
  (exists p, e = err_time_format p) \/ e = err_time_range input.
Proof.
  unfold normalizeTime. destruct (time_parts input) as [|p [|q [|r l]]];
    try (intros H; inversion H; right; reflexivity).
  - intros H. apply normalizeSingleTime_throw in H. destruct H as [_ ->].
    left; eauto.
  - destruct (normalizeSingleTime p) as [a|e1] eqn:A; simpl.
    + destruct (normalizeSingleTime q) as [b|e2] eqn:B; simpl; [discriminate|].
      intros H; inversion H; subst.
      apply normalizeSingleTime_throw in B. destruct B as [_ ->]. left; eauto.
    + intros H; inversion H; subst.
      apply normalizeSingleTime_throw in A. destruct A as [_ ->]. left; eauto.
Qed.

Lemma check_fields_throw fs doc e v :
  check_fields fs doc = Throw e -> e <> err_date v.
Proof.
  induction fs as [|f rest IH]; simpl; [discriminate|].
  destruct (blank (get f doc)); [|exact IH].
  intros H; inversion H; subst. intros E.
  apply (f_equal (fun s => nth 0 s " ")) in E. discriminate.
Qed.

Lemma check_items_throw msg items e :
  check_items msg items = Throw e -> e = msg.
Proof.
  induction items as [|i rest IH]; simpl; [discriminate|].
  destruct (blank i); [|exact IH]. intros H; inversion H; reflexivity.
Qed.

Section PreSaveFacts.

Variable TimeValue : Type.
Variable Date_parse : jsstring -> option TimeValue.
Variable toISOString : TimeValue -> jsstring.

Lemma preSave_date_step isModified doc :
  date (if isModified Ftitle : bool
        then set_slug doc (slugifyTitle (title doc)) else doc) = date doc.
Proof. destruct (isModified Ftitle); reflexivity. Qed.

Lemma preSave_unparseable isModified doc :
  Date_parse (date doc) = None ->
  preSave Date_parse toISOString isModified doc = Throw (err_date (date doc)).
Proof.
  intros H. unfold preSave. rewrite preSave_date_step, H. reflexivity.
Qed.

Lemma preSave_parsed isModified doc t :
  Date_parse (date doc) = Some t ->
  (forall doc', preSave Date_parse toISOString isModified doc = Ok doc' -> date doc' = toISOString t) /\
  preSave Date_parse toISOString isModified doc <> Throw (err_date (date doc)).
Proof.
  intros H. unfold preSave. rewrite preSave_date_step, H.
  set (d1 := if isModified Ftitle then _ else doc).
  cbn [time set_date]. destruct (normalizeTime (time d1)) as [tm|e] eqn:T.
  - cbn [bind].
    destruct (check_fields _ _) as [[]|e1] eqn:C1; cbn [bind].
    + destruct (check_items _ (agenda _)) as [[]|e2] eqn:C2; cbn [bind].
      * destruct (check_items _ (tags _)) as [[]|e3] eqn:C3; cbn [bind].
        -- split; [|discriminate]. intros doc' E; inversion E; reflexivity.
        -- split; [discriminate|]. apply check_items_throw in C3. subst.
           intros E; inversion E.
      * split; [discriminate|]. apply check_items_throw in C2. subst.
        intros E; inversion E.
    + split; [discriminate|]. intros E; inversion E; subst.
      apply (@check_fields_throw _ _ _ (date doc)) in C1. congruence.
  - cbn [bind]. split; [discriminate|]. intros E; inversion E; subst.
    apply normalizeTime_throw in T. destruct T as [(p & T) | T].
    + apply (@err_date_not_time_format (date doc) p). congruence.
    + apply (@err_date_not_time_range (date doc) (time d1)). congruence.
Qed.

Lemma check_fields_ok fs doc :
  (forall f, In f fs -> blank (get f doc) = false) ->
  check_fields fs doc = Ok tt.
Proof.
  induction fs as [|f rest IH]; intros H; [reflexivity|].
  simpl. rewrite (H f (or_introl eq_refl)). apply IH.
  intros g Hg. apply H. right; exact Hg.
Qed.

Lemma check_items_ok msg items :
  existsb blank items = false -> check_items msg items = Ok tt.
Proof.
  induction items as [|i rest IH]; [reflexivity|]. simpl.
  intros H. apply orb_false_iff in H. destruct H as [-> H]. apply IH, H.
Qed.

Lemma canonical_time_not_blank s : canonical_time s -> blank s = false.
Proof.
  intros C. unfold blank. rewrite (proj1 (canonical_time_fixed C)).
  destruct C as (h1 & h2 & m1 & m2 & -> & _). reflexivity.
Qed.

Lemma canonical_not_blank s : canonical s -> blank s = false.
Proof.
  intros [C | (a & b & Ca & Cb & ->)]; [apply canonical_time_not_blank, C|].
  unfold blank.
  destruct Ca as (h1 & h2 & m1 & m2 & -> & Da & _).
  destruct Cb as (k1 & k2 & n1 & n2 & -> & Db & _).
  unfold all_digits in Da, Db. simpl in Da, Db.
  repeat (apply andb_true_iff in Da; destruct Da as [? Da]).
  repeat (apply andb_true_iff in Db; destruct Db as [? Db]).
  set (x := [h1; h2; ":"; m1; m2] ++ "-" :: [k1; k2; ":"; n1; n2]).
  assert (E : trim x = x).
  { apply (@trim_pad [] x []); simpl; auto using digit_not_space. }
  rewrite E. reflexivity.
Qed.

(** A document whose date parses and whose other paths are in order is let
    through, with the three paths set. *)
Lemma preSave_lets_through (isModified : field -> bool) doc t tm :
  Date_parse (date doc) = Some t ->
  blank (toISOString t) = false ->
  normalizeTime (time doc) = Ok tm ->
  (forall f, In f requiredStringFields -> f <> Fdate -> f <> Ftime ->
     blank (get f doc) = false) ->
  existsb blank (agenda doc) = false ->
  existsb blank (tags doc) = false ->
  preSave Date_parse toISOString isModified doc =
  Ok (set_time
        (set_date (if isModified Ftitle
                   then set_slug doc (slugifyTitle (title doc))
                   else doc) (toISOString t)) tm).
Proof.
  intros D B T F A G. unfold preSave. rewrite preSave_date_step, D.
  assert (T1 : time (if isModified Ftitle
                     then set_slug doc (slugifyTitle (title doc))
                     else doc) = time doc).
  { destruct (isModified Ftitle); reflexivity. }
  cbn [time set_date]. rewrite T1, T. cbn [bind]. rewrite check_fields_ok.
  - cbn [bind].
    rewrite check_items_ok by (destruct (isModified Ftitle); exact A).
    cbn [bind].
    rewrite check_items_ok by (destruct (isModified Ftitle); exact G).
    reflexivity.
  - intros f Hf.
    assert (Ns : f <> Fslug).
    { intros ->. simpl in Hf.
      repeat (destruct Hf as [Hf | Hf]; [discriminate|]). exact Hf. }
    pose proof (F f Hf) as Hb.
    destruct (isModified Ftitle), f;
      cbn [get set_time set_date set_slug title description overview image
           venue location date time mode audience organizer] in *;
      try (apply Hb; discriminate); try exact B;
      try (apply canonical_not_blank, (normalizeTime_ok _ T));
      congruence.
Qed.

(** C6.  The date step of the Event pre-save hook fails exactly on
    unparseable input.  When the host's date parser rejects the date field
    the hook, and with it the save, throws the error that quotes the
    field's value.  When the parser accepts it the hook never throws that
    error; a document whose other paths are in order (a time that
    normalises, no blank required string, agenda item or tag) is let
    through, by the hook and by the save of a document that passes the
    schema; and every document let through carries the ISO-8601 rendering
    of the parsed date in place of its date. *)
Theorem preSave_date (isModified : field -> bool) (doc : Event) :
  (Date_parse (date doc) = None ->
     preSave Date_parse toISOString isModified doc = Throw (err_date (date doc)) /\
     names (err_date (date doc)) (date doc) /\
     forall doc', saveEvent Date_parse toISOString isModified doc <> Ok doc') /\
  (forall t, Date_parse (date doc) = Some t ->
     forall doc',
       preSave Date_parse toISOString isModified doc = Ok doc' \/
       saveEvent Date_parse toISOString isModified doc = Ok doc' ->
       date doc' = toISOString t) /\
  (preSave Date_parse toISOString isModified doc = Throw (err_date (date doc)) <->
   Date_parse (date doc) = None) /\
  (forall t tm,
     Date_parse (date doc) = Some t ->
     blank (toISOString t) = false ->
     normalizeTime (time doc) = Ok tm ->
     (forall f, In f requiredStringFields -> f <> Fdate -> f <> Ftime ->
        blank (get f doc) = false) ->
     existsb blank (agenda doc) = false ->
     existsb blank (tags doc) = false ->
     exists doc',
       preSave Date_parse toISOString isModified doc = Ok doc' /\
       date doc' = toISOString t /\
       (validate doc = Ok tt ->
        saveEvent Date_parse toISOString isModified doc = Ok doc')).
Proof.
  split; [|split; [|split]].
  - intros H. split; [apply preSave_unparseable, H|].
    split; [apply names_date|]. intros doc'. unfold saveEvent.
    destruct (validate doc); cbn [bind]; [|discriminate].
    rewrite (preSave_unparseable _ _ H). discriminate.
  - intros t H doc' [E | E].
    + apply (proj1 (preSave_parsed isModified doc H) _ E).
    + unfold saveEvent in E. destruct (validate doc); [|discriminate].
      apply (proj1 (preSave_parsed isModified doc H) _ E).
  - split; [|apply preSave_unparseable].
    destruct (Date_parse (date doc)) as [t|] eqn:H; [|reflexivity].
    intros E. exfalso. apply (proj2 (preSave_parsed isModified doc H) E).
  - intros t tm D B T F A G.
    pose proof (preSave_lets_through isModified doc D B T F A G) as P.
    eexists. split; [exact P|]. split; [reflexivity|].
    intros V. unfold saveEvent. rewrite V. exact P.
Qed.

(** C10.  The slug is exempt from the non-emptiness rules: the schema
    does not require it and the pre-save loop does not check it.  So the
    save of an Event whose title holds no character of [a-z0-9] after
    lower-casing (the title itself not being blank, like "!!!"), every
    other field being valid, succeeds, and the document handed to the
    storage layer has the empty string as its slug. *)
Theorem slug_may_be_empty (isModified : field -> bool) (doc : Event) :
  fields_valid Date_parse toISOString doc ->
  isModified Ftitle = true ->
  (forall c, In c (toLowerCase (title doc)) -> lower_alnum c = false) ->
  opt_required (EventSchema Fslug) = false /\
  ~ In Fslug requiredStringFields /\
  exists doc',
    saveEvent Date_parse toISOString isModified doc = Ok doc' /\
    slug doc' = [] /\ title doc' = title doc.
Proof.
  intros (V & (t & D & B) & (tm & T) & F & A & G) M N.
  split; [reflexivity|]. split.
  { simpl. intros H. repeat (destruct H as [H | H]; [discriminate|]). exact H. }
  unfold saveEvent. rewrite V. cbn [bind]. unfold preSave. rewrite M.
  cbn [date set_slug]. rewrite D. cbn [time set_date set_slug]. rewrite T.
  cbn [bind]. rewrite check_fields_ok.
  - cbn [bind agenda tags set_time]. rewrite (check_items_ok _ _ A).
    cbn [bind]. rewrite (check_items_ok _ _ G). cbn [bind].
    eexists. split; [reflexivity|]. cbn [slug title]. split; [|reflexivity].
    apply slugifyTitle_empty, N.
  - intros f Hf. pose proof (F f Hf) as Hb.
    destruct f; cbn [get set_time set_date set_slug]; try exact Hb.
    + exfalso. simpl in Hf.
      repeat (destruct Hf as [Hf | Hf]; [discriminate|]). exact Hf.
    + exact B.
    + apply canonical_not_blank, (normalizeTime_ok _ T).
Qed.

End PreSaveFacts.

Lemma preSave_date_witness :
  (SampleHost.Date_parse (date (set_date SampleHost.sample_event (str "soon")))
     = None /\
   preSave SampleHost.Date_parse SampleHost.toISOString (fun _ => true)
     (set_date SampleHost.sample_event (str "soon"))
   = Throw (str "Invalid date: " ++ dq ++ str "soon" ++ dq ++ str ".")) /\
  (SampleHost.Date_parse (date SampleHost.sample_event)
     = Some 1768435200000%Z /\
   exists doc',
     preSave SampleHost.Date_parse SampleHost.toISOString (fun _ => true)
       SampleHost.sample_event = Ok doc' /\
     date doc' = str "2026-01-15T00:00:00.000Z" /\
     (validate SampleHost.sample_event = Ok tt ->
      saveEvent SampleHost.Date_parse SampleHost.toISOString (fun _ => true)
        SampleHost.sample_event = Ok doc')).
Proof.
  split.
  - split; [reflexivity|].
    exact (proj1 (proj1 (@preSave_date _ SampleHost.Date_parse
                           SampleHost.toISOString (fun _ => true)
                           (set_date SampleHost.sample_event (str "soon")))
                    eq_refl)).
  - split; [reflexivity|].
    apply (proj2 (proj2 (proj2 (@preSave_date _ SampleHost.Date_parse
                                  SampleHost.toISOString (fun _ => true)
                                  SampleHost.sample_event)))
             1768435200000%Z (str "10:00-12:30")); try reflexivity.
    intros f Hf _ _. simpl in Hf.
    repeat (destruct Hf as [<- | Hf]; [reflexivity|]). destruct Hf.
Defined.

Lemma sample_fields_valid :
  fields_valid SampleHost.Date_parse SampleHost.toISOString
    SampleHost.sample_event.
Proof.
  split; [reflexivity|]. split; [exists 1768435200000%Z; split; reflexivity|].
  split; [exists (str "10:00-12:30"); reflexivity|].
  split; [|split; reflexivity].
  intros f Hf. simpl in Hf.
  repeat (destruct Hf as [<- | Hf]; [reflexivity|]). destruct Hf.
Qed.

Lemma slug_may_be_empty_witness :
  fields_valid SampleHost.Date_parse SampleHost.toISOString
    SampleHost.sample_event /\
  (forall c, In c (toLowerCase (title SampleHost.sample_event)) ->
             lower_alnum c = false) /\
  exists doc',
    saveEvent SampleHost.Date_parse SampleHost.toISOString (fun _ => true)
      SampleHost.sample_event = Ok doc' /\
    slug doc' = [] /\ title doc' = str "!!!".
Proof.
  assert (N : forall c, In c (toLowerCase (title SampleHost.sample_event)) ->
                        lower_alnum c = false).
  { intros c Hc. simpl in Hc.
    repeat (destruct Hc as [<- | Hc]; [reflexivity|]). destruct Hc. }
  split; [exact sample_fields_valid|]. split; [exact N|].
  exact (proj2 (proj2 (@slug_may_be_empty _ SampleHost.Date_parse
                         SampleHost.toISOString (fun _ => true)
                         SampleHost.sample_event sample_fields_valid
                         eq_refl N))).
Defined.

(** ** The Booking model *)

Import BookingModel EmailSpec.

(** *** The e-mail expression *)

Lemma regexp_test_true r s : regexp_test r s = true <-> exec r s <> None.
Proof.
  unfold regexp_test. destruct (exec r s); split; congruence.
Qed.

Lemma plus_steps p c u pos rest caps :
  p c = true -> forallb p u = true ->
  steps (Plus (Cls p)) (MState pos (c :: u ++ rest) caps)
        (MState (S pos + length u) rest caps).
Proof.
  intros Hc Hu. unfold Plus.
  eapply st_seq; [apply steps_cls, Hc | apply steps_star_run, Hu].
Qed.

Lemma email_regex_shape s :
  regexp_test EMAIL_REGEX s = true <-> shape_of_code s.
Proof.
  rewrite regexp_test_true. split.
  - destruct (exec EMAIL_REGEX s) as [m|] eqn:E; [intros _ | congruence].
    unfold EMAIL_REGEX in E. apply exec_bol_steps in E.
    destruct E as (s' & S' & ->). unfold Plus, Chr in S'. steps_inv.
    cbn in *. subst.
    repeat match goal with
           | H : cls_char _ _ = true |- _ => apply cls_char_iff in H; subst
           end.
    match goal with
    | |- shape_of_code (?a :: ?u ++ "@" :: ?b :: ?v ++ "." :: ?c :: ?w ++ []) =>
        exists (a :: u), (b :: v), (c :: w)
    end.
    rewrite app_nil_r. simpl.
    repeat match goal with H : _ = true |- _ => rewrite H; clear H end.
    repeat split; discriminate.
  - intros (l & d & t & -> & Nl & Nd & Nt & Hl & Hd & Ht).
    destruct l as [|a u]; [congruence|]. destruct d as [|b v]; [congruence|].
    destruct t as [|c w]; [congruence|]. simpl in Hl, Hd, Ht.
    apply andb_true_iff in Hl, Hd, Ht.
    destruct Hl as [Ha Hu], Hd as [Hb Hv], Ht as [Hc Hw].
    cbn [app]. rewrite <- (app_nil_r w).
    unfold EMAIL_REGEX. rewrite exec_bol.
    eapply rmatch_complete; [|discriminate].
    apply st_group. eapply st_seq; [apply st_bol; reflexivity|].
    eapply st_seq; [apply (@plus_steps _ _ _ _ _ _ Ha Hu)|].
    eapply st_seq; [apply steps_chr|].
    eapply st_seq; [apply (@plus_steps _ _ _ _ _ _ Hb Hv)|].
    eapply st_seq; [apply steps_chr|].
    eapply st_seq; [apply (@plus_steps _ _ _ _ _ _ Hc Hw)|].
    apply st_eol. reflexivity.
Qed.

(** The two setters of the [email] path commute: the order in which the
    framework applies them is immaterial. *)
Lemma is_space_lower c : is_space (lower_char c) = is_space c.
Proof. all_chars c; reflexivity. Qed.

Lemma trimStart_lower s :
  trimStart (toLowerCase s) = toLowerCase (trimStart s).
Proof.
  induction s as [|c t IH]; [reflexivity|]. simpl.
  rewrite is_space_lower. destruct (is_space c); [exact IH | reflexivity].
Qed.

Lemma rev_lower s : rev (toLowerCase s) = toLowerCase (rev s).
Proof. unfold toLowerCase. symmetry. apply map_rev. Qed.

Lemma trim_lower s : trim (toLowerCase s) = toLowerCase (trim s).
Proof.
  unfold trim, trimEnd.
  rewrite trimStart_lower, rev_lower, trimStart_lower, rev_lower.
  reflexivity.
Qed.

Lemma email_validator_shape raw :
  email_validator (email_setters raw) = true <->
  shape_of_code (email_setters raw).
Proof. apply email_regex_shape. Qed.

Lemma shape_nonempty s : shape_of_code s -> s <> [].
Proof.
  intros (l & d & t & -> & Nl & _). destruct l; [congruence | discriminate].
Qed.

(** C7 as amended.  Booking e-mail validation accepts exactly the strings
    that, trimmed and lower-cased, are one or more characters that are
    neither white space nor [@], then [@], then one or more such
    characters, then a dot, then one or more such characters again; any
    other string yields a validation error. *)
Theorem validate_email_spec (raw : jsstring) :
  (validate_email raw = Ok (email_setters raw) <->
   shape_of_code (email_setters raw)) /\
  (~ shape_of_code (email_setters raw) ->
   exists msg, validate_email raw = Throw msg).
Proof.
  unfold validate_email. pose proof (email_validator_shape raw) as V.
  destruct (length (email_setters raw) =? 0) eqn:L.
  - apply Nat.eqb_eq in L. split.
    + split; [discriminate|]. intros S. apply shape_nonempty in S.
      destruct (email_setters raw); [congruence | discriminate].
    + eauto.
  - destruct (email_validator (email_setters raw)).
    + split; [tauto|]. intros N. exfalso. tauto.
    + split; [|eauto]. split; [discriminate|].
      intros S. apply V in S. discriminate.
Qed.

Lemma validate_email_spec_witness :
  ~ shape_of_code (email_setters (str "a@b.c@d")) /\
  exists msg, validate_email (str "a@b.c@d") = Throw msg.
Proof.
  assert (N : ~ shape_of_code (email_setters (str "a@b.c@d"))).
  { intros S. apply email_validator_shape in S. discriminate. }
  split; [exact N|].
  exact (proj2 (validate_email_spec (str "a@b.c@d")) N).
Defined.

(** C7 as stated fails: [a@b.c@d] has the shape of the specification, whose
    last part may hold any character but white space, and the Booking model
    rejects it. *)
Lemma validate_email_counterexample :
  ~ (validate_email (str "a@b.c@d") = Ok (email_setters (str "a@b.c@d")) <->
     shape_of_spec (email_setters (str "a@b.c@d"))).
Proof.
  intros [_ H].
  assert (S : shape_of_spec (email_setters (str "a@b.c@d"))).
  { exists (str "a"), (str "b"), (str "c@d"). repeat split; discriminate. }
  apply H in S. discriminate.
Qed.

(** *** The referential check of the Booking model *)

Lemma preSave_skipped doc st :
  isModified doc PeventId = false -> preSave doc st = (Ok tt, st).
Proof. intros H. unfold preSave. rewrite H. reflexivity. Qed.

Lemma preSave_checked doc st :
  isModified doc PeventId = true ->
  preSave doc st =
  (if existsb (Nat.eqb (eventId (fields doc))) (events st)
   then Ok tt else Throw err_reference,
   logged (eventId (fields doc)) st).
Proof.
  intros H. unfold preSave, bindDB, Event_exists. rewrite H. cbn [negb].
  destruct (existsb _ _); reflexivity.
Qed.

Lemma validate_store doc st : snd (validate doc st) = st.
Proof.
  unfold validate. destruct (_ =? 0); [reflexivity|].
  destruct (email_validator _); reflexivity.
Qed.

(** C8.  The referential check of the Booking pre-save hook runs exactly
    when [eventId] is modified, which is always the case for a new
    document: it issues one existence query on the Event collection for the
    document's [eventId]; when no such event exists the hook throws
    "Referenced event does not exist." and the save stores no booking.
    When [eventId] is not modified the hook issues no query and lets the
    save proceed. *)
Theorem preSave_reference (doc : BookingDocument) (st : Store) :
  (isModified doc PeventId = false -> preSave doc st = (Ok tt, st)) /\
  (isModified doc PeventId = true ->
     exists_log (snd (preSave doc st)) = eventId (fields doc) :: exists_log st /\
     (In (eventId (fields doc)) (events st) ->
        fst (preSave doc st) = Ok tt) /\
     (~ In (eventId (fields doc)) (events st) ->
        fst (preSave doc st) = Throw err_reference /\
        (exists msg, fst (save doc st) = Throw msg) /\
        bookings (snd (save doc st)) = bookings st /\
        (fst (validate doc st) = Ok tt ->
         fst (save doc st) = Throw err_reference))) /\
  (forall id e m, isModified (newBooking id e m) PeventId = true).
Proof.
  split; [apply preSave_skipped|]. split; [|reflexivity].
  intros M. rewrite (preSave_checked _ _ M). cbn [fst snd].
  split; [reflexivity|].
  destruct (existsb _ _) eqn:X.
  - split; [reflexivity|]. intros N. exfalso. apply N.
    apply existsb_exists in X. destruct X as (x & Hx & E).
    apply Nat.eqb_eq in E. subst. exact Hx.
  - split.
    + intros I. exfalso.
      assert (Y : existsb (Nat.eqb (eventId (fields doc))) (events st) = true).
      { apply existsb_exists. exists (eventId (fields doc)).
        split; [exact I | apply Nat.eqb_refl]. }
      congruence.
    + intros _. split; [reflexivity|].
      unfold save, bindDB. pose proof (validate_store doc st) as VS.
      destruct (validate doc st) as [[[]|e] st1]; cbn [fst snd] in *; subst st1.
      * rewrite (preSave_checked _ _ M), X. cbn [fst snd logged bookings].
        split; [eauto|]. split; reflexivity.
      * split; [eauto|]. split; [reflexivity | discriminate].
Qed.

Lemma preSave_reference_witness :
  isModified SampleStore.booking PeventId = true /\
  ~ In 42 (events SampleStore.store) /\
  fst (save SampleStore.booking SampleStore.store) = Throw err_reference /\
  bookings (snd (save SampleStore.booking SampleStore.store)) = [].
Proof.
  assert (N : ~ In (eventId (fields SampleStore.booking))
                   (events SampleStore.store)).
  { simpl. intros [H | [H | []]]; discriminate. }
  split; [reflexivity|]. split; [exact N|].
  pose proof (proj2 (proj2 (proj2 (proj1 (proj2
    (preSave_reference SampleStore.booking SampleStore.store)) eq_refl)) N))
    as (_ & B & S).
  split; [exact (S eq_refl) | exact B].
Defined.

(** ** The connection manager *)

Import ConnectionManager Schedule.

Lemma nth_error_update_same (A : Type) (l : list A) i x :
  i < length l -> nth_error (update i x l) i = Some x.
Proof.
  revert i. induction l as [|a t IH]; intros [|i] H; simpl in *; try lia.
  - reflexivity.
  - apply IH. lia.
Qed.

Lemma nth_error_update_other (A : Type) (l : list A) i j x :
  i <> j -> nth_error (update i x l) j = nth_error l j.
Proof.
  revert i j. induction l as [|a t IH]; intros [|i] [|j] H; simpl;
    try reflexivity; try congruence.
  apply IH. congruence.
Qed.

Lemma length_update (A : Type) (l : list A) i x :
  length (update i x l) = length l.
Proof.
  revert i. induction l as [|a t IH]; intros [|i]; simpl; auto.
Qed.

Lemma nth_error_lt (A : Type) (l : list A) i x :
  nth_error l i = Some x -> i < length l.
Proof. intros H. apply nth_error_Some. congruence. Qed.

Lemma invariant_start : invariant start.
Proof.
  constructor; simpl; auto; try discriminate.
  intros [|i]; exact I.
Qed.

Lemma nth_error_snoc (A : Type) (l : list A) x i :
  nth_error (l ++ [x]) i =
  if i <? length l then nth_error l i
  else if i =? length l then Some x else None.
Proof.
  destruct (Nat.ltb_spec i (length l)).
  - apply nth_error_app1; assumption.
  - rewrite nth_error_app2 by assumption.
    destruct (Nat.eqb_spec i (length l)) as [-> | N].
    + rewrite Nat.sub_diag. reflexivity.
    + destruct (i - length l) as [|[|k]] eqn:E; simpl; try reflexivity. lia.
Qed.

Lemma calls_snoc w x i :
  (forall j, match nth_error (calls w) j with
             | Some (Awaiting p) => p = 0 /\ length (connects w) = 1
             | Some (Returned h) =>
                 nth_error (connects w) 0 = Some (Fulfilled h)
             | _ => True
             end) ->
  match x with
  | Awaiting p => p = 0 /\ length (connects w) = 1
  | Returned h => nth_error (connects w) 0 = Some (Fulfilled h)
  | Thrown => True
  end ->
  match nth_error (calls w ++ [x]) i with
  | Some (Awaiting p) => p = 0 /\ length (connects w) = 1
  | Some (Returned h) => nth_error (connects w) 0 = Some (Fulfilled h)
  | _ => True
  end.
Proof.
  intros Il Hx. rewrite nth_error_snoc. specialize (Il i).
  destruct (i <? length (calls w)); [exact Il|].
  destruct (i =? length (calls w)); [|exact I]. destruct x; exact Hx.
Qed.

Lemma calls_update w x i j :
  i < length (calls w) ->
  (forall k, match nth_error (calls w) k with
             | Some (Awaiting p) => p = 0 /\ length (connects w) = 1
             | Some (Returned h) =>
                 nth_error (connects w) 0 = Some (Fulfilled h)
             | _ => True
             end) ->
  match x with
  | Awaiting p => p = 0 /\ length (connects w) = 1
  | Returned h => nth_error (connects w) 0 = Some (Fulfilled h)
  | Thrown => True
  end ->
  match nth_error (update i x (calls w)) j with
  | Some (Awaiting p) => p = 0 /\ length (connects w) = 1
  | Some (Returned h) => nth_error (connects w) 0 = Some (Fulfilled h)
  | _ => True
  end.
Proof.
  intros Hi Il Hx. destruct (Nat.eq_dec i j) as [<- | D].
  - rewrite nth_error_update_same by exact Hi. destruct x; exact Hx.
  - rewrite nth_error_update_other by exact D. apply Il.
Qed.

Lemma invariant_load w : invariant w -> invariant (load w).
Proof.
  intros [Ia Iu Ip Ic Il].
  constructor; cbn [load mongooseCache connects calls].
  - exact Ia.
  - discriminate.
  - intros c E. inversion E; subst; clear E.
    destruct (mongooseCache w) as [c|] eqn:M; [apply (Ip c eq_refl)|].
    cbn [promise conn]. destruct (Iu eq_refl). auto.
  - intros c h E. inversion E; subst; clear E.
    destruct (mongooseCache w) as [c|] eqn:M; [apply (Ic c h eq_refl)|].
    discriminate.
  - exact Il.
Qed.

Lemma invariant_call w w' : invariant w -> call w = Some w' -> invariant w'.
Proof.
  intros [Ia Iu Ip Ic Il] C. unfold call in C.
  destruct (mongooseCache w) as [c|] eqn:M; [|discriminate].
  specialize (Ip c eq_refl). specialize (Ic c).
  destruct (conn c) as [h|] eqn:Ec;
    [|destruct (promise c) as [p|] eqn:Ep];
    inversion C; subst; clear C;
    constructor; cbn [mongooseCache connects calls].
  - exact Ia.
  - discriminate.
  - intros c' E; inversion E; subst; clear E. rewrite Ec. exact Ip.
  - intros c' h' E; inversion E; subst; clear E. intros E.
    apply Ic; [reflexivity | congruence].
  - intros i. apply calls_snoc; [exact Il|]. apply Ic; reflexivity.
  - exact Ia.
  - discriminate.
  - intros c' E; inversion E; subst; clear E. rewrite Ep. exact Ip.
  - intros c' h' E; inversion E; subst; clear E. congruence.
  - intros i. apply calls_snoc; [exact Il | exact Ip].
  - destruct Ip as [-> _]. cbn. lia.
  - discriminate.
  - intros c' E; inversion E; subst; clear E. cbn [promise].
    destruct Ip as [-> _]. split; reflexivity.
  - intros c' h' E; inversion E; subst; clear E. discriminate.
  - destruct Ip as [En _]. rewrite En. cbn [length app]. intros i.
    rewrite nth_error_snoc. specialize (Il i). rewrite En in Il.
    destruct (i <? length (calls w)).
    + destruct (nth_error (calls w) i) as [[p|h|]|]; auto.
      * destruct Il; discriminate.
      * destruct i; discriminate.
    + destruct (i =? length (calls w)); [split; reflexivity | exact I].
Qed.

Lemma invariant_settle p outcome w w' :
  invariant w -> settle p outcome w = Some w' -> invariant w'.
Proof.
  intros [Ia Iu Ip Ic Il] C. unfold settle in C.
  destruct (nth_error (connects w) p) as [[|h|]|] eqn:N; try discriminate.
  inversion C; subst; clear C.
  assert (P0 : p = 0) by (apply nth_error_lt in N; lia). subst p.
  destruct (connects w) as [|x [|y l]] eqn:Ew; try discriminate;
    [|simpl in Ia; lia].
  cbn in N. inversion N; subst x; clear N.
  constructor; cbn [mongooseCache connects calls update length].
  - lia.
  - intros E. destruct (Iu E); discriminate.
  - intros c E. specialize (Ip c E). destruct (promise c); [exact Ip|].
    destruct Ip; discriminate.
  - intros c h E E'. specialize (Ic c h E E'). discriminate.
  - intros i. specialize (Il i).
    destruct (nth_error (calls w) i) as [[q|h|]|]; auto. discriminate.
Qed.

Lemma invariant_resume i w w' :
  invariant w -> resume i w = Some w' -> invariant w'.
Proof.
  intros [Ia Iu Ip Ic Il] C. unfold resume in C.
  destruct (nth_error (calls w) i) as [[p| |]|] eqn:N; try discriminate.
  destruct (mongooseCache w) as [c|] eqn:M; [|discriminate].
  pose proof (Il i) as Li. rewrite N in Li. destruct Li as [-> Len].
  assert (Hi : i < length (calls w)) by (apply nth_error_lt in N; exact N).
  destruct (nth_error (connects w) 0) as [[|h|]|] eqn:P; try discriminate;
    rewrite <- P in Il, Ic;
    inversion C; subst; clear C;
    constructor; cbn [mongooseCache connects calls].
  - exact Ia.
  - discriminate.
  - intros c' E; inversion E; subst; clear E. cbn [promise conn].
    specialize (Ip c eq_refl). destruct (promise c); [exact Ip|].
    destruct Ip as [E' _]. rewrite E' in Len. discriminate.
  - intros c' h' E E'. inversion E; subst; clear E. cbn [conn] in E'.
    congruence.
  - intros j. apply calls_update; [exact Hi | exact Il | exact P].
  - exact Ia.
  - discriminate.
  - exact Ip.
  - exact Ic.
  - intros j. apply calls_update; [exact Hi | exact Il | exact I].
Qed.

Lemma invariant_step w w' : invariant w -> step w w' -> invariant w'.
Proof.
  intros Iw S. destruct S as [w | w w' C | p o w w' C | i w w' C].
  - apply invariant_load, Iw.
  - apply (invariant_call Iw C).
  - apply (invariant_settle _ _ Iw C).
  - apply (invariant_resume _ Iw C).
Qed.

Lemma reachable_invariant w : reachable w -> invariant w.
Proof.
  induction 1 as [|w w' _ IH S]; [apply invariant_start|].
  apply (invariant_step IH S).
Qed.

Lemma perform_step a w w' : perform a w = Some w' -> step w w'.
Proof.
  destruct a; simpl; intros H.
  - inversion H; subst. apply step_load.
  - apply (step_call _ H).
  - apply (step_settle _ _ _ H).
  - apply (step_resume _ _ H).
Qed.

Lemma run_reachable acts : forall w w',
  reachable w -> run acts w = Some w' -> reachable w'.
Proof.
  induction acts as [|a rest IH]; intros w w' R H; simpl in H.
  - inversion H; subst. exact R.
  - destruct (perform a w) as [w1|] eqn:P; [|discriminate].
    apply (IH w1 w'); [|exact H].
    apply (reach_step R). apply (perform_step _ _ P).
Qed.

(** C9.  In every state a process can reach, whatever the interleaving of
    module loads, calls of [connectToDatabase], settlements of the
    connection promise and resumptions of suspended calls: at most one
    connection attempt has been issued; every suspended call awaits that one
    attempt and, once it is fulfilled, resumes with its handle; all calls
    that have returned hold the same handle, the one the attempt resolved
    to; and once the handle is cached a call returns it at once, issuing no
    further attempt. *)
Theorem connectToDatabase_once (w : Process) :
  reachable w ->
  length (connects w) <= 1 /\
  (forall i p, nth_error (calls w) i = Some (Awaiting p) ->
     p = 0 /\
     forall h, nth_error (connects w) 0 = Some (Fulfilled h) ->
       exists w', resume i w = Some w' /\
                  nth_error (calls w') i = Some (Returned h) /\
                  connects w' = connects w) /\
  (forall i h, nth_error (calls w) i = Some (Returned h) ->
     nth_error (connects w) 0 = Some (Fulfilled h)) /\
  (forall i j h h',
     nth_error (calls w) i = Some (Returned h) ->
     nth_error (calls w) j = Some (Returned h') -> h = h') /\
  (forall c h, mongooseCache w = Some c -> conn c = Some h ->
     exists w', call w = Some w' /\ connects w' = connects w /\
                calls w' = calls w ++ [Returned h]).
Proof.
  intros R. apply reachable_invariant in R. destruct R as [Ia Iu Ip Ic Il].
  assert (Ret : forall i h, nth_error (calls w) i = Some (Returned h) ->
                nth_error (connects w) 0 = Some (Fulfilled h)).
  { intros i h E. specialize (Il i). rewrite E in Il. exact Il. }
  split; [exact Ia|]. split; [|split; [exact Ret|split]].
  - intros i p E. pose proof (Il i) as Li. rewrite E in Li.
    destruct Li as [-> _]. split; [reflexivity|]. intros h F.
    unfold resume. rewrite E.
    destruct (mongooseCache w) as [c|] eqn:M.
    + rewrite F. eexists. split; [reflexivity|].
      cbn [calls connects]. split; [|reflexivity].
      apply nth_error_update_same. apply (nth_error_lt _ _ E).
    + destruct (Iu eq_refl) as [_ En]. rewrite En in E.
      destruct i; discriminate.
  - intros i j h h' E E'. apply Ret in E, E'. congruence.
  - intros c h M E. unfold call. rewrite M, E. eexists.
    split; [reflexivity|]. split; reflexivity.
Qed.

Lemma connectToDatabase_once_witness :
  exists w, run cold_start start = Some w /\
    length (connects w) <= 1 /\
    calls w = [Returned 5; Returned 5; Returned 5].
Proof.
  eexists. split; [reflexivity|].
  split; [|reflexivity].
  exact (proj1 (@connectToDatabase_once _
           (@run_reachable cold_start start _ reach_start eq_refl))).
Defined.

(** * Further properties of the code *)

(** ** [slugifyTitle] as a function of the title *)

Lemma join_runs_gap : forall s p,
  forallb (cls_not lower_alnum) s = true -> join_runs p s = [].
Proof.
  induction s as [|c t IH]; intros p H; [reflexivity|].
  simpl in H. apply andb_true_iff in H. destruct H as [Hc Ht].
  unfold cls_not in Hc. apply negb_true_iff in Hc.
  cbn [join_runs]. rewrite Hc. apply IH, Ht.
Qed.

Lemma join_runs_app : forall a b p,
  join_runs p (a ++ b) = join_runs p a ++ join_runs (ends_in_gap p a) b.
Proof.
  induction a as [|c t IH]; intros b p; [reflexivity|].
  cbn [app join_runs ends_in_gap]. destruct (lower_alnum c).
  - rewrite IH. destruct p; reflexivity.
  - apply IH.
Qed.

Lemma drop_while_app p a b :
  drop_while p (a ++ b) =
  match drop_while p a with
  | [] => drop_while p b
  | _ :: _ => drop_while p a ++ b
  end.
Proof.
  induction a as [|c t IH]; [simpl; destruct (drop_while p b); reflexivity|].
  cbn [app drop_while]. destruct (p c); [exact IH | reflexivity].
Qed.

Lemma drop_while_all p s : forallb p s = true -> drop_while p s = [].
Proof.
  induction s as [|c t IH]; [reflexivity|]. simpl. intros H.
  apply andb_true_iff in H. destruct H as [-> H]. apply IH, H.
Qed.

(** Characters outside [a-z0-9] around a string do not change its runs. *)
Lemma slug_core_pad lead y trail :
  forallb (cls_not lower_alnum) lead = true ->
  forallb (cls_not lower_alnum) trail = true ->
  slug_core (lead ++ y ++ trail) = slug_core y.
Proof.
  intros Hl Ht. unfold slug_core.
  rewrite drop_while_app, (drop_while_all _ _ Hl), drop_while_app.
  destruct (drop_while (cls_not lower_alnum) y) as [|c t] eqn:D.
  - rewrite (drop_while_all _ _ Ht). reflexivity.
  - rewrite join_runs_app, (join_runs_gap _ _ Ht). apply app_nil_r.
Qed.

Lemma gap_forallb s :
  (forall c, In c s -> lower_alnum c = false) ->
  forallb (cls_not lower_alnum) s = true.
Proof.
  intros H. apply forallb_forall. intros c Hc.
  unfold cls_not. rewrite (H c Hc). reflexivity.
Qed.

Lemma space_gap s :
  all_space s = true -> forallb (cls_not lower_alnum) (toLowerCase s) = true.
Proof.
  intros H. apply gap_forallb. intros c Hc.
  apply in_map_iff in Hc. destruct Hc as (d & <- & Hd).
  apply space_lower_gap. unfold all_space in H.
  rewrite forallb_forall in H. apply H, Hd.
Qed.

Lemma toLowerCase_app a b :
  toLowerCase (a ++ b) = toLowerCase a ++ toLowerCase b.
Proof. apply map_app. Qed.

(** Trimming is immaterial to the slug. *)
Lemma slugifyTitle_runs title :
  slugifyTitle title = slug_core (toLowerCase title).
Proof.
  rewrite slugifyTitle_core.
  destruct (trim_decomp title) as (lead & trail & E & Hl & Ht & _).
  rewrite E at 2. rewrite !toLowerCase_app. symmetry.
  apply slug_core_pad; apply space_gap; assumption.
Qed.

Lemma join_runs_tail t : slug_tail t -> join_runs false t = t.
Proof.
  induction 1 as [|c t Hc _ IH|c t Hc _ IH]; [reflexivity| |].
  - cbn [join_runs]. rewrite Hc, IH. reflexivity.
  - cbn [join_runs]. change (lower_alnum "-") with false. cbv iota.
    rewrite Hc, IH. reflexivity.
Qed.

Lemma slug_core_fixed y : slug_core (slug_core y) = slug_core y.
Proof.
  destruct (slug_core_shape y) as [-> | (c & t & -> & Hc & Ht)]; [reflexivity|].
  unfold slug_core. cbn [drop_while]. unfold cls_not at 1. rewrite Hc.
  cbn [negb join_runs]. rewrite Hc, (join_runs_tail Ht). reflexivity.
Qed.

Lemma slug_core_lower y : toLowerCase (slug_core y) = slug_core y.
Proof.
  destruct (slug_core_shape y) as [-> | (c & t & -> & Hc & Ht)]; [reflexivity|].
  apply (@slug_tail_lower (c :: t) (@tail_char c t Hc Ht)).
Qed.

(** X1.  A slug is its own slug: applying [slugifyTitle] to one of its
    results returns it unchanged. *)
Theorem slugifyTitle_idempotent (title : jsstring) :
  slugifyTitle (slugifyTitle title) = slugifyTitle title.
Proof.
  rewrite (slugifyTitle_runs (slugifyTitle title)), !slugifyTitle_runs.
  rewrite slug_core_lower. apply slug_core_fixed.
Qed.

Lemma filter_join_runs : forall y p,
  filter lower_alnum (join_runs p y) = filter lower_alnum y.
Proof.
  induction y as [|c t IH]; intros p; [reflexivity|].
  cbn [join_runs filter]. destruct (lower_alnum c) eqn:E; [|apply IH].
  destruct p; cbn [filter]; change (lower_alnum "-") with false; cbv iota;
    rewrite E, IH; reflexivity.
Qed.

Lemma filter_drop_gap y :
  filter lower_alnum (drop_while (cls_not lower_alnum) y) = filter lower_alnum y.
Proof.
  induction y as [|c t IH]; [reflexivity|].
  cbn [drop_while filter]. unfold cls_not at 1.
  destruct (lower_alnum c) eqn:E; cbn [negb]; [|exact IH].
  cbn [filter]. rewrite E. reflexivity.
Qed.

(** X2.  The slug keeps exactly the characters of [a-z0-9] that the
    title has once trimmed and lower-cased, in their order, and holds
    nothing else but hyphens: without its hyphens the slug is the trimmed,
    lower-cased title without its characters outside [a-z0-9]. *)
Theorem slugifyTitle_keeps_alnum (title : jsstring) :
  filter lower_alnum (slugifyTitle title) =
    filter lower_alnum (toLowerCase (trim title)) /\
  filter (fun c => negb (hyph c)) (slugifyTitle title) =
    filter lower_alnum (toLowerCase (trim title)).
Proof.
  assert (K : filter lower_alnum (slugifyTitle title) =
              filter lower_alnum (toLowerCase (trim title))).
  { rewrite slugifyTitle_core. unfold slug_core.
    rewrite filter_join_runs. apply filter_drop_gap. }
  split; [exact K|]. rewrite <- K. rewrite slugifyTitle_core.
  destruct (slug_core_shape (toLowerCase (trim title)))
    as [-> | (c & t & -> & Hc & Ht)]; [reflexivity|].
  cbn [filter]. rewrite Hc, (alnum_not_hyph _ Hc). cbn [negb]. f_equal.
  induction Ht as [|d u Hd _ IH|d u Hd _ IH]; [reflexivity| |].
  - cbn [filter]. rewrite Hd, (alnum_not_hyph _ Hd). cbn [negb].
    f_equal. exact IH.
  - cbn [filter]. change (hyph "-") with true.
    change (lower_alnum "-") with false. cbn [negb].
    rewrite Hd, (alnum_not_hyph _ Hd). cbn [negb]. f_equal. exact IH.
Qed.

Lemma join_runs_length : forall y p,
  length (join_runs p y) <= length y + (if p then 1 else 0).
Proof.
  induction y as [|c t IH]; intros p; [simpl; lia|].
  cbn [join_runs]. destruct (lower_alnum c).
  - specialize (IH false). destruct p; simpl in *; lia.
  - specialize (IH true). simpl in *. destruct p; lia.
Qed.

(** X3.  A slug is never longer than the title it is made from, trimmed
    and lower-cased: every character of [a-z0-9] is kept and every run of
    other characters gives one hyphen at most. *)
Theorem slugifyTitle_length (title : jsstring) :
  length (slugifyTitle title) <= length (toLowerCase (trim title)).
Proof.
  rewrite slugifyTitle_core. unfold slug_core.
  pose proof (join_runs_length
                (drop_while (cls_not lower_alnum) (toLowerCase (trim title)))
                false) as H.
  pose proof (drop_while_length (cls_not lower_alnum)
                (toLowerCase (trim title))) as D.
  cbv beta iota in H. rewrite Nat.add_0_r in H.
  apply (Nat.le_trans _ _ _ H D).
Qed.

(** X4.  The slug depends on the title only up to letter case and up to
    what surrounds its first and last character of [a-z0-9]: two titles
    with the same lower case have the same slug, also when one of them is
    wrapped in text that holds no character of [a-z0-9] once lower-cased
    (white space and punctuation, for instance). *)
Theorem slugifyTitle_insensitive (lead a b trail : jsstring) :
  toLowerCase a = toLowerCase b ->
  (forall c, In c (toLowerCase lead) -> lower_alnum c = false) ->
  (forall c, In c (toLowerCase trail) -> lower_alnum c = false) ->
  slugifyTitle (lead ++ a ++ trail) = slugifyTitle b.
Proof.
  intros E Hl Ht. rewrite !slugifyTitle_runs, !toLowerCase_app, E.
  apply slug_core_pad; apply gap_forallb; assumption.
Qed.

Lemma slugifyTitle_insensitive_witness :
  slugifyTitle (str "  ** Rust Conf 2026!") = slugifyTitle (str "RUST conf 2026").
Proof.
  apply (@slugifyTitle_insensitive (str "  ** ") (str "Rust Conf 2026")
           (str "RUST conf 2026") (str "!")).
  - reflexivity.
  - intros c H. simpl in H.
    repeat (destruct H as [<- | H]; [reflexivity|]). destruct H.
  - intros c H. simpl in H.
    repeat (destruct H as [<- | H]; [reflexivity|]). destruct H.
Defined.

Lemma join_runs_skip : forall s p b,
  s <> [] -> forallb (cls_not lower_alnum) s = true ->
  join_runs p (s ++ b) = join_runs true b.
Proof.
  induction s as [|c t IH]; intros p b N H; [congruence|].
  simpl in H. apply andb_true_iff in H. destruct H as [Hc Ht].
  unfold cls_not in Hc. apply negb_true_iff in Hc.
  cbn [app join_runs]. rewrite Hc.
  destruct t as [|d u]; [reflexivity|]. apply IH; [discriminate | exact Ht].
Qed.

Lemma slug_core_words a sep b :
  slug_core a <> [] -> slug_core b <> [] ->
  sep <> [] -> forallb (cls_not lower_alnum) sep = true ->
  slug_core (a ++ sep ++ b) = slug_core a ++ "-" :: slug_core b.
Proof.
  intros Na Nb Ns Hs. unfold slug_core in *.
  rewrite drop_while_app.
  destruct (drop_while (cls_not lower_alnum) a) as [|c t] eqn:D;
    [exfalso; apply Na; reflexivity|].
  rewrite join_runs_app. f_equal.
  rewrite (join_runs_skip _ _ Ns Hs), join_true.
  destruct (drop_while (cls_not lower_alnum) b) eqn:B;
    [exfalso; apply Nb; reflexivity | unfold slug_core; rewrite B; reflexivity].
Qed.

(** X5.  Words stay apart: when two pieces of a title each give a slug
    that is not empty and are separated by text that is not empty and holds
    no character of [a-z0-9] once lower-cased, the slug of the whole is the
    two slugs joined by one hyphen. *)
Theorem slugifyTitle_words (a sep b : jsstring) :
  slugifyTitle a <> [] -> slugifyTitle b <> [] ->
  sep <> [] ->
  (forall c, In c (toLowerCase sep) -> lower_alnum c = false) ->
  slugifyTitle (a ++ sep ++ b) = slugifyTitle a ++ "-" :: slugifyTitle b.
Proof.
  intros Na Nb Ns Hs. rewrite !slugifyTitle_runs in *.
  rewrite !toLowerCase_app. apply slug_core_words; try assumption.
  - destruct sep; [congruence | discriminate].
  - apply gap_forallb, Hs.
Qed.

Lemma slugifyTitle_words_witness :
  slugifyTitle (str "Next.js 16 -- What's new?") =
  slugifyTitle (str "Next.js 16") ++ "-" :: slugifyTitle (str "What's new?").
Proof.
  apply (@slugifyTitle_words (str "Next.js 16") (str " -- ")
           (str "What's new?")).
  - discriminate.
  - discriminate.
  - discriminate.
  - intros c H. simpl in H.
    repeat (destruct H as [<- | H]; [reflexivity|]). destruct H.
Defined.

(** ** [pad2] *)

Lemma nat_digits_acc : forall fuel n acc,
  nat_digits fuel n acc = nat_digits fuel n [] ++ acc.
Proof.
  induction fuel as [|f IH]; intros n acc; [reflexivity|].
  cbn [nat_digits]. destruct (Nat.eqb (n / 10) 0); [reflexivity|].
  rewrite (IH _ (_ :: acc)), (IH _ [_]), <- app_assoc. reflexivity.
Qed.

Lemma nat_digits_fuel : forall f f' n acc,
  n < f -> n < f' -> nat_digits f n acc = nat_digits f' n acc.
Proof.
  induction f as [|f IH]; intros f' n acc H H'; [lia|].
  destruct f' as [|f']; [lia|]. cbn [nat_digits].
  destruct (Nat.eqb_spec (n / 10) 0) as [E | E]; [reflexivity|].
  assert (P : 0 < n) by (destruct n; [exfalso; apply E; reflexivity | lia]).
  assert (D : n / 10 < n) by (apply Nat.div_lt; lia).
  apply IH; lia.
Qed.

(** The decimal digits of [n]: the last one after those of [n / 10]. *)
Lemma toString_step n :
  toString n =
  if n <? 10 then [digit_char n]
  else toString (n / 10) ++ [digit_char (n mod 10)].
Proof.
  unfold toString at 1. cbn [nat_digits].
  destruct (Nat.ltb_spec n 10) as [L | L].
  - rewrite (Nat.div_small _ _ L), (Nat.mod_small _ _ L). reflexivity.
  - destruct (Nat.eqb_spec (n / 10) 0) as [E | E].
    + apply Nat.div_small_iff in E; lia.
    + assert (D : n / 10 < n) by (apply Nat.div_lt; lia).
      rewrite nat_digits_acc. f_equal. unfold toString.
      apply nat_digits_fuel; lia.
Qed.

Lemma Number_snoc s c : Number (s ++ [c]) = 10 * Number s + (code c - 48).
Proof. unfold Number. rewrite fold_left_app. reflexivity. Qed.

Lemma digit_char_value d : d < 10 -> code (digit_char d) - 48 = d.
Proof.
  intros H. do 10 (destruct d as [|d]; [reflexivity|]). lia.
Qed.

Lemma digit_char_digit d : d < 10 -> is_digit (digit_char d) = true.
Proof.
  intros H. do 10 (destruct d as [|d]; [reflexivity|]). lia.
Qed.

Lemma toString_facts : forall k n, n < k ->
  Number (toString n) = n /\ all_digits (toString n) = true /\
  1 <= length (toString n).
Proof.
  induction k as [|k IH]; intros n H; [lia|].
  rewrite toString_step. destruct (Nat.ltb_spec n 10) as [L | L].
  - unfold Number, all_digits. cbn [fold_left forallb length].
    rewrite (digit_char_value L), (digit_char_digit L). repeat split; lia.
  - assert (D : n / 10 < n) by (apply Nat.div_lt; lia).
    destruct (IH (n / 10)) as (N & A & Len); [lia|].
    pose proof (Nat.mod_upper_bound n 10) as M.
    rewrite Number_snoc, N, (digit_char_value (d := n mod 10)) by lia.
    unfold all_digits in *. rewrite forallb_app, A. cbn [forallb].
    rewrite digit_char_digit by lia. rewrite length_app. cbn [length].
    pose proof (Nat.div_mod_eq n 10). repeat split; lia.
Qed.

Lemma toString_length n :
  (n < 10 -> length (toString n) = 1) /\
  (10 <= n -> n < 100 -> length (toString n) = 2) /\
  (10 <= n -> 2 <= length (toString n)).
Proof.
  rewrite (toString_step n). destruct (Nat.ltb_spec n 10) as [L | L].
  - split; [reflexivity|]. split; intros; lia.
  - rewrite length_app. cbn [length].
    destruct (toString_facts (n := n / 10) (Nat.lt_succ_diag_r _))
      as (_ & _ & Len).
    split; [lia|]. split; [|lia]. intros _ H.
    rewrite (toString_step (n / 10)).
    assert (D : n / 10 < 10) by (apply Nat.Div0.div_lt_upper_bound; lia).
    apply Nat.ltb_lt in D. rewrite D. reflexivity.
Qed.

Lemma Number_zeros k s : Number (repeat "0" k ++ s) = Number s.
Proof. induction k as [|k IH]; [reflexivity|]. exact IH. Qed.

(** X6.  [pad2] writes a number in decimal on at least two digits.  For
    every natural number that JavaScript holds exactly (up to 2^53 - 1, the
    range on which [toString] is the plain decimal writing): the text reads
    back as the number, it is made of digits only, it has exactly two
    digits below one hundred (a zero in front below ten), and from ten on
    it is the decimal writing unchanged. *)
Theorem pad2_spec (n : nat) :
  (Z.of_nat n <= 9007199254740991)%Z ->
  Number (pad2 n) = n /\
  all_digits (pad2 n) = true /\
  2 <= length (pad2 n) /\
  (n < 10 -> pad2 n = ["0"; digit_char n]) /\
  (n < 100 -> length (pad2 n) = 2) /\
  (10 <= n -> pad2 n = toString n).
Proof.
  intros _.
  destruct (toString_facts (n := n) (Nat.lt_succ_diag_r _)) as (N & A & Len).
  destruct (toString_length n) as (L1 & L2 & L3).
  assert (Small : n < 10 -> pad2 n = ["0"; digit_char n]).
  { intros H. unfold pad2, padStart. rewrite (L1 H).
    rewrite toString_step. apply Nat.ltb_lt in H. rewrite H. reflexivity. }
  assert (Big : 10 <= n -> pad2 n = toString n).
  { intros H. unfold pad2, padStart.
    replace (2 - length (toString n)) with 0 by (specialize (L3 H); lia).
    reflexivity. }
  split; [unfold pad2, padStart; rewrite Number_zeros; exact N|].
  split.
  { unfold pad2, padStart, all_digits in *. rewrite forallb_app, A.
    rewrite andb_true_r. apply forallb_forall. intros c Hc.
    apply repeat_spec in Hc. subst. reflexivity. }
  split; [|split; [exact Small|split; [|exact Big]]].
  - destruct (Nat.lt_ge_cases n 10) as [H | H].
    + rewrite (Small H). simpl. lia.
    + rewrite (Big H). apply L3, H.
  - intros H. destruct (Nat.lt_ge_cases n 10) as [H' | H'].
    + rewrite (Small H'). reflexivity.
    + rewrite (Big H'). apply L2; assumption.
Qed.

Lemma pad2_spec_witness :
  (Z.of_nat 7 <= 9007199254740991)%Z /\
  pad2 7 = str "07" /\ Number (pad2 7) = 7 /\ length (pad2 7) = 2.
Proof.
  assert (B : (Z.of_nat 7 <= 9007199254740991)%Z) by (vm_compute; discriminate).
  split; [exact B|].
  destruct (pad2_spec 7 B) as (N & _ & _ & S & L & _).
  split; [apply S; lia|]. split; [exact N | apply L; lia].
Defined.

(** ** [normalizeSingleTime] *)

Lemma hour_text_head h :
  (length h = 1 \/ length h = 2) -> all_digits h = true ->
  forall rest, head_not is_space (h ++ rest).
Proof.
  intros L D rest. destruct h as [|c t]; [destruct L; discriminate|].
  unfold all_digits in D. simpl in D. apply andb_true_iff in D.
  simpl. apply digit_not_space. tauto.
Qed.

Lemma minute_text_last mi pre :
  minute_text mi -> head_not is_space (rev (pre ++ mi)).
Proof.
  intros (L & D & _). apply length2 in L. destruct L as (a & b & ->).
  unfold all_digits in D. simpl in D.
  repeat (apply andb_true_iff in D; destruct D as [? D]).
  change [a; b] with ([a] ++ [b]). rewrite app_assoc, rev_app_distr.
  simpl. apply digit_not_space. assumption.
Qed.

(** X7.  A 24-hour token (hour 0..23 in one or two digits, a colon, two
    digits of minutes 00..59), possibly surrounded by white space, keeps
    its value: the hour is written on two digits and the minutes are
    copied. *)
Theorem normalizeSingleTime_24h (lead trail h mi : jsstring) :
  all_space lead = true -> all_space trail = true ->
  hour24_text h -> minute_text mi ->
  normalizeSingleTime (lead ++ (h ++ ":" :: mi) ++ trail) =
    Ok (pad2 (Number h) ++ ":" :: mi) /\
  canonical_time (pad2 (Number h) ++ ":" :: mi) /\
  Number (pad2 (Number h)) = Number h.
Proof.
  intros Hl Ht Hh Hm.
  split; [|split; [apply canonical_24; assumption|]].
  - apply normalizeSingleTime_24; try assumption.
    apply trim_pad; try assumption.
    + destruct Hh as (L & D & _). apply (hour_text_head _ L D).
    + change (h ++ ":" :: mi) with (h ++ [":"] ++ mi).
      rewrite app_assoc. apply minute_text_last, Hm.
  - destruct (toString_facts (n := Number h) (Nat.lt_succ_diag_r _))
      as (N & _ & _).
    unfold pad2, padStart. rewrite Number_zeros. exact N.
Qed.

Lemma normalizeSingleTime_24h_witness :
  hour24_text (str "7") /\ minute_text (str "05") /\
  normalizeSingleTime (str "  7:05 ") = Ok (str "07:05").
Proof.
  assert (Hh : hour24_text (str "7")).
  { split; [left; reflexivity|]. split; [reflexivity|]. vm_compute. lia. }
  assert (Hm : minute_text (str "05")).
  { split; [reflexivity|]. split; [reflexivity|]. vm_compute. lia. }
  split; [exact Hh|]. split; [exact Hm|].
  exact (proj1 (@normalizeSingleTime_24h (str "  ") (str " ") (str "7")
                  (str "05") eq_refl eq_refl Hh Hm)).
Defined.

(** X8.  [normalizeSingleTime] returns exactly when its input, trimmed, is
    a 24-hour or a 12-hour token; on any other input it throws the format
    error, whose message quotes the input as it was given, white space
    included. *)
Theorem normalizeSingleTime_total (input : jsstring) :
  ((exists out, normalizeSingleTime input = Ok out) <->
   valid_token (trim input)) /\
  (~ valid_token (trim input) ->
   normalizeSingleTime input = Throw (err_time_format input) /\
   names (err_time_format input) input) /\
  (forall e, normalizeSingleTime input = Throw e ->
   e = str "Invalid time format: " ++ dq ++ input ++ dq
       ++ str ". Use HH:mm or h:mm AM/PM.").
Proof.
  split; [|split].
  - split; [|apply normalizeSingleTime_valid].
    intros (out & E). apply (normalizeSingleTime_ok _ E).
  - intros N. split; [|apply names_time_format].
    destruct (normalizeSingleTime input) as [out|e] eqn:E.
    + exfalso. apply N. apply (normalizeSingleTime_ok _ E).
    + apply normalizeSingleTime_throw in E. destruct E as [_ ->].
      reflexivity.
  - intros e E. apply normalizeSingleTime_throw in E. tauto.
Qed.

Lemma not_valid_hour_24 : ~ valid_token (trim (str " 24:00 ")).
Proof.
  intros V. apply (@normalizeSingleTime_valid (str " 24:00 ")) in V.
  destruct V as (out & E). vm_compute in E. discriminate.
Qed.

Lemma normalizeSingleTime_total_witness :
  ~ valid_token (trim (str " 24:00 ")) /\
  normalizeSingleTime (str " 24:00 ") = Throw (err_time_format (str " 24:00 ")).
Proof.
  split; [exact not_valid_hour_24|].
  exact (proj1 (proj1 (proj2 (normalizeSingleTime_total (str " 24:00 ")))
                  not_valid_hour_24)).
Defined.

(** X9.  Whatever [normalizeSingleTime] returns is a zero-padded 24-hour
    time [HH:mm], which [normalizeSingleTime] returns unchanged. *)
Theorem normalizeSingleTime_fixed (input out : jsstring) :
  normalizeSingleTime input = Ok out ->
  canonical_time out /\ length out = 5 /\ normalizeSingleTime out = Ok out.
Proof.
  intros H. apply normalizeSingleTime_ok in H. destruct H as [_ C].
  split; [exact C|]. split; [|apply (canonical_time_fixed C)].
  destruct C as (h1 & h2 & m1 & m2 & -> & _). reflexivity.
Qed.

Lemma normalizeSingleTime_fixed_witness :
  normalizeSingleTime (str "9:05 pm") = Ok (str "21:05") /\
  normalizeSingleTime (str "21:05") = Ok (str "21:05").
Proof.
  split; [reflexivity|].
  exact (proj2 (proj2 (@normalizeSingleTime_fixed (str "9:05 pm")
                         (str "21:05") eq_refl))).
Defined.

(** ** [normalizeTime] and what surrounds the tokens *)

Lemma split_cons sep c s :
  split sep (c :: s) =
  if ascii_eqb c sep then [] :: split sep s
  else (c :: hd [] (split sep s)) :: tl (split sep s).
Proof.
  cbn [split]. destruct (ascii_eqb c sep); [reflexivity|].
  destruct (split sep s); reflexivity.
Qed.

Lemma split_not_nil sep s : split sep s <> [].
Proof.
  destruct s as [|c t]; [discriminate|]. rewrite split_cons.
  destruct (ascii_eqb c sep); discriminate.
Qed.

Lemma hd_tl (A : Type) (d : A) (l : list A) : l <> [] -> l = hd d l :: tl l.
Proof. destruct l; [congruence | reflexivity]. Qed.

Lemma trim_space_cons c s : is_space c = true -> trim (c :: s) = trim s.
Proof. intros H. unfold trim. simpl. rewrite H. reflexivity. Qed.

(** [trimEnd] of [c :: s] from [c] and [trimEnd s]. *)
Lemma trimEnd_cons c s :
  trimEnd (c :: s) =
  match trimEnd s with
  | [] => if is_space c then [] else [c]
  | _ :: _ => c :: trimEnd s
  end.
Proof.
  unfold trimEnd. cbn [rev]. rewrite !trimStart_drop, drop_while_app.
  destruct (drop_while is_space (rev s)) as [|d u]; cbn [rev drop_while].
  - destruct (is_space c); reflexivity.
  - rewrite rev_app_distr. cbn [rev app].
    destruct (rev u ++ [d]) eqn:E; [destruct (rev u); discriminate|].
    reflexivity.
Qed.

Lemma trimEnd_space s : all_space s = true -> trimEnd s = [].
Proof.
  intros H. unfold trimEnd. rewrite trimStart_drop, drop_while_all.
  - reflexivity.
  - rewrite <- all_space_rev in H. exact H.
Qed.

(** The two halves of [trim] commute. *)
Lemma trim_swap s : trim s = trimStart (trimEnd s).
Proof.
  destruct (trim_decomp s) as (lead & trail & E & Hl & Ht & Hh & Hr).
  rewrite E at 2. rewrite app_assoc, (trimEnd_pad _ _ Ht).
  destruct (trim s) as [|c t] eqn:T.
  - rewrite app_nil_r, (trimEnd_space _ Hl). reflexivity.
  - rewrite trimEnd_id.
    + rewrite (trimStart_pad _ _ Hl). symmetry. apply trimStart_id, Hh.
    + rewrite rev_app_distr. cbn [rev] in *.
      destruct (rev t ++ [c]) eqn:R; [destruct (rev t); discriminate|].
      exact Hr.
Qed.

Lemma filler_cases c :
  filler c = true -> hyph c = true \/ (hyph c = false /\ is_space c = true).
Proof.
  unfold filler. destruct (hyph c); [auto|]. rewrite orb_false_r. auto.
Qed.

Lemma time_parts_cons c x : filler c = true -> time_parts (c :: x) = time_parts x.
Proof.
  intros H. unfold time_parts. rewrite split_cons.
  destruct (filler_cases _ H) as [E | [E S]]; unfold hyph, cls_char in E;
    rewrite E.
  - reflexivity.
  - rewrite (hd_tl [] (split_not_nil "-" x)) at 3.
    cbn [map]. rewrite (trim_space_cons _ _ S). reflexivity.
Qed.

Lemma time_parts_lead lead x :
  forallb filler lead = true -> time_parts (lead ++ x) = time_parts x.
Proof.
  induction lead as [|c t IH]; [reflexivity|]. simpl. intros H.
  apply andb_true_iff in H. destruct H as [Hc Ht].
  rewrite (time_parts_cons _ _ Hc). apply IH, Ht.
Qed.

Lemma time_parts_blank s : forallb filler s = true -> time_parts s = [].
Proof.
  intros H. rewrite <- (app_nil_r s). rewrite (time_parts_lead _ _ H).
  reflexivity.
Qed.

Lemma split_blank s :
  forallb filler s = true -> forall p, In p (split "-" s) -> trimEnd p = [].
Proof.
  induction s as [|c t IH]; intros H p Hp.
  - destruct Hp as [<- | []]. reflexivity.
  - simpl in H. apply andb_true_iff in H. destruct H as [Hc Ht].
    rewrite split_cons in Hp.
    destruct (filler_cases _ Hc) as [E | [E S]]; unfold hyph, cls_char in E;
      rewrite E in Hp.
    + destruct Hp as [<- | Hp]; [reflexivity | apply (IH Ht _ Hp)].
    + destruct Hp as [<- | Hp].
      * rewrite trimEnd_cons, (IH Ht (hd [] (split "-" t))), S; [reflexivity|].
        pose proof (split_not_nil "-" t) as N.
        destruct (split "-" t); [congruence | left; reflexivity].
      * apply (IH Ht). destruct (split "-" t); [destruct Hp|].
        right; exact Hp.
Qed.

Lemma map_trimEnd_blank l :
  (forall p, In p l -> trimEnd p = []) ->
  map trimEnd l = repeat [] (length l).
Proof.
  induction l as [|p l IH]; intros H; [reflexivity|]. cbn [map length repeat].
  rewrite (H p (or_introl eq_refl)), IH; [reflexivity|].
  intros q Hq. apply H. right; exact Hq.
Qed.

(** Up to empty pieces, a filler at the end of the input leaves the pieces
    as they are once trimmed at the end. *)
Lemma split_trail trail :
  forallb filler trail = true ->
  forall x, exists k,
    map trimEnd (split "-" (x ++ trail)) =
    map trimEnd (split "-" x) ++ repeat [] k.
Proof.
  intros H. induction x as [|c x (k & IH)].
  - exists (length (split "-" trail) - 1). cbn [app split map].
    rewrite (map_trimEnd_blank _ (split_blank _ H)).
    pose proof (split_not_nil "-" trail) as N.
    destruct (split "-" trail) as [|p l]; [congruence|].
    simpl. rewrite ?Nat.sub_0_r. reflexivity.
  - exists k. cbn [app]. rewrite !split_cons.
    destruct (ascii_eqb c "-").
    + cbn [map app]. rewrite IH. reflexivity.
    + rewrite (hd_tl [] (split_not_nil "-" (x ++ trail))) in IH.
      rewrite (hd_tl [] (split_not_nil "-" x)) in IH.
      cbn [map app] in IH. inversion IH as [[Eh Et]].
      cbn [map app]. rewrite !trimEnd_cons, Eh.
      apply (f_equal2 (@cons jsstring)); [reflexivity | exact Et].
Qed.

Lemma time_parts_swap x :
  time_parts x =
  filter (fun p => 0 <? length p) (map trimStart (map trimEnd (split "-" x))).
Proof.
  unfold time_parts. rewrite map_map. f_equal.
  apply map_ext. intros p. apply trim_swap.
Qed.

Lemma time_parts_trail x trail :
  forallb filler trail = true -> time_parts (x ++ trail) = time_parts x.
Proof.
  intros H. rewrite !time_parts_swap.
  destruct (split_trail _ H x) as (k & ->).
  rewrite map_app, filter_app.
  replace (filter _ (map trimStart (repeat [] k))) with (@nil jsstring);
    [apply app_nil_r|].
  induction k as [|k IH]; [reflexivity | exact IH].
Qed.

Lemma time_parts_pad lead x trail :
  forallb filler lead = true -> forallb filler trail = true ->
  time_parts (lead ++ x ++ trail) = time_parts x.
Proof.
  intros Hl Ht. rewrite (time_parts_lead _ _ Hl). apply (time_parts_trail _ _ Ht).
Qed.

(** X10.  White space and stray hyphens around the input are ignored:
    wrapped in any mix of them, an input is accepted exactly when it is
    accepted bare, with the same result. *)
Theorem normalizeTime_padding (lead x trail out : jsstring) :
  forallb filler lead = true -> forallb filler trail = true ->
  (normalizeTime (lead ++ x ++ trail) = Ok out <-> normalizeTime x = Ok out).
Proof.
  intros Hl Ht. unfold normalizeTime. rewrite (time_parts_pad _ _ _ Hl Ht).
  destruct (time_parts x) as [|p [|q [|r l]]]; try reflexivity;
    split; discriminate.
Qed.

Lemma normalizeTime_padding_witness :
  normalizeTime (str " - 9:00 AM - 5:00 PM -- ") = Ok (str "09:00-17:00").
Proof.
  apply (proj2 (@normalizeTime_padding (str " - ") (str "9:00 AM - 5:00 PM")
                  (str " -- ") (str "09:00-17:00") eq_refl eq_refl)).
  reflexivity.
Defined.

(** X11.  An input with no token at all (empty, or made of white space
    and hyphens only) is rejected with the range error, which quotes it. *)
Theorem normalizeTime_blank (input : jsstring) :
  forallb filler input = true ->
  normalizeTime input = Throw (err_time_range input) /\
  names (err_time_range input) input.
Proof.
  intros H. split; [|apply names_time_range].
  unfold normalizeTime. rewrite (time_parts_blank _ H). reflexivity.
Qed.

Lemma normalizeTime_blank_witness :
  normalizeTime (str " - ") =
  Throw (str "Invalid time range: " ++ dq ++ str " - " ++ dq ++ str ".").
Proof.
  exact (proj1 (@normalizeTime_blank (str " - ") eq_refl)).
Defined.

Lemma trim_wrapped lead s trail :
  all_space lead = true -> all_space trail = true ->
  trim (lead ++ s ++ trail) = trim s.
Proof.
  intros Hl Ht.
  destruct (trim_decomp s) as (l1 & t1 & E & Hl1 & Ht1 & Hh & Hr).
  rewrite E at 1.
  replace (lead ++ (l1 ++ trim s ++ t1) ++ trail)
    with ((lead ++ l1) ++ trim s ++ (t1 ++ trail))
    by (rewrite <- !app_assoc; reflexivity).
  apply trim_pad; try assumption; unfold all_space in *;
    rewrite forallb_app; apply andb_true_iff; split; assumption.
Qed.

Lemma filler_separator sep :
  forallb filler sep = true -> existsb hyph sep = true ->
  exists ws rest, sep = ws ++ "-" :: rest /\ all_space ws = true /\
                  forallb filler rest = true.
Proof.
  induction sep as [|c t IH]; intros F H; [discriminate|].
  simpl in F. apply andb_true_iff in F. destruct F as [Fc Ft].
  destruct (filler_cases _ Fc) as [E | [E S]].
  - apply hyph_true in E. subst c. exists [], t. auto.
  - simpl in H. rewrite E in H. destruct (IH Ft H) as (ws & rest & -> & W & R).
    exists (c :: ws), rest. split; [reflexivity|]. split; [|exact R].
    unfold all_space in *. simpl. rewrite S. exact W.
Qed.

(** X12.  Between the two tokens of a range any run of white space and
    hyphens with at least one hyphen is one separator: the result is the
    two normalised tokens joined by a single hyphen. *)
Theorem normalizeTime_separator (p sep q a b : jsstring) :
  normalizeSingleTime p = Ok a -> normalizeSingleTime q = Ok b ->
  forallb filler sep = true -> existsb hyph sep = true ->
  normalizeTime (p ++ sep ++ q) = Ok (a ++ "-" :: b).
Proof.
  intros Ha Hb F H.
  destruct (filler_separator _ F H) as (ws & rest & -> & W & R).
  destruct (normalizeSingleTime_no_hyphen _ Ha) as [Hp Np].
  destruct (normalizeSingleTime_no_hyphen _ Hb) as [Hq Nq].
  assert (Hpw : no_hyphen (p ++ ws) = true).
  { rewrite no_hyphen_app, Hp, (no_hyphen_space _ W). reflexivity. }
  assert (Tp : trim (p ++ ws) = trim p).
  { apply (trim_wrapped [] p ws); [reflexivity | exact W]. }
  assert (P : time_parts (p ++ (ws ++ "-" :: rest) ++ q) = [trim p; trim q]).
  { replace (p ++ (ws ++ "-" :: rest) ++ q)
      with ((p ++ ws) ++ "-" :: (rest ++ q))
      by (rewrite <- !app_assoc; reflexivity).
    unfold time_parts. rewrite (split_app _ _ _ Hpw). cbn [map filter].
    rewrite Tp. destruct (trim p) as [|c t] eqn:E; [congruence|].
    change (0 <? length (c :: t)) with true. cbv iota. f_equal.
    fold (time_parts (rest ++ q)).
    rewrite (time_parts_lead _ _ R). apply (time_parts_one _ Hq Nq). }
  unfold normalizeTime. rewrite P.
  rewrite (normalizeSingleTime_trim _ Ha), (normalizeSingleTime_trim _ Hb).
  reflexivity.
Qed.

Lemma normalizeTime_separator_witness :
  normalizeTime (str "9:00 AM -- - 5:00 PM") = Ok (str "09:00-17:00").
Proof.
  exact (@normalizeTime_separator (str "9:00 AM") (str " -- - ")
           (str "5:00 PM") (str "09:00") (str "17:00")
           eq_refl eq_refl eq_refl eq_refl).
Defined.

(** ** What the pre-save hook of the Event model lets through *)

Lemma check_fields_inv fs doc :
  check_fields fs doc = Ok tt ->
  forall f, In f fs -> blank (get f doc) = false.
Proof.
  induction fs as [|g rest IH]; intros H f Hf; [destruct Hf|].
  simpl in H. destruct (blank (get g doc)) eqn:B; [discriminate|].
  destruct Hf as [<- | Hf]; [exact B | apply (IH H _ Hf)].
Qed.

Lemma check_fields_thrown fs doc e :
  check_fields fs doc = Throw e ->
  exists f, In f fs /\ e = err_field f /\ blank (get f doc) = true.
Proof.
  induction fs as [|g rest IH]; intros H; [discriminate|].
  simpl in H. destruct (blank (get g doc)) eqn:B.
  - inversion H; subst. exists g. split; [left; reflexivity|]. auto.
  - destruct (IH H) as (f & Hf & E & Bf). exists f.
    split; [right; exact Hf|]. auto.
Qed.

Lemma check_items_inv msg items :
  check_items msg items = Ok tt -> existsb blank items = false.
Proof.
  induction items as [|i rest IH]; intros H; [reflexivity|].
  simpl in H. simpl. destruct (blank i); [discriminate|]. apply IH, H.
Qed.

Lemma err_field_inj f g : err_field f = err_field g -> f = g.
Proof.
  intros H. destruct f, g; try reflexivity; vm_compute in H; discriminate.
Qed.

Section HookFacts.

Variable TimeValue : Type.
Variable Date_parse : jsstring -> option TimeValue.
Variable toISOString : TimeValue -> jsstring.

(** The document after the first three steps of the hook. *)
Lemma preSave_ok_inv (isModified : field -> bool) doc doc' :
  EventModel.preSave Date_parse toISOString isModified doc = Ok doc' ->
  exists t tm,
    Date_parse (date doc) = Some t /\
    normalizeTime (time doc) = Ok tm /\
    doc' = set_time
             (set_date (if isModified Ftitle
                        then set_slug doc (slugifyTitle (title doc))
                        else doc) (toISOString t)) tm /\
    check_fields requiredStringFields doc' = Ok tt /\
    check_items (str "Agenda items cannot be empty.") (agenda doc') = Ok tt /\
    check_items (str "Tags cannot be empty.") (tags doc') = Ok tt.
Proof.
  unfold EventModel.preSave. rewrite preSave_date_step.
  destruct (Date_parse (date doc)) as [t|]; [|discriminate].
  set (d1 := if isModified Ftitle then _ else doc).
  assert (T1 : time d1 = time doc).
  { unfold d1. destruct (isModified Ftitle); reflexivity. }
  cbn [time set_date]. rewrite T1.
  destruct (normalizeTime (time doc)) as [tm|e]; [|discriminate].
  cbn [bind].
  destruct (check_fields _ _) as [[]|e1] eqn:C1; [|discriminate].
  cbn [bind].
  destruct (check_items _ (agenda _)) as [[]|e2] eqn:C2; [|discriminate].
  cbn [bind].
  destruct (check_items _ (tags _)) as [[]|e3] eqn:C3; [|discriminate].
  cbn [bind]. intros H; inversion H; subst doc'.
  exists t, tm. repeat split; assumption.
Qed.

Lemma preSave_ok_intro (isModified : field -> bool) doc t tm :
  Date_parse (date doc) = Some t ->
  normalizeTime (time doc) = Ok tm ->
  let doc' := set_time
                (set_date (if isModified Ftitle
                           then set_slug doc (slugifyTitle (title doc))
                           else doc) (toISOString t)) tm in
  check_fields requiredStringFields doc' = Ok tt ->
  check_items (str "Agenda items cannot be empty.") (agenda doc') = Ok tt ->
  check_items (str "Tags cannot be empty.") (tags doc') = Ok tt ->
  EventModel.preSave Date_parse toISOString isModified doc = Ok doc'.
Proof.
  intros D T doc' C1 C2 C3. unfold EventModel.preSave.
  rewrite preSave_date_step, D.
  assert (T1 : time (if isModified Ftitle
                     then set_slug doc (slugifyTitle (title doc))
                     else doc) = time doc).
  { destruct (isModified Ftitle); reflexivity. }
  cbn [time set_date]. rewrite T1, T. cbn [bind].
  fold doc'. rewrite C1. cbn [bind]. rewrite C2. cbn [bind]. rewrite C3.
  reflexivity.
Qed.

(** X13.  The hook regenerates the slug only when the title is modified,
    and then from the title as it is; besides the slug, the date and the
    time it leaves every path of the document as it found it (the title
    itself is not trimmed, the lists are untouched). *)
Theorem preSave_slug_and_frame (isModified : field -> bool)
  (doc doc' : Event) :
  EventModel.preSave Date_parse toISOString isModified doc = Ok doc' ->
  slug doc' = (if isModified Ftitle then slugifyTitle (title doc)
               else slug doc) /\
  (forall f, f <> Fslug -> f <> Fdate -> f <> Ftime ->
     get f doc' = get f doc) /\
  agenda doc' = agenda doc /\ tags doc' = tags doc.
Proof.
  intros H. apply preSave_ok_inv in H.
  destruct H as (t & tm & _ & _ & -> & _).
  destruct (isModified Ftitle); (split; [reflexivity|]);
    (split; [|split; reflexivity]);
    intros f N1 N2 N3; destruct f; try reflexivity; congruence.
Qed.

(** X14.  The time a document leaves the hook with is the normal form of
    the time it came with: [HH:mm] or [HH:mm-HH:mm], on which
    [normalizeTime] changes nothing. *)
Theorem preSave_time (isModified : field -> bool) (doc doc' : Event) :
  EventModel.preSave Date_parse toISOString isModified doc = Ok doc' ->
  normalizeTime (time doc) = Ok (time doc') /\
  canonical (time doc') /\
  normalizeTime (time doc') = Ok (time doc').
Proof.
  intros H. apply preSave_ok_inv in H.
  destruct H as (t & tm & _ & T & -> & _). cbn [time set_time].
  split; [exact T|]. pose proof (normalizeTime_ok _ T) as C.
  split; [exact C | apply canonical_fixed, C].
Qed.

(** X15.  No blank text passes the hook: in a document it lets through,
    none of the eleven required string paths, no agenda item and no tag is
    empty or made of white space only; so a document with such a title,
    description, overview, image, venue, location, mode, audience,
    organizer, agenda item or tag is never let through. *)
Theorem preSave_not_blank (isModified : field -> bool) (doc doc' : Event) :
  EventModel.preSave Date_parse toISOString isModified doc = Ok doc' ->
  (forall f, In f requiredStringFields -> blank (get f doc') = false) /\
  existsb blank (agenda doc') = false /\
  existsb blank (tags doc') = false /\
  (forall f, In f requiredStringFields -> f <> Fdate -> f <> Ftime ->
     blank (get f doc) = false) /\
  existsb blank (agenda doc) = false /\
  existsb blank (tags doc) = false.
Proof.
  intros H. apply preSave_ok_inv in H.
  destruct H as (t & tm & _ & _ & E & C1 & C2 & C3).
  pose proof (check_fields_inv _ _ C1) as F.
  apply check_items_inv in C2, C3.
  split; [exact F|]. split; [exact C2|]. split; [exact C3|].
  subst doc'. split; [|split].
  - intros f Hf N1 N2. specialize (F f Hf).
    assert (Ns : f <> Fslug).
    { intros ->. simpl in Hf.
      repeat (destruct Hf as [Hf | Hf]; [discriminate|]). exact Hf. }
    destruct (isModified Ftitle), f; cbn in F |- *; try exact F; congruence.
  - destruct (isModified Ftitle); exact C2.
  - destruct (isModified Ftitle); exact C3.
Qed.

Lemma throw_inj (A : Type) (a b : jsstring) :
  @Throw A a = Throw b -> a = b.
Proof. congruence. Qed.

Lemma head_char_differs (a b : jsstring) :
  nth 0 a " " <> nth 0 b " " -> a <> b.
Proof. intros N E. apply N. rewrite E. reflexivity. Qed.

(** X16.  The entry [time] of the emptiness loop is dead: the hook never
    throws [Field "time" cannot be empty.], since by the time the loop
    runs the time is in normal form; and it throws the same error for
    [date] only if the host renders a parsed date as a blank string. *)
Theorem preSave_time_never_blank (isModified : field -> bool) (doc : Event) :
  EventModel.preSave Date_parse toISOString isModified doc
    <> Throw (err_field Ftime) /\
  ((forall t, blank (toISOString t) = false) ->
   EventModel.preSave Date_parse toISOString isModified doc
    <> Throw (err_field Fdate)).
Proof.
  assert (K : forall g, g = Ftime \/ g = Fdate ->
            EventModel.preSave Date_parse toISOString isModified doc
              = Throw (err_field g) ->
            exists t tm, normalizeTime (time doc) = Ok tm /\
              blank (get g (set_time
                (set_date (if isModified Ftitle
                           then set_slug doc (slugifyTitle (title doc))
                           else doc) (toISOString t)) tm)) = true).
  { intros g Hg. unfold EventModel.preSave. rewrite preSave_date_step.
    destruct (Date_parse (date doc)) as [t|].
    2:{ intros H. exfalso. apply throw_inj in H. revert H.
        apply head_char_differs. destruct Hg as [-> | ->]; discriminate. }
    set (d1 := if isModified Ftitle then _ else doc).
    assert (T1 : time d1 = time doc).
    { unfold d1. destruct (isModified Ftitle); reflexivity. }
    cbn [time set_date]. rewrite T1.
    destruct (normalizeTime (time doc)) as [tm|e] eqn:T; cbn [bind].
    2:{ intros H. exfalso. apply throw_inj in H. subst e.
        apply normalizeTime_throw in T.
        destruct T as [(p & T) | T]; revert T; apply head_char_differs;
          destruct Hg as [-> | ->]; discriminate. }
    destruct (check_fields _ _) as [[]|e1] eqn:C1; cbn [bind].
    2:{ intros H. apply throw_inj in H. subst e1.
        apply check_fields_thrown in C1. destruct C1 as (f & _ & E & B).
        apply err_field_inj in E. subst f. exists t, tm. auto. }
    destruct (check_items _ (agenda _)) as [[]|e2] eqn:C2; cbn [bind].
    2:{ intros H. exfalso. apply throw_inj in H. subst e2.
        apply check_items_throw in C2. revert C2. apply head_char_differs.
        destruct Hg as [-> | ->]; discriminate. }
    destruct (check_items _ (tags _)) as [[]|e3] eqn:C3; cbn [bind];
      [discriminate|].
    intros H. exfalso. apply throw_inj in H. subst e3.
    apply check_items_throw in C3. revert C3. apply head_char_differs.
    destruct Hg as [-> | ->]; discriminate. }
  split.
  - intros H. destruct (K Ftime (or_introl eq_refl) H) as (t & tm & T & B).
    cbn [get time set_time] in B.
    rewrite (canonical_not_blank (normalizeTime_ok _ T)) in B. discriminate.
  - intros N H. destruct (K Fdate (or_intror eq_refl) H) as (t & tm & T & B).
    cbn [get date set_time set_date] in B. rewrite N in B. discriminate.
Qed.

(** X17.  Saving twice changes nothing more.  Provided the host parses
    its own ISO rendering of a date back to a date with the same rendering,
    a document that the hook let through is let through again unchanged,
    as long as the title is not marked as modified anew. *)
Theorem preSave_idempotent (isModified isModified' : field -> bool)
  (doc doc' : Event) :
  (forall t, exists t', Date_parse (toISOString t) = Some t' /\
                        toISOString t' = toISOString t) ->
  (isModified' Ftitle = true -> isModified Ftitle = true) ->
  EventModel.preSave Date_parse toISOString isModified doc = Ok doc' ->
  EventModel.preSave Date_parse toISOString isModified' doc' = Ok doc'.
Proof.
  intros RT M H. apply preSave_ok_inv in H.
  destruct H as (t & tm & D & T & E & C1 & C2 & C3).
  destruct (RT t) as (t' & D' & I').
  assert (Dd : date doc' = toISOString t) by (subst doc'; reflexivity).
  assert (Td : time doc' = tm) by (subst doc'; reflexivity).
  assert (Fix : set_time
            (set_date (if isModified' Ftitle
                       then set_slug doc' (slugifyTitle (title doc'))
                       else doc') (toISOString t')) tm = doc').
  { rewrite I'. destruct (isModified' Ftitle) eqn:M'.
    - rewrite (M eq_refl) in E. subst doc'. reflexivity.
    - subst doc'. destruct (isModified Ftitle); reflexivity. }
  rewrite <- Fix at 2.
  apply preSave_ok_intro.
  - rewrite Dd. exact D'.
  - rewrite Td. apply canonical_fixed, (normalizeTime_ok _ T).
  - rewrite Fix. exact C1.
  - rewrite Fix. exact C2.
  - rewrite Fix. exact C3.
Qed.

End HookFacts.

Lemma preSave_slug_and_frame_witness :
  exists doc',
    EventModel.preSave SampleHost.Date_parse SampleHost.toISOString
      (fun _ => true) SampleHost.sample_event = Ok doc' /\
    slug doc' = [] /\ agenda doc' = [str "Intro"].
Proof.
  eexists. split; [reflexivity|].
  pose proof (@preSave_slug_and_frame _ SampleHost.Date_parse
                SampleHost.toISOString (fun _ => true)
                SampleHost.sample_event _ eq_refl) as (S & _ & A & _).
  split; [exact S | exact A].
Defined.

Lemma preSave_time_witness :
  exists doc',
    EventModel.preSave SampleHost.Date_parse SampleHost.toISOString
      (fun _ => true) SampleHost.sample_event = Ok doc' /\
    normalizeTime (str "10:00 AM - 12:30 PM") = Ok (time doc').
Proof.
  eexists. split; [reflexivity|].
  exact (proj1 (@preSave_time _ SampleHost.Date_parse
                  SampleHost.toISOString (fun _ => true)
                  SampleHost.sample_event _ eq_refl)).
Defined.

Lemma preSave_not_blank_witness :
  exists doc',
    EventModel.preSave SampleHost.Date_parse SampleHost.toISOString
      (fun _ => true) SampleHost.sample_event = Ok doc' /\
    existsb blank (agenda doc') = false.
Proof.
  eexists. split; [reflexivity|].
  exact (proj1 (proj2 (@preSave_not_blank _ SampleHost.Date_parse
                         SampleHost.toISOString (fun _ => true)
                         SampleHost.sample_event _ eq_refl))).
Defined.

Lemma preSave_time_never_blank_witness :
  (forall t, blank (SampleHost.toISOString t) = false) /\
  EventModel.preSave SampleHost.Date_parse SampleHost.toISOString
    (fun _ => true) SampleHost.sample_event <> Throw (err_field Fdate).
Proof.
  split; [intros t; reflexivity|].
  exact (proj2 (@preSave_time_never_blank _ SampleHost.Date_parse
                  SampleHost.toISOString (fun _ => true)
                  SampleHost.sample_event) (fun t => eq_refl)).
Defined.

Lemma preSave_idempotent_witness :
  exists doc',
    EventModel.preSave RoundTripHost.Date_parse RoundTripHost.toISOString
      (fun _ => true) SampleHost.sample_event = Ok doc' /\
    EventModel.preSave RoundTripHost.Date_parse RoundTripHost.toISOString
      (fun _ => false) doc' = Ok doc'.
Proof.
  eexists. split; [reflexivity|].
  apply (@preSave_idempotent _ RoundTripHost.Date_parse
           RoundTripHost.toISOString (fun _ => true) (fun _ => false)
           SampleHost.sample_event).
  - intros t. exists 1768435200000%Z. split; reflexivity.
  - discriminate.
  - reflexivity.
Defined.

(** *** Empty lists: the schema validators and the hook *)

Lemma get_without_lists f doc : get f (without_lists doc) = get f doc.
Proof. destruct f; reflexivity. Qed.

Lemma check_fields_without_lists fs doc :
  check_fields fs (without_lists doc) = check_fields fs doc.
Proof.
  induction fs as [|f rest IH]; [reflexivity|]. cbn [check_fields].
  rewrite get_without_lists, IH. reflexivity.
Qed.

Section ListFacts.

Variable TimeValue : Type.
Variable Date_parse : jsstring -> option TimeValue.
Variable toISOString : TimeValue -> jsstring.

(** X18.  That the agenda and the tags are not empty is enforced by the
    validators of the schema alone: a save of a document with an empty
    agenda or no tag throws, whatever its other paths hold, whereas the
    pre-save hook by itself lets a document through just as well with both
    lists emptied. *)
Theorem saveEvent_empty_lists (isModified : field -> bool) (doc : Event) :
  (agenda doc = [] \/ tags doc = [] ->
   exists e, saveEvent Date_parse toISOString isModified doc = Throw e) /\
  (forall doc',
     EventModel.preSave Date_parse toISOString isModified doc = Ok doc' ->
     EventModel.preSave Date_parse toISOString isModified (without_lists doc)
       = Ok (without_lists doc')).
Proof.
  split.
  - intros H. unfold saveEvent, EventModel.validate.
    destruct (validate_paths all_fields doc) as [[]|e]; cbn [bind]; [|eauto].
    unfold validate_array at 1.
    destruct (agenda doc) as [|a l] eqn:A.
    + cbn [length Nat.ltb Nat.leb]. cbn [bind]. eauto.
    + destruct H as [H | H]; [discriminate|]. cbn [length].
      change (0 <? S (length l)) with true. cbv iota.
      destruct (forallb _ (a :: l)); cbn [bind]; [|eauto].
      unfold validate_array. rewrite H. cbn [length Nat.ltb Nat.leb].
      cbn [bind]. eauto.
  - intros doc' H. apply preSave_ok_inv in H.
    destruct H as (t & tm & D & T & E & C1 & _ & _).
    assert (F : without_lists doc' =
                set_time
                  (set_date (if isModified Ftitle
                             then set_slug (without_lists doc)
                                    (slugifyTitle (title (without_lists doc)))
                             else without_lists doc) (toISOString t)) tm).
    { subst doc'. destruct (isModified Ftitle); reflexivity. }
    rewrite F. apply preSave_ok_intro; try assumption.
    + rewrite <- F, check_fields_without_lists. exact C1.
    + rewrite <- F. reflexivity.
    + rewrite <- F. reflexivity.
Qed.

End ListFacts.

Lemma saveEvent_empty_lists_witness :
  (exists e,
     saveEvent SampleHost.Date_parse SampleHost.toISOString (fun _ => true)
       (without_lists SampleHost.sample_event) = Throw e) /\
  (exists doc',
     EventModel.preSave SampleHost.Date_parse SampleHost.toISOString
       (fun _ => true) (without_lists SampleHost.sample_event) = Ok doc').
Proof.
  split.
  - exact (proj1 (@saveEvent_empty_lists _ SampleHost.Date_parse
                    SampleHost.toISOString (fun _ => true)
                    (without_lists SampleHost.sample_event))
                 (or_introl eq_refl)).
  - eexists.
    exact (proj2 (@saveEvent_empty_lists _ SampleHost.Date_parse
                    SampleHost.toISOString (fun _ => true)
                    SampleHost.sample_event) _ eq_refl).
Defined.

(** ** The Booking model: stored e-mail addresses and saved bookings *)

Lemma lower_char_idem c : lower_char (lower_char c) = lower_char c.
Proof. all_chars c; reflexivity. Qed.

Lemma toLowerCase_idem s : toLowerCase (toLowerCase s) = toLowerCase s.
Proof.
  unfold toLowerCase. rewrite map_map. apply map_ext, lower_char_idem.
Qed.

Lemma email_setters_idem raw :
  email_setters (email_setters raw) = email_setters raw.
Proof.
  unfold email_setters. rewrite trim_lower, trim_idem. apply toLowerCase_idem.
Qed.

Lemma validate_email_ok raw v :
  validate_email raw = Ok v ->
  v = email_setters raw /\ shape_of_code v.
Proof.
  unfold validate_email. destruct (_ =? 0); [discriminate|].
  destruct (email_validator (email_setters raw)) eqn:V; [|discriminate].
  intros H; inversion H; subst. split; [reflexivity|].
  apply email_validator_shape, V.
Qed.

(** X19.  The address that validation returns is the input trimmed and
    lower-cased, and it is stable: it has no white space at its ends, it is
    its own lower case, and validating it again returns it unchanged. *)
Theorem validate_email_stable (raw v : jsstring) :
  validate_email raw = Ok v ->
  v = toLowerCase (trim raw) /\
  trim v = v /\ toLowerCase v = v /\
  validate_email v = Ok v.
Proof.
  intros H. pose proof H as H0. apply validate_email_ok in H.
  destruct H as [E _]. split; [exact E|].
  assert (S : email_setters v = v) by (rewrite E; apply email_setters_idem).
  split; [|split].
  - rewrite E. unfold email_setters. rewrite trim_lower, trim_idem.
    reflexivity.
  - rewrite E. apply toLowerCase_idem.
  - revert H0. unfold validate_email. rewrite S, <- E. auto.
Qed.

Lemma validate_email_stable_witness :
  validate_email (str "  Dev@Example.COM ") = Ok (str "dev@example.com") /\
  validate_email (str "dev@example.com") = Ok (str "dev@example.com").
Proof.
  split; [reflexivity|].
  exact (proj2 (proj2 (proj2 (@validate_email_stable
           (str "  Dev@Example.COM ") (str "dev@example.com") eq_refl)))).
Defined.

Lemma not_space_at_facts s :
  forallb not_space_at s = true ->
  count_occ ascii_dec s "@" = 0 /\ existsb is_space s = false.
Proof.
  induction s as [|c t IH]; intros H; [split; reflexivity|].
  simpl in H. apply andb_true_iff in H. destruct H as [Hc Ht].
  destruct (IH Ht) as [C S]. unfold not_space_at, cls_not, cls_or in Hc.
  apply negb_true_iff, orb_false_iff in Hc. destruct Hc as [Hs Ha].
  split.
  - cbn [count_occ]. destruct (ascii_dec c "@") as [-> | N]; [|exact C].
    rewrite cls_char_refl in Ha. discriminate.
  - cbn [existsb]. rewrite Hs. exact S.
Qed.

(** X20.  An address that passes validation holds exactly one [@], no
    white space and at least five characters, a dot among them after the
    [@]. *)
Theorem validate_email_accepts (raw v : jsstring) :
  validate_email raw = Ok v ->
  count_occ ascii_dec v "@" = 1 /\
  existsb is_space v = false /\
  5 <= length v /\
  exists l r, v = l ++ "@" :: r /\ In "." r.
Proof.
  intros H. apply validate_email_ok in H.
  destruct H as (_ & l & d & t & -> & Nl & Nd & Nt & Hl & Hd & Ht).
  apply not_space_at_facts in Hl, Hd, Ht.
  destruct Hl as [Cl Sl], Hd as [Cd Sd], Ht as [Ct St].
  split; [|split; [|split]].
  - rewrite count_occ_app. cbn [count_occ].
    destruct (ascii_dec "@" "@") as [_|N]; [|congruence].
    rewrite count_occ_app. cbn [count_occ].
    destruct (ascii_dec "." "@") as [N|_]; [discriminate|]. lia.
  - rewrite existsb_app. cbn [existsb]. rewrite existsb_app. cbn [existsb].
    rewrite Sl, Sd, St. reflexivity.
  - rewrite length_app. cbn [length]. rewrite length_app. cbn [length].
    destruct l; [congruence|]. destruct d; [congruence|].
    destruct t; [congruence|]. simpl. lia.
  - exists l, (d ++ "." :: t). split; [reflexivity|].
    apply in_or_app. right. left. reflexivity.
Qed.

Lemma validate_email_accepts_witness :
  validate_email (str " A@B.io ") = Ok (str "a@b.io") /\
  count_occ ascii_dec (str "a@b.io") "@" = 1.
Proof.
  split; [reflexivity|].
  exact (proj1 (@validate_email_accepts (str " A@B.io ") (str "a@b.io")
                  eq_refl)).
Defined.

(** *** Addresses up to case and surrounding white space *)

(** X21.  Validation sees an address only up to letter case and
    surrounding white space: two inputs with the same lower case, one of
    them wrapped in white space, are accepted or rejected alike, and when
    accepted give the same stored address. *)
Theorem validate_email_insensitive (lead a b trail : jsstring) :
  toLowerCase a = toLowerCase b ->
  all_space lead = true -> all_space trail = true ->
  validate_email (lead ++ a ++ trail) = validate_email b.
Proof.
  intros E Hl Ht.
  assert (S : email_setters (lead ++ a ++ trail) = email_setters b).
  { unfold email_setters. rewrite (trim_wrapped _ _ _ Hl Ht).
    rewrite <- !trim_lower, E. reflexivity. }
  unfold validate_email. rewrite S. reflexivity.
Qed.

Lemma validate_email_insensitive_witness :
  validate_email (str "  Dev@Example.COM ")
  = validate_email (str "dev@EXAMPLE.com").
Proof.
  exact (@validate_email_insensitive (str "  ") (str "Dev@Example.COM")
           (str "dev@EXAMPLE.com") (str " ") eq_refl eq_refl eq_refl).
Defined.

(** *** [save] and the store *)

Lemma validate_result doc st :
  BookingModel.validate doc st = (fst (BookingModel.validate doc st), st).
Proof.
  rewrite <- (validate_store doc st) at 3.
  destruct (BookingModel.validate doc st); reflexivity.
Qed.

Lemma existsb_eqb_In x l : existsb (Nat.eqb x) l = true <-> In x l.
Proof.
  rewrite existsb_exists. split.
  - intros (y & Hy & E). apply Nat.eqb_eq in E. subst. exact Hy.
  - intros H. exists x. split; [exact H | apply Nat.eqb_refl].
Qed.

(** The outcome of [save] in each case. *)
Lemma save_cases doc st :
  (exists e, fst (BookingModel.validate doc st) = Throw e /\
             save doc st = (Throw e, st)) \/
  (fst (BookingModel.validate doc st) = Ok tt /\
   isModified doc PeventId = true /\
   ~ In (eventId (fields doc)) (events st) /\
   save doc st = (Throw err_reference, logged (eventId (fields doc)) st)) \/
  (fst (BookingModel.validate doc st) = Ok tt /\
   (isModified doc PeventId = true -> In (eventId (fields doc)) (events st)) /\
   fst (save doc st) = Ok tt /\
   events (snd (save doc st)) = events st /\
   bookings (snd (save doc st)) =
     if isNew doc then (_id doc, fields doc) :: bookings st
     else map (fun b => if fst b =? _id doc then (_id doc, fields doc) else b)
              (bookings st)).
Proof.
  unfold save, bindDB. rewrite (validate_result doc st).
  destruct (fst (BookingModel.validate doc st)) as [[]|e]; cbn [fst snd].
  2:{ left. eauto. }
  right. destruct (isModified doc PeventId) eqn:M.
  - rewrite (preSave_checked _ _ M).
    destruct (existsb _ _) eqn:X.
    + right. apply existsb_eqb_In in X. cbn [fst snd commit events bookings logged].
      auto.
    + left. split; [reflexivity|]. split; [reflexivity|].
      split; [|reflexivity]. intros I. apply existsb_eqb_In in I. congruence.
  - rewrite (preSave_skipped _ _ M). right.
    cbn [fst snd commit events bookings].
    split; [reflexivity|]. split; [discriminate|]. auto.
Qed.

(** X22.  Saving a booking whose [eventId] is modified (a new booking
    always is) keeps the store referentially sound: if every stored booking
    pointed to a stored event before the save, so it is after, whether the
    save succeeds or throws; and the save never touches the events. *)
Theorem save_keeps_references (doc : BookingDocument) (st : Store) :
  referential st ->
  isModified doc PeventId = true ->
  referential (snd (save doc st)) /\
  events (snd (save doc st)) = events st.
Proof.
  intros R M.
  destruct (save_cases doc st)
    as [(e & _ & ->) | [(_ & _ & _ & ->) | (_ & I & _ & Ev & Bk)]].
  - split; [exact R | reflexivity].
  - split; [exact R | reflexivity].
  - split; [|exact Ev]. intros id b Hb. rewrite Ev. rewrite Bk in Hb.
    destruct (isNew doc).
    + destruct Hb as [E | Hb]; [|apply (R _ _ Hb)].
      inversion E; subst. apply I, M.
    + apply in_map_iff in Hb. destruct Hb as ([id0 b0] & E & Hb).
      cbn [fst] in E. destruct (id0 =? _id doc).
      * inversion E; subst. apply I, M.
      * inversion E; subst. apply (R _ _ Hb).
Qed.

Lemma save_keeps_references_witness :
  referential SampleStore.store /\
  referential (snd (save (newBooking 1 7 (str "dev@example.com"))
                      SampleStore.store)) /\
  bookings (snd (save (newBooking 1 7 (str "dev@example.com"))
                   SampleStore.store))
  = [(1, {| eventId := 7; email := str "dev@example.com" |})].
Proof.
  assert (R : referential SampleStore.store) by (intros id b []).
  split; [exact R|]. split; [|reflexivity].
  exact (proj1 (@save_keeps_references
                  (newBooking 1 7 (str "dev@example.com"))
                  SampleStore.store R eq_refl)).
Defined.

(** X23.  A save that throws writes nothing: the stored bookings and
    events are as before.  When it is validation that fails, the hook does
    not run at all, so that no existence query is issued either. *)
Theorem save_failure_writes_nothing (doc : BookingDocument) (st : Store)
  (e : jsstring) :
  (fst (save doc st) = Throw e ->
     bookings (snd (save doc st)) = bookings st /\
     events (snd (save doc st)) = events st) /\
  (fst (BookingModel.validate doc st) = Throw e ->
     save doc st = (Throw e, st)).
Proof.
  destruct (save_cases doc st)
    as [(e' & V & S) | [(V & _ & _ & S) | (V & _ & S & _)]].
  - rewrite S. split; [auto|]. rewrite V. intros H; inversion H; reflexivity.
  - rewrite S. split; [auto|]. rewrite V. discriminate.
  - rewrite S, V. split; discriminate.
Qed.

Lemma save_failure_writes_nothing_witness :
  save (newBooking 1 7 (str "dev@example")) SampleStore.store
  = (Throw (str "Invalid email address."), SampleStore.store).
Proof.
  exact (proj2 (@save_failure_writes_nothing
                  (newBooking 1 7 (str "dev@example")) SampleStore.store
                  (str "Invalid email address.")) eq_refl).
Defined.

(** X24.  A new booking is saved exactly when its address, trimmed and
    lower-cased, has the shape of [EMAIL_REGEX] and its event exists; what
    is stored then is the event identifier with the address trimmed and
    lower-cased, in front of the bookings already there. *)
Theorem save_new_booking (id e : ObjectId) (raw : jsstring) (st : Store) :
  (fst (save (newBooking id e raw) st) = Ok tt <->
   shape_of_code (toLowerCase (trim raw)) /\ In e (events st)) /\
  (fst (save (newBooking id e raw) st) = Ok tt ->
   bookings (snd (save (newBooking id e raw) st)) =
     (id, {| eventId := e; email := toLowerCase (trim raw) |})
       :: bookings st).
Proof.
  assert (V : fst (BookingModel.validate (newBooking id e raw) st) = Ok tt <->
              shape_of_code (toLowerCase (trim raw))).
  { unfold BookingModel.validate, newBooking. cbn [fields email].
    pose proof (email_validator_shape raw) as S.
    unfold email_setters in *.
    destruct (length (toLowerCase (trim raw)) =? 0) eqn:L.
    - apply Nat.eqb_eq in L. split; [discriminate|]. intros H.
      apply shape_nonempty in H.
      destruct (toLowerCase (trim raw)); [congruence | discriminate].
    - destruct (email_validator (toLowerCase (trim raw))).
      + cbn [fst ret]. tauto.
      + cbn [fst throw]. split; [discriminate|]. intros H. apply S in H.
        discriminate. }
  destruct (save_cases (newBooking id e raw) st)
    as [(e' & Ve & S) | [(Vo & _ & N & S) | (Vo & I & S & _ & Bk)]].
  - rewrite S. cbn [fst]. split; [|discriminate].
    split; [discriminate|]. intros [H _]. apply V in H. congruence.
  - rewrite S. cbn [fst]. split; [|discriminate].
    split; [discriminate|]. intros [_ H]. contradiction.
  - split; [|intros _; exact Bk].
    split; [|intros _; exact S]. intros _.
    split; [apply V, Vo | apply I; reflexivity].
Qed.

Lemma save_new_booking_witness :
  fst (save (newBooking 3 11 (str " Dev@Example.COM ")) SampleStore.store)
  = Ok tt /\
  bookings (snd (save (newBooking 3 11 (str " Dev@Example.COM "))
                   SampleStore.store))
  = [(3, {| eventId := 11; email := str "dev@example.com" |})].
Proof.
  split; [reflexivity|].
  exact (proj2 (@save_new_booking 3 11 (str " Dev@Example.COM ")
                  SampleStore.store) eq_refl).
Defined.

(** ** The connection manager: the first call and a failed attempt *)

(** A loaded cache without a promise has served no call yet. *)
Lemma reachable_uncalled w :
  reachable w ->
  forall c, mongooseCache w = Some c -> promise c = None -> calls w = [].
Proof.
  induction 1 as [|w w' R IH S]; [discriminate|].
  pose proof (reachable_invariant R) as [_ Iu Ip _ _].
  destruct S as [w | w w' C | p o w w' C | i w w' C].
  - unfold load. cbn [mongooseCache calls]. intros c E Hc.
    destruct (mongooseCache w) as [c0|] eqn:M.
    + inversion E; subst. apply (IH _ eq_refl Hc).
    + apply (Iu eq_refl).
  - unfold call in C. destruct (mongooseCache w) as [c0|] eqn:M;
      [|discriminate].
    specialize (Ip _ eq_refl).
    destruct (conn c0) as [h|] eqn:Ec.
    + inversion C; subst. cbn [mongooseCache calls]. intros c E Hc.
      inversion E; subst. rewrite Hc in Ip. destruct Ip as [_ N]. congruence.
    + destruct (promise c0) as [p|] eqn:Ep; inversion C; subst;
        cbn [mongooseCache calls]; intros c E Hc; inversion E; subst;
        cbn [promise] in Hc; congruence.
  - unfold settle in C.
    destruct (nth_error (connects w) p) as [[]|]; try discriminate.
    inversion C; subst. cbn [mongooseCache calls]. exact IH.
  - unfold resume in C.
    destruct (nth_error (calls w) i) as [[q| |]|] eqn:Ei; try discriminate.
    destruct (mongooseCache w) as [c0|] eqn:M; [|discriminate].
    assert (N : promise c0 <> None).
    { intros Hc. rewrite (IH _ eq_refl Hc) in Ei. destruct i; discriminate. }
    destruct (nth_error (connects w) q) as [[]|]; try discriminate;
      inversion C; subst; cbn [mongooseCache calls]; intros c E Hc;
      inversion E; subst; cbn [promise] in Hc; congruence.
Qed.

(** X25.  As soon as one call of [connectToDatabase] has been made there
    is exactly one connection attempt, and it stays the one the cache
    holds through every later call and module reload. *)
Theorem connectToDatabase_first_call (w : Process) :
  reachable w -> calls w <> [] ->
  length (connects w) = 1 /\
  exists c, mongooseCache w = Some c /\ promise c = Some 0.
Proof.
  intros R N. pose proof (reachable_invariant R) as [_ Iu Ip _ _].
  destruct (mongooseCache w) as [c|] eqn:M.
  - specialize (Ip _ eq_refl). destruct (promise c) as [p|] eqn:P.
    + destruct Ip as [-> L]. split; [exact L|]. exists c. auto.
    + exfalso. apply N. apply (reachable_uncalled R M P).
  - exfalso. apply N. apply (Iu eq_refl).
Qed.

Lemma connectToDatabase_first_call_witness :
  exists w, run [ActLoad; ActCall; ActLoad; ActCall] start = Some w /\
    calls w = [Awaiting 0; Awaiting 0] /\ length (connects w) = 1.
Proof.
  eexists. split; [reflexivity|]. split; [reflexivity|].
  apply (@connectToDatabase_first_call _
           (@run_reachable [ActLoad; ActCall; ActLoad; ActCall] start _
              reach_start eq_refl)).
  discriminate.
Defined.

(** What holds in a state whose attempt was rejected. *)
Lemma rejected_state w :
  reachable w -> nth_error (connects w) 0 = Some Rejected ->
  connects w = [Rejected] /\
  (forall i h, nth_error (calls w) i <> Some (Returned h)) /\
  (exists c, mongooseCache w = Some c /\ conn c = None /\
             promise c = Some 0) /\
  (forall i p, nth_error (calls w) i = Some (Awaiting p) ->
     exists w', resume i w = Some w' /\
                nth_error (calls w') i = Some Thrown /\
                connects w' = connects w).
Proof.
  intros R X. pose proof (reachable_invariant R) as [Ia Iu Ip Ic Il].
  assert (E : connects w = [Rejected]).
  { destruct (connects w) as [|a [|b l]]; simpl in *; try discriminate;
      [congruence | lia]. }
  assert (Cache : exists c, mongooseCache w = Some c /\ conn c = None /\
                            promise c = Some 0).
  { destruct (mongooseCache w) as [c|] eqn:M.
    - exists c. split; [reflexivity|]. split.
      + destruct (conn c) as [h|] eqn:Ec; [|reflexivity].
        rewrite (Ic _ _ eq_refl Ec) in X. discriminate.
      + specialize (Ip _ eq_refl). destruct (promise c) as [p|].
        * destruct Ip as [-> _]. reflexivity.
        * destruct Ip as [Ip _]. rewrite Ip in E. discriminate.
    - destruct (Iu eq_refl) as [Ec _]. rewrite Ec in E. discriminate. }
  split; [exact E|]. split; [|split; [exact Cache|]].
  - intros i h Ei. specialize (Il i). rewrite Ei, X in Il. discriminate.
  - intros i p Ei. pose proof (Il i) as Li. rewrite Ei in Li.
    destruct Li as [-> _]. destruct Cache as (c & M & _).
    unfold resume. rewrite Ei, M, X. eexists. split; [reflexivity|].
    cbn [calls connects]. split; [|reflexivity].
    apply nth_error_update_same. apply (nth_error_lt _ _ Ei).
Qed.

Lemma rejected_step w w' :
  reachable w -> nth_error (connects w) 0 = Some Rejected ->
  step w w' -> connects w' = connects w.
Proof.
  intros R X S. destruct (rejected_state R X) as (E & _ & (c & M & Ec & P) & _).
  destruct S as [w | w w' C | p o w w' C | i w w' C].
  - reflexivity.
  - unfold call in C. rewrite M, Ec, P in C. inversion C; reflexivity.
  - unfold settle in C. rewrite E in C.
    destruct p as [|[|p]]; discriminate.
  - unfold resume in C.
    destruct (nth_error (calls w) i) as [[q| |]|]; try discriminate.
    rewrite M in C.
    destruct (nth_error (connects w) q) as [[]|]; try discriminate;
      inversion C; reflexivity.
Qed.

Lemma rejected_run acts : forall w w',
  reachable w -> nth_error (connects w) 0 = Some Rejected ->
  run acts w = Some w' -> connects w' = connects w.
Proof.
  induction acts as [|a rest IH]; intros w w' R X H; simpl in H.
  - inversion H; reflexivity.
  - destruct (perform a w) as [w1|] eqn:P; [|discriminate].
    pose proof (perform_step _ _ P) as S.
    pose proof (rejected_step R X S) as E1.
    rewrite <- E1. apply IH; [apply (reach_step R S) | congruence | exact H].
Qed.

(** X26.  A failed connection attempt is final.  Once the promise of
    [mongoose.connect] is rejected it stays in the cache: whatever happens
    next (calls, resumptions, module reloads), no new attempt is issued, no
    handle is ever cached, no call returns, and every call suspended on the
    promise resumes by throwing. *)
Theorem connectToDatabase_failure_final (w : Process) (acts : list action)
  (w' : Process) :
  reachable w -> nth_error (connects w) 0 = Some Rejected ->
  run acts w = Some w' ->
  connects w' = [Rejected] /\
  (forall i h, nth_error (calls w') i <> Some (Returned h)) /\
  (exists c, mongooseCache w' = Some c /\ conn c = None /\
             promise c = Some 0) /\
  (forall i p, nth_error (calls w') i = Some (Awaiting p) ->
     exists w'', resume i w' = Some w'' /\
                 nth_error (calls w'') i = Some Thrown /\
                 connects w'' = connects w').
Proof.
  intros R X H. pose proof (rejected_run _ R X H) as E.
  apply (rejected_state (run_reachable _ R H)). rewrite E. exact X.
Qed.

Lemma connectToDatabase_failure_final_witness :
  exists w w',
    run [ActLoad; ActCall; ActCall; ActSettle 0 None] start = Some w /\
    run [ActResume 0; ActLoad; ActCall; ActResume 1; ActResume 2] w
      = Some w' /\
    connects w' = [Rejected] /\ calls w' = [Thrown; Thrown; Thrown].
Proof.
  eexists. eexists. split; [reflexivity|]. split; [reflexivity|].
  split; [|reflexivity].
  exact (proj1 (@connectToDatabase_failure_final _
           [ActResume 0; ActLoad; ActCall; ActResume 1; ActResume 2] _
           (@run_reachable [ActLoad; ActCall; ActCall; ActSettle 0 None]
              start _ reach_start eq_refl)
           eq_refl eq_refl)).
Defined.

(** A call has thrown only if the attempt was rejected. *)
Lemma reachable_thrown w :
  reachable w ->
  forall i, nth_error (calls w) i = Some Thrown ->
            nth_error (connects w) 0 = Some Rejected.
Proof.
  induction 1 as [|w w' R IH S]; [intros [|i]; discriminate|].
  pose proof (reachable_invariant R) as [Ia Iu Ip Ic Il].
  destruct S as [w | w w' C | p o w w' C | i w w' C].
  - exact IH.
  - unfold call in C. destruct (mongooseCache w) as [c0|] eqn:M;
      [|discriminate].
    assert (Old : forall x j,
              x <> Thrown ->
              nth_error (calls w ++ [x]) j = Some Thrown ->
              nth_error (connects w) 0 = Some Rejected).
    { intros x j N. rewrite nth_error_snoc.
      destruct (j <? length (calls w)); [apply IH|].
      destruct (j =? length (calls w)); congruence. }
    destruct (conn c0) as [h|].
    + inversion C; subst. cbn [calls connects]. intros j.
      apply Old. discriminate.
    + destruct (promise c0) as [p|] eqn:P; inversion C; subst;
        cbn [calls connects]; intros j.
      * apply Old. discriminate.
      * rewrite (reachable_uncalled R M P). intros E.
        destruct j as [|[|j]]; discriminate.
  - unfold settle in C.
    destruct (nth_error (connects w) p) as [[]|] eqn:E; try discriminate.
    inversion C; subst. cbn [calls connects]. intros j Ej.
    specialize (IH _ Ej).
    rewrite nth_error_update_other; [exact IH|]. intros ->. congruence.
  - unfold resume in C.
    destruct (nth_error (calls w) i) as [[q| |]|] eqn:Ei; try discriminate.
    destruct (mongooseCache w) as [c0|]; [|discriminate].
    pose proof (Il i) as Li. rewrite Ei in Li. destruct Li as [-> _].
    destruct (nth_error (connects w) 0) as [[]|] eqn:E0; try discriminate;
      inversion C; subst; cbn [calls connects]; intros j Ej;
      destruct (Nat.eq_dec i j) as [<- | D].
    + rewrite nth_error_update_same in Ej by apply (nth_error_lt _ _ Ei).
      discriminate.
    + rewrite nth_error_update_other in Ej by exact D.
      specialize (IH _ Ej). discriminate.
    + exact E0.
    + exact E0.
Qed.

(** X27.  While the connection attempt is pending nothing completes: every
    call made so far is suspended on the one promise, none of them can
    resume, and no handle is cached yet. *)
Theorem connectToDatabase_pending (w : Process) :
  reachable w -> nth_error (connects w) 0 = Some Pending ->
  (forall i cs, nth_error (calls w) i = Some cs -> cs = Awaiting 0) /\
  (forall i, resume i w = None) /\
  (forall c, mongooseCache w = Some c -> conn c = None).
Proof.
  intros R X. pose proof (reachable_invariant R) as [Ia Iu Ip Ic Il].
  assert (A : forall i cs, nth_error (calls w) i = Some cs ->
                           cs = Awaiting 0).
  { intros i cs E. pose proof (Il i) as Li. rewrite E in Li.
    destruct cs as [p|h|].
    - destruct Li as [-> _]. reflexivity.
    - congruence.
    - rewrite (reachable_thrown R _ E) in X. discriminate. }
  split; [exact A|]. split.
  - intros i. unfold resume.
    destruct (nth_error (calls w) i) as [cs|] eqn:E; [|reflexivity].
    rewrite (A _ _ E). destruct (mongooseCache w); [|reflexivity].
    rewrite X. reflexivity.
  - intros c M. destruct (conn c) as [h|] eqn:E; [|reflexivity].
    rewrite (Ic _ _ M E) in X. discriminate.
Qed.

Lemma connectToDatabase_pending_witness :
  exists w, run [ActLoad; ActCall; ActCall] start = Some w /\
    calls w = [Awaiting 0; Awaiting 0] /\ resume 0 w = None.
Proof.
  eexists. split; [reflexivity|]. split; [reflexivity|].
  exact (proj1 (proj2 (@connectToDatabase_pending _
           (@run_reachable [ActLoad; ActCall; ActCall] start _
              reach_start eq_refl) eq_refl)) 0).
Defined.
